(* ===== verification/_CoqProject ===== *)
-Q . S2P
Prelude.v
Rotor.v
PyList.v
Alphabet.v
Normalizer.v
Device.v
OneRotor.v
MultiRotor.v
Tracing.v
SingleRotorBank.v
Attacker.v
