(* ===== verification/Prelude.v ===== *)
(** * Verification of rotor-crypto: a single-rotor and a multi-rotor cipher device

    The repository holds two Python classes, [OneRotorDevice]
    (src/OneRotorDevice.py) and [MultiRotorDevice] (src/MultiRotorDevice.py),
    each followed by a demonstration script.  Both classes keep a fixed
    38-symbol alphabet, a key made of one or several rotors (lists of
    symbols) and rotation speeds; [encrypt] and [decrypt] substitute one
    character at a time through the current rotor and rotate that rotor
    afterwards, so the object's state changes with every character.

    ** Files, in dependency order

    - [Prelude] (this file): the Python exceptions the code can raise, the
      state-and-exception monad [M] every method is written in, its
      notation scope [py_scope], the loop forms of the sources
      ([for_range] for [for i in range(0, n)], [for_acc], [for_fold] and
      [for_each] for the accumulating [for char in msg] loops), [run_opt]
      for loops given by a partial transition function, equality of
      computations
      with its [Proper] instance, Hoare triples over [M] with their
      rules, the tactics and the hint databases shared by all files.
    - [Rotor]: the algebra of the cyclic shift [rotate]: composition,
      period, inverse, permutation and index arithmetic.
    - [PyList]: [list.index], subscripts, [pop(0)], [append] and [%] with
      the exceptions they raise; lenses, which name the attribute or the
      list object a method mutates; the statement
      [l.append(l.pop(0))] and the loop over it, proved to be [rotate].
    - [Alphabet]: the class attribute [__alphabet] and the index of its
      symbols, given by code point for every character ([code_index]).
    - [Normalizer]: [strip], [upper] and the [isalnum] filter at the head
      of both [encrypt] methods.
    - [Device]: the substitution of a rotor and its inverse, and the type
      class [Device] with its laws [DeviceLaws], the contract between a
      device and the message-level theorems; round trip, totality and
      injectivity for whole messages are proved once, against the class.
    - [OneRotor]: Module [OneRotorDevice] (the class: record [t] of the
      attributes [__key] and [__speed], [__init__], [__rotate], [encrypt],
      [decrypt] and the bodies of their loops), its stateless
      specification [spec_run], Module [OneRotorDemo] (lines 40 to 50),
      the [Device] instance and the theorems of the class.
    - [MultiRotor]: Module [MultiRotorDevice] (record [t] of [__key],
      [__speeds] and [__cur_rotor_idx]; [__init__], [__current_rotor],
      [__next_rotor], [__rotate], [encrypt], [decrypt]), the rotor bank
      as a transition function ([selected], [turn], [step], [run]) and in
      closed form ([uses], [bank_after]), Module [MultiRotorDemo] (lines
      82 to 147 as a function of what [random.sample] returns), the
      [Device] instance and the theorems of the class.
    - [Tracing]: Module [Traced], the class [MultiRotorDevice] line by
      line with its flag [__tracing], [enable_tracing], [__show_rotors]
      and every [print] under [if self.__tracing], standard output being
      the list of characters written; the simulation [sim_out] that
      relates it to Module [MultiRotorDevice], which is the class without
      them, and the text each method writes ([encrypt_text],
      [decrypt_text]).
    - [SingleRotorBank]: the simulation between a [OneRotorDevice] and
      the [MultiRotorDevice] with that one rotor.
    - [Attacker]: the script of src/MultiRotorDevice.py, for every outcome
      of the random source: it ends without exception, bob reads the
      message, and eve reads the positions whose rotor she holds.

    ** How the code is modelled

    - A Python [str] and a list of one-character strings are both
      [list ascii]; [list(key)] is therefore a copy that the pure model does
      not need to write out.  Characters are the code points 0 to 255 with
      the classes Python 3 gives them ([isspace], [isalnum], [upper]);
      [upper] of a character is a string, since "ß" becomes "SS".
      Characters above U+00FF are outside the model; theorems that need
      plain text ask for 7-bit characters ([ascii7]).
    - A method of a class is a computation [M state A]: a function from the
      object's state to either [Ok a s'] (the returned value and the state
      afterwards) or [Raise e s'] (the exception and the state the object
      is left in).  The state after an exception is kept because the
      methods mutate the rotors before they may fail.
    - [__init__] copies its key ([list(key)], [[list(k) for k in key]]),
      so two devices built from one key share no rotor; the model builds
      the record from the key's value.  Inside a [MultiRotorDevice] the
      rotor that [__current_rotor] returns is the list object stored in
      the key, and [__rotate] mutates it in place: the model names the
      object by its position ([rotor_ r]) and writes through that lens.
    - Python integers are [Z] where the code may receive a negative one
      (rotation speeds; [range(0, n)] is empty for [n <= 0]), [nat] where
      the code only ever holds a non-negative one (list indices, the
      rotor cursor), so that no subscript is negative.
    - The default [n=1] of [OneRotorDevice.__rotate] is never taken, both
      calls pass [self.__speed]: the model's [__rotate] has [n] as a
      parameter.  The default [rotation_speed=1] of [__init__] is the
      [None] of its optional argument.
    - Standard output is kept per object, as the text that object has
      written; how the output of several objects interleaves is not
      modelled.
    - The loops are structural recursion on the message or on the number
      of iterations; no fuel is needed and every definition evaluates by
      [vm_compute].

    ** What the theorems show

    - Refinement: [encrypt] and [decrypt] of both classes return exactly
      what the specification gives ([spec_run] for one rotor, [run] and
      [bank_after] for the bank), with the final state in closed form:
      each rotor turned by its speed once per use, the cursor moving
      1, 2, ..., m-1, 0, ... whatever the speeds.
    - Round trip and totality: devices in equal states invert each other
      when no rotor has a duplicate; with rotors long enough and a speed
      for every rotor, plain text always encrypts; fresh devices with a
      valid configuration therefore round-trip every plain text to its
      normal form.
    - Position formulas: which symbol of which rotor a ciphertext
      position holds, and hence ([decrypt_agree], [Attacker]) what part
      of the key a position depends on.
    - Exceptions: exactly when and with which exception ([ValueError],
      [IndexError], [ZeroDivisionError]) [encrypt] and [decrypt] of both
      classes fail, with the cause of each, and the state they leave: the
      rotations of the characters before the failing one, and in the bank
      possibly a cursor that has moved without a turn.  [__init__] checks
      nothing, so malformed keys fail at the first character that meets
      the defect.
    - Normalization: the normal form is over the alphabet for plain text,
      is the identity on clean messages, distributes over concatenation
      away from white space, and is not idempotent.
    - A bank of one rotor is a one-rotor device, exceptions included.
    - Tracing: every method of [Traced] returns what the method of
      [MultiRotorDevice] returns on the same key, speeds and cursor,
      raises when it raises, keeps the flag and only appends to the
      output, nothing when the flag is off ([sim]); so the theorems about
      [MultiRotorDevice] hold of the class with tracing on or off, and
      [traced_roundtrip] states the round trip that way.  With the flag
      on, [traced_encrypt_output] and [traced_decrypt_output] give the
      text a run that returns has written, line by line, as a function of
      the rotor bank at each character.
    - The script: for every outcome of [random.sample] made of
      permutations it ends without an exception; an attacker reads the
      positions whose rotor she holds, and whose speed she holds or that
      are the rotor's first use.

    ** What is not modelled

    - [random.sample] and the [print] calls of the two scripts: the
      scripts are modelled as functions from the samples to the values
      they print.
    - Characters above U+00FF, and keys or speeds that are not lists of
      characters and integers (Python would raise [TypeError]). *)

From stdpp Require Import base tactics option list numbers strings.
From Stdlib Require Import Ascii ZArith Lia.

(** ** Strings *)

(** A Python string literal, as the list of its characters. *)
Definition str (s : string) : list ascii := String.list_ascii_of_string s.

(** ** Exceptions and results *)

(** The built-in exceptions the two classes can raise: [list.index] on a
    missing element ([ValueError]), a subscript or [pop] out of range
    ([IndexError]), [%] by zero ([ZeroDivisionError]). *)
Inductive exn : Type :=
  | ValueError
  | IndexError
  | ZeroDivisionError.

#[export] Instance exn_eq_dec : EqDecision exn.
Proof. solve_decision. Defined.

(** The outcome of running a method on an object in state [S]. *)
Inductive res (S A : Type) : Type :=
  | Ok (a : A) (s : S)
  | Raise (e : exn) (s : S).
Arguments Ok {S A} a s.
Arguments Raise {S A} e s.

Definition M (S A : Type) : Type := S → res S A.

Definition ret {S A} (a : A) : M S A := λ s, Ok a s.

Definition bind {S A B} (m : M S A) (k : A → M S B) : M S B :=
  λ s, match m s with
       | Ok a s' => k a s'
       | Raise e s' => Raise e s'
       end.

Definition raise {S A} (e : exn) : M S A := λ s, Raise e s.

Definition gets {S A} (f : S → A) : M S A := λ s, Ok (f s) s.

Definition modify {S} (f : S → S) : M S unit := λ s, Ok tt (f s).

(** A pure built-in that may raise, run inside a method. *)
Definition lift {S A} (r : exn + A) : M S A :=
  λ s, match r with inl e => Raise e s | inr a => Ok a s end.

Definition state_of {S A} (r : res S A) : S :=
  match r with Ok _ s => s | Raise _ s => s end.

Definition value_of {S A} (r : res S A) : exn + A :=
  match r with Ok a _ => inr a | Raise e _ => inl e end.

(** A method call on an object that is not used afterwards: only the
    returned value or the exception is seen. *)
Definition call {S A} (m : M S A) (obj : S) : exn + A := value_of (m obj).

(** Sequencing of statements that may raise, outside any object. *)
Definition ebind {A B} (r : exn + A) (k : A → exn + B) : exn + B :=
  match r with
  | inl e => inl e
  | inr a => k a
  end.

Declare Scope py_scope.
Delimit Scope py_scope with py.
Notation "x <- c1 ;; c2" := (bind c1 (λ x, c2))
  (at level 100, c1 at next level, c2 at level 200, right associativity) : py_scope.
Notation "c1 ;; c2" := (bind c1 (λ _, c2))
  (at level 100, c2 at level 200, right associativity) : py_scope.
Notation "x <~ r ;; k" := (ebind r (λ x, k))
  (at level 100, r at next level, k at level 200, right associativity) : py_scope.
#[global] Open Scope py_scope.

(** ** Loops *)

(** [for i in range(0, n): body i], with [n] any Python integer: the body
    runs [Z.to_nat n] times, that is never when [n <= 0]. *)
Fixpoint for_upto {S} (k : nat) (i : Z) (body : Z → M S unit) : M S unit :=
  match k with
  | O => ret tt
  | S k' => body i ;; for_upto k' (i + 1)%Z body
  end.

Definition for_range {S} (n : Z) (body : Z → M S unit) : M S unit :=
  for_upto (Z.to_nat n) 0%Z body.

(** [out = acc; for x in xs: out += body(x); return out]: the accumulating
    loop of [encrypt] and [decrypt]. *)
Fixpoint for_acc {S A B} (body : A → M S B) (xs : list A) (acc : list B)
    : M S (list B) :=
  match xs with
  | [] => ret acc
  | x :: xs' => y <- body x ;; for_acc body xs' (acc ++ [y])
  end.

(** The same loop when the body reads the accumulator:
    [out = acc; for x in xs: out = body(out, x); return out]. *)
Fixpoint for_fold {S A B} (body : B → A → M S B) (xs : list A) (acc : B) : M S B :=
  match xs with
  | [] => ret acc
  | x :: xs' => acc' <- body acc x ;; for_fold body xs' acc'
  end.

(** The same loop without the accumulator: the reference the proofs use. *)
Fixpoint for_each {S A B} (body : A → M S B) (xs : list A) : M S (list B) :=
  match xs with
  | [] => ret []
  | x :: xs' => y <- body x ;; ys <- for_each body xs' ;; ret (y :: ys)
  end.

(** A loop whose body is a partial transition function: the pure
    counterpart of [for_each], in which [None] stands for any exception. *)
Fixpoint run_opt {S A B} (stepf : A → S → option (B * S)) (xs : list A) (s : S)
    : option (list B * S) :=
  match xs with
  | [] => Some ([], s)
  | x :: xs' =>
      '(y, s1) ← stepf x s;
      '(ys, s') ← run_opt stepf xs' s1;
      Some (y :: ys, s')
  end.

(** ** Equality of computations

    Two computations are equivalent when they agree on every state. *)
#[export] Instance M_equiv {S A} : Equiv (M S A) := λ m1 m2, ∀ s, m1 s = m2 s.

#[export] Instance M_equivalence {S A} : Equivalence (≡@{M S A}).
Proof.
  split; [by intros m s | by intros m1 m2 H s | ].
  intros m1 m2 m3 H1 H2 s. by rewrite H1.
Qed.

#[export] Instance bind_proper {S A B} :
  Proper ((≡) ==> pointwise_relation A (≡) ==> (≡)) (@bind S A B).
Proof.
  intros m1 m2 Hm k1 k2 Hk s. unfold bind. rewrite Hm.
  destruct (m2 s); [apply Hk | done].
Qed.

(** ** Hoare triples

    [hoare P m Q E]: from a state satisfying [P], [m] ends in a state
    satisfying [Q a] when it returns [a] and [E e] when it raises [e]. *)
Definition hoare {S A} (P : S → Prop) (m : M S A)
    (Q : A → S → Prop) (E : exn → S → Prop) : Prop :=
  ∀ s, P s → match m s with Ok a s' => Q a s' | Raise e s' => E e s' end.

(** ** Tactics *)

(** Unfold the monad's primitives and compute. *)
Ltac munfold :=
  unfold bind, ret, raise, gets, modify, lift, for_range in *; simpl in *.

(** Case analysis on the result of the first computation of a [bind]. *)
Ltac res_case :=
  match goal with
  | |- context [match ?m ?s with Ok _ _ => _ | Raise _ _ => _ end] =>
      let R := fresh "R" in destruct (m s) eqn:R; simpl
  | H : context [match ?m ?s with Ok _ _ => _ | Raise _ _ => _ end] |- _ =>
      let R := fresh "R" in destruct (m s) eqn:R; simpl in H
  end.

Create HintDb py discriminated.
Create Rewrite HintDb pyrw.

Section monad_laws.
Context {S A B C : Type}.
Implicit Types (m : M S A) (k : A → M S B) (h : B → M S C).

Lemma bind_ret_l a k : (x <- ret a ;; k x) ≡ k a.
Proof. by intros s. Qed.

Lemma bind_ret_r m : (x <- m ;; ret x) ≡ m.
Proof. intros s. unfold bind, ret. by destruct (m s). Qed.

Lemma bind_assoc m k h :
  (y <- (x <- m ;; k x) ;; h y) ≡ (x <- m ;; y <- k x ;; h y).
Proof. intros s. unfold bind. by destruct (m s). Qed.

Lemma bind_raise e k : (x <- raise e ;; k x) ≡ raise e.
Proof. by intros s. Qed.

Lemma bind_Ok m k s a s' : m s = Ok a s' → (x <- m ;; k x) s = k a s'.
Proof. unfold bind. by intros ->. Qed.

Lemma bind_Raise m k s e s' : m s = Raise e s' → (x <- m ;; k x) s = Raise e s'.
Proof. unfold bind. by intros ->. Qed.

Lemma bind_Ok_inv m k s b s2 :
  (x <- m ;; k x) s = Ok b s2 → ∃ a s1, m s = Ok a s1 ∧ k a s1 = Ok b s2.
Proof. unfold bind. destruct (m s) as [a s1|]; [eauto | done]. Qed.

Lemma bind_Raise_inv m k s e s2 :
  (x <- m ;; k x) s = Raise e s2 →
  m s = Raise e s2 ∨ ∃ a s1, m s = Ok a s1 ∧ k a s1 = Raise e s2.
Proof. unfold bind. destruct (m s) as [a s1|]; [eauto | intros [= -> ->]; eauto]. Qed.
End monad_laws.

#[export] Hint Rewrite @bind_ret_l @bind_assoc : pyrw.

Section calls.
Context {S A : Type}.

(** A call returns a value exactly when the method ends without an
    exception. *)
Lemma call_inr (m : M S A) obj a : call m obj = inr a ↔ ∃ s', m obj = Ok a s'.
Proof. unfold call, value_of. destruct (m obj); naive_solver. Qed.

Lemma call_inl (m : M S A) obj e : call m obj = inl e ↔ ∃ s', m obj = Raise e s'.
Proof. unfold call, value_of. destruct (m obj); naive_solver. Qed.
End calls.

Section loops.
Context {S A B : Type}.
Implicit Types (body : A → M S B) (xs : list A) (acc : list B).

(** The accumulating loop returns the accumulator followed by what
    [for_each] returns, and raises exactly when [for_each] does. *)
Lemma for_acc_for_each body xs acc :
  for_acc body xs acc ≡ (ys <- for_each body xs ;; ret (acc ++ ys)).
Proof.
  revert acc. induction xs as [|x xs IH]; intros acc s; simpl.
  - unfold bind, ret. by rewrite app_nil_r.
  - unfold bind at 1 2 3. destruct (body x s) as [y s1|]; [|done].
    rewrite IH. unfold bind, ret. destruct (for_each body xs s1); [|done].
    by rewrite <-app_assoc.
Qed.

(** A loop whose results are not used, statement by statement. *)
Lemma for_each_cons_seq {C} body x xs (k : M S C) :
  (for_each body (x :: xs) ;; k) ≡ (body x ;; for_each body xs ;; k).
Proof.
  simpl. rewrite bind_assoc. f_equiv. intros y. rewrite bind_assoc.
  f_equiv. intros ys. by rewrite bind_ret_l.
Qed.

(** The accumulating loop is a fold whose body appends what it
    computed. *)
Lemma for_acc_for_fold body xs acc :
  for_acc body xs acc ≡ for_fold (λ acc x, y <- body x ;; ret (acc ++ [y])) xs acc.
Proof.
  revert acc. induction xs as [|x xs IH]; intros acc; simpl; [done|].
  rewrite bind_assoc. f_equiv. intros y. by rewrite bind_ret_l.
Qed.

Lemma for_acc_nil body xs : for_acc body xs [] ≡ for_each body xs.
Proof. rewrite for_acc_for_each. apply bind_ret_r. Qed.

Lemma for_each_app body xs1 xs2 :
  for_each body (xs1 ++ xs2) ≡
  (ys1 <- for_each body xs1 ;; ys2 <- for_each body xs2 ;; ret (ys1 ++ ys2)).
Proof.
  induction xs1 as [|x xs1 IH]; simpl.
  - rewrite bind_ret_l. symmetry. apply bind_ret_r.
  - rewrite bind_assoc. f_equiv. intros y. rewrite IH, !bind_assoc.
    f_equiv. intros ys1. rewrite bind_ret_l, bind_assoc.
    f_equiv. intros ys2. by rewrite bind_ret_l.
Qed.

Lemma for_each_length body xs s ys s' :
  for_each body xs s = Ok ys s' → length ys = length xs.
Proof.
  revert s ys s'. induction xs as [|x xs IH]; intros s ys s'; simpl.
  - by intros [= <- _].
  - intros (y & s1 & _ & H)%bind_Ok_inv.
    apply bind_Ok_inv in H as (ys' & s2 & H & [= <- _]).
    simpl. f_equal. by eapply IH.
Qed.

Lemma for_each_cons_Ok body x xs s ys s' :
  for_each body (x :: xs) s = Ok ys s' ↔
  ∃ y s1 ys', body x s = Ok y s1 ∧ for_each body xs s1 = Ok ys' s' ∧ ys = y :: ys'.
Proof.
  simpl. unfold bind, ret. split.
  - destruct (body x s) as [y s1|]; [|done].
    destruct (for_each body xs s1) as [ys' s2|] eqn:Hxs; [|done].
    intros [= <- <-]. by exists y, s1, ys'.
  - by intros (y & s1 & ys' & -> & -> & ->).
Qed.

(** The loop stops at the first element whose body raises: what was
    accumulated is lost, the state is the one the body left. *)
Lemma for_each_raise body xs1 x xs2 s ys s1 e s2 :
  for_each body xs1 s = Ok ys s1 → body x s1 = Raise e s2 →
  for_each body (xs1 ++ x :: xs2) s = Raise e s2.
Proof.
  intros H1 H2. rewrite for_each_app. unfold bind at 1. rewrite H1. simpl.
  unfold bind. by rewrite H2.
Qed.

(** Conversely, a loop that raises has a first element whose body
    raised. *)
Lemma for_each_Raise_inv body xs s e s' :
  for_each body xs s = Raise e s' →
  ∃ xs1 x xs2 ys s1, xs = xs1 ++ x :: xs2 ∧
    for_each body xs1 s = Ok ys s1 ∧ body x s1 = Raise e s'.
Proof.
  revert s. induction xs as [|x xs IH]; intros s; simpl; [done|].
  unfold bind at 1. destruct (body x s) as [y s1|e1 s1] eqn:Hx.
  - unfold bind, ret. destruct (for_each body xs s1) as [ys s2|e2 s2] eqn:Hxs; [done|].
    intros [= -> ->]. destruct (IH _ Hxs) as (xs1 & x' & xs2 & ys & s3 & -> & H1 & H2).
    exists (x :: xs1), x', xs2, (y :: ys), s3. split; [done|]. split; [|done].
    simpl. unfold bind, ret. by rewrite Hx, H1.
  - intros [= -> ->]. by exists [], x, xs, [], s.
Qed.

(** A loop whose body returns exactly when a transition function does
    returns exactly when the iterated transition function does. *)
Lemma for_each_run_opt body (stepf : A → S → option (B * S)) xs s ys s' :
  (∀ x s y s', body x s = Ok y s' ↔ stepf x s = Some (y, s')) →
  for_each body xs s = Ok ys s' ↔ run_opt stepf xs s = Some (ys, s').
Proof.
  intros Hbody. revert s ys s'. induction xs as [|x xs IH]; intros s ys s'.
  - simpl. unfold ret. naive_solver.
  - rewrite for_each_cons_Ok. simpl. rewrite bind_Some. split.
    + intros (y & s1 & ys' & Hy%Hbody & Hys%IH & ->).
      exists (y, s1). split; [done|]. simpl. by rewrite Hys.
    + intros ([y s1] & Hy%Hbody & ([ys' s2] & Hys%IH & [= <- <-])%bind_Some).
      by exists y, s1, ys'.
Qed.

Lemma run_opt_app (stepf : A → S → option (B * S)) xs1 xs2 s :
  run_opt stepf (xs1 ++ xs2) s =
    '(ys1, s1) ← run_opt stepf xs1 s;
    '(ys2, s2) ← run_opt stepf xs2 s1;
    Some (ys1 ++ ys2, s2).
Proof.
  revert s. induction xs1 as [|x xs1 IH]; intros s; simpl.
  - by destruct (run_opt stepf xs2 s) as [[??]|].
  - destruct (stepf x s) as [[y s1]|]; simpl; [|done]. rewrite IH.
    destruct (run_opt stepf xs1 s1) as [[ys1 s2]|]; simpl; [|done].
    by destruct (run_opt stepf xs2 s2) as [[??]|].
Qed.

Lemma run_opt_length (stepf : A → S → option (B * S)) xs s ys s' :
  run_opt stepf xs s = Some (ys, s') → length ys = length xs.
Proof.
  revert s ys s'. induction xs as [|x xs IH]; intros s ys s'; simpl; [by intros [= <- _]|].
  intros ([y s1] & _ & ([ys' s2] & Hys%IH & [= <- _])%bind_Some)%bind_Some.
  simpl. by f_equal.
Qed.

Lemma for_each_Raise_iff body xs s e s' :
  for_each body xs s = Raise e s' ↔
  ∃ xs1 x xs2 ys s1, xs = xs1 ++ x :: xs2 ∧
    for_each body xs1 s = Ok ys s1 ∧ body x s1 = Raise e s'.
Proof.
  split; [apply for_each_Raise_inv|].
  intros (xs1 & x & xs2 & ys & s1 & -> & H1 & Hx). by eapply for_each_raise.
Qed.

(** The output at a position comes from the step on the input at that
    position, in the state the inputs before it led to. *)
Lemma run_opt_lookup (stepf : A → S → option (B * S)) xs s ys s' n x :
  run_opt stepf xs s = Some (ys, s') → xs !! n = Some x →
  ∃ ys1 s1 y s2, run_opt stepf (take n xs) s = Some (ys1, s1) ∧
    stepf x s1 = Some (y, s2) ∧ ys !! n = Some y.
Proof.
  revert s ys n. induction xs as [|x' xs IH]; intros s ys n; simpl; [done|].
  intros ([y s1] & Hy & ([ys' s2] & Hys & [= <- <-])%bind_Some)%bind_Some Hn.
  destruct n as [|n]; simpl in *.
  - injection Hn as ->. by exists [], s, y, s1.
  - destruct (IH _ _ _ Hys Hn) as (ys1 & s3 & z & s4 & H1 & H2 & H3).
    exists (y :: ys1), s3, z, s4. split_and!; [|done..]. rewrite Hy. simpl. by rewrite H1.
Qed.
End loops.

Section for_range.
Context {S : Type}.
Implicit Types (body : Z → M S unit).

Lemma for_range_nonpos n body : (n ≤ 0)%Z → for_range n body ≡ ret tt.
Proof. intros Hn s. unfold for_range. by replace (Z.to_nat n) with 0 by lia. Qed.

Lemma for_upto_S k i body :
  for_upto (Datatypes.S k) i body ≡ (body i ;; for_upto k (i + 1)%Z body).
Proof. done. Qed.
End for_range.

Section hoare_rules.
Context {S : Type}.

Lemma hoare_ret {A} (a : A) (Q : A → S → Prop) E : hoare (Q a) (ret a) Q E.
Proof. by intros s. Qed.

Lemma hoare_raise {A} e (Q : A → S → Prop) (E : exn → S → Prop) :
  hoare (E e) (raise e) Q E.
Proof. by intros s. Qed.

Lemma hoare_bind {A B} (m : M S A) (k : A → M S B) P Q R E :
  hoare P m Q E → (∀ a, hoare (Q a) (k a) R E) → hoare P (x <- m ;; k x) R E.
Proof.
  intros Hm Hk s HP. specialize (Hm s HP). unfold bind.
  destruct (m s) as [a s1|]; [by apply Hk | done].
Qed.

Lemma hoare_conseq {A} (m : M S A) (P P' : S → Prop) (Q Q' : A → S → Prop)
    (E E' : exn → S → Prop) :
  hoare P' m Q' E' →
  (∀ s, P s → P' s) → (∀ a s, Q' a s → Q a s) → (∀ e s, E' e s → E e s) →
  hoare P m Q E.
Proof.
  intros Hm HP HQ HE s Hs. specialize (Hm s (HP s Hs)).
  destruct (m s); eauto.
Qed.

Lemma hoare_Ok {A} (I : S → Prop) (m : M S A) s a s' :
  hoare I m (λ _, I) (λ _, I) → I s → m s = Ok a s' → I s'.
Proof. intros Hm Hs Hr. specialize (Hm s Hs). by rewrite Hr in Hm. Qed.

Lemma hoare_Raise {A} (I : S → Prop) (m : M S A) s e s' :
  hoare I m (λ _, I) (λ _, I) → I s → m s = Raise e s' → I s'.
Proof. intros Hm Hs Hr. specialize (Hm s Hs). by rewrite Hr in Hm. Qed.

Lemma hoare_gets {A} (f : S → A) (Q : A → S → Prop) E :
  hoare (λ s, Q (f s) s) (gets f) Q E.
Proof. by intros s. Qed.

Lemma hoare_lift {A} (r : exn + A) (P : S → Prop) :
  hoare P (lift r) (λ a s, r = inr a ∧ P s) (λ e s, r = inl e ∧ P s).
Proof. intros s HP. by destruct r. Qed.

(** An invariant of the loop body, on returns and on exceptions, is an
    invariant of the loop. *)
Lemma hoare_for_upto (I : S → Prop) k i (body : Z → M S unit) :
  (∀ j, hoare I (body j) (λ _, I) (λ _, I)) →
  hoare I (for_upto k i body) (λ _, I) (λ _, I).
Proof.
  intros Hb. revert i. induction k as [|k IH]; intros i; simpl.
  - by intros s Hs.
  - eapply hoare_bind; [apply Hb | intros u; apply IH].
Qed.

Lemma hoare_for_each {A B} (I : S → Prop) (body : A → M S B) xs :
  (∀ x, hoare I (body x) (λ _, I) (λ _, I)) →
  hoare I (for_each body xs) (λ _, I) (λ _, I).
Proof.
  intros Hb. induction xs as [|x xs IH]; simpl; [by intros s Hs|].
  eapply hoare_bind; [apply Hb | intros y].
  eapply hoare_bind; [apply IH | by intros ys s Hs].
Qed.

Lemma hoare_for_acc {A B} (I : S → Prop) (body : A → M S B) xs acc :
  (∀ x, hoare I (body x) (λ _, I) (λ _, I)) →
  hoare I (for_acc body xs acc) (λ _, I) (λ _, I).
Proof.
  intros Hb s Hs. rewrite for_acc_for_each.
  pose proof (hoare_for_each I body xs Hb s Hs) as H. unfold bind, ret.
  by destruct (for_each body xs s).
Qed.
End hoare_rules.
