(* ===== verification/Rotor.v ===== *)
(** * Rotor: the theory of cyclic left shifts

    A rotor is a list of symbols; the devices rotate it "left" ("up") by
    moving its first element to the back, a number of times.  The closed
    form of [n] such moves is stdpp's [rotate n l], which this file equips
    with the lemmas the devices need: composition, reduction modulo the
    length, the position a symbol moves to, the invariants a rotation
    keeps (length, multiset of symbols, absence of duplicates) and the
    period after which a rotor is back in its initial position. *)

From stdpp Require Import base tactics option list numbers strings.
From Stdlib Require Import ZArith Lia.
From S2P Require Import Prelude.

Section rotate.
Context {A : Type}.
Implicit Types (l : list A) (n m i : nat) (x : A).

Lemma rotate_nil n : rotate n (@nil A) = [].
Proof. unfold rotate. by rewrite drop_nil, take_nil. Qed.

Lemma rotate_0 l : rotate 0 l = l.
Proof. unfold rotate. rewrite Nat.Div0.mod_0_l. simpl. by rewrite app_nil_r. Qed.

(** One move of the head to the back is a rotation by one. *)
Lemma rotate_cons_1 x l : rotate 1 (x :: l) = l ++ [x].
Proof.
  unfold rotate. destruct l as [|y l]; [done|].
  by rewrite Nat.mod_small by (simpl; lia).
Qed.

Lemma rotate_nat_add_nat n i len :
  0 < len → rotate_nat_add n i len = (n + i) mod len.
Proof.
  intros Hlen. unfold rotate_nat_add.
  rewrite <-Nat2Z.inj_add, <-Nat2Z.inj_mod. apply Nat2Z.id.
Qed.

(** The symbol at position [i] of the rotated rotor is the one that was
    [n] positions further, cyclically. *)
Lemma lookup_rotate n l i :
  i < length l → rotate n l !! i = l !! ((n + i) mod length l).
Proof.
  intros Hi. rewrite lookup_rotate_r by done.
  by rewrite rotate_nat_add_nat by lia.
Qed.

Lemma rotate_add n m l : rotate n (rotate m l) = rotate (m + n) l.
Proof.
  destruct (decide (length l = 0)) as [->%nil_length_inv|Hne].
  { by rewrite !rotate_nil. }
  assert (0 < length l) as Hpos by lia.
  apply list_eq. intros i. destruct (decide (i < length l)) as [Hi|Hi].
  - rewrite lookup_rotate, length_rotate by by rewrite length_rotate.
    rewrite !lookup_rotate by (done || by apply Nat.mod_upper_bound).
    f_equal. rewrite Nat.Div0.add_mod_idemp_r. f_equal. lia.
  - rewrite !lookup_ge_None_2; rewrite ?length_rotate; done || lia.
Qed.

Lemma rotate_S n l : rotate (S n) l = rotate 1 (rotate n l).
Proof. rewrite rotate_add. f_equal. lia. Qed.

Lemma rotate_mod n l : rotate (n mod length l) l = rotate n l.
Proof. unfold rotate. by rewrite Nat.Div0.mod_mod. Qed.

Lemma rotate_mod_0 n l : n mod length l = 0 → rotate n l = l.
Proof. intros H. by rewrite <-rotate_mod, H, rotate_0. Qed.

Lemma rotate_length l : rotate (length l) l = l.
Proof. apply rotate_mod_0, Nat.Div0.mod_same. Qed.

Lemma rotate_mul_length k l : rotate (k * length l) l = l.
Proof. apply rotate_mod_0, Nat.Div0.mod_mul. Qed.

(** ** Invariants of a rotation *)

Lemma rotate_Permutation n l : rotate n l ≡ₚ l.
Proof.
  unfold rotate. rewrite Permutation_app_comm. by rewrite take_drop.
Qed.

Lemma NoDup_rotate n l : NoDup (rotate n l) ↔ NoDup l.
Proof. by rewrite rotate_Permutation. Qed.

Lemma rotate_eq_nil n l : rotate n l = [] ↔ l = [].
Proof.
  split; [|intros ->; apply rotate_nil].
  intros H. apply nil_length_inv. by rewrite <-(length_rotate l n), H.
Qed.

(** ** Period *)

(** A rotor without duplicates is back in its initial position exactly
    when the total shift is a multiple of its length. *)
Lemma rotate_period n l :
  NoDup l → l ≠ [] → rotate n l = l ↔ n mod length l = 0.
Proof.
  intros Hnd Hne. assert (0 < length l) as Hpos by (destruct l; simpl; done || lia).
  split.
  - intros Heq. assert (rotate n l !! 0 = l !! 0) as H0 by by rewrite Heq.
    rewrite lookup_rotate, Nat.add_0_r in H0 by done.
    destruct (l !! 0) as [x|] eqn:Hx; [|by apply lookup_ge_None in Hx; lia].
    eapply NoDup_lookup; eauto.
  - apply rotate_mod_0.
Qed.

(** Rotating back: a shift by [n] is undone by a shift by the
    complement of [n] modulo the length. *)
Lemma rotate_inverse n l :
  rotate (length l - n mod length l) (rotate n l) = l.
Proof.
  destruct (decide (length l = 0)) as [->%nil_length_inv|Hne].
  { by rewrite !rotate_nil. }
  pose proof (Nat.mod_upper_bound n (length l) Hne).
  rewrite rotate_add. apply rotate_mod_0.
  rewrite <-Nat.Div0.add_mod_idemp_l.
  replace (n mod length l + (length l - n mod length l)) with (1 * length l) by lia.
  apply Nat.Div0.mod_mul.
Qed.
End rotate.

#[export] Instance rotate_Permutation_proper {A} n :
  Proper ((≡ₚ) ==> (≡ₚ)) (@rotate A n).
Proof. intros l1 l2 H. by rewrite !rotate_Permutation. Qed.

#[export] Hint Rewrite @rotate_nil @rotate_0 @rotate_add @length_rotate : pyrw.
#[export] Hint Resolve rotate_Permutation : py.
