(* ===== verification/PyList.v ===== *)
(** * PyList: the Python list operations the devices call

    The sources use four operations of Python lists: [l.index(x)],
    [l[i]], [l.pop(0)] and [l.append(x)].  This file models each as a pure
    function that returns the exception Python raises ([exn + _]), then as
    a computation on an attribute of an object.  An attribute that holds a
    list is a [lens] into the object's state: [view] reads the list the
    attribute refers to and [set] stores a list there, so that a mutation
    through one name of a list is seen through every other name of it.

    The last section proves the loop of both [__rotate] methods once, for
    any attribute: [n] times [l.append(l.pop(0))] is [rotate n]. *)

From stdpp Require Import base tactics option list numbers strings.
From Stdlib Require Import ZArith Lia.
From S2P Require Import Prelude.
From S2P Require Import Rotor.

(** ** Pure list operations *)

Section builtins.
Context {A : Type} `{EqDecision A}.
Implicit Types (l : list A) (x y : A) (i j : nat).

(** [l.index(x)]: the first position of [x]; [ValueError] when [x] is
    not in the list. *)
Fixpoint list_index (l : list A) (x : A) : exn + nat :=
  match l with
  | [] => inl ValueError
  | y :: l' =>
      if decide (y = x) then inr 0
      else match list_index l' x with
           | inr i => inr (S i)
           | inl e => inl e
           end
  end.

(** [l[i]] for a non-negative [i]: [IndexError] past the end. *)
Definition list_getitem (l : list A) (i : nat) : exn + A :=
  match l !! i with
  | Some x => inr x
  | None => inl IndexError
  end.

(** [l.pop(0)]: the first element and the rest; [IndexError] on the
    empty list. *)
Definition list_pop0 (l : list A) : exn + (A * list A) :=
  match l with
  | [] => inl IndexError
  | x :: l' => inr (x, l')
  end.

(** [l.append(x)]. *)
Definition list_append (l : list A) (x : A) : list A := l ++ [x].

(** [a % b] on non-negative integers: [ZeroDivisionError] when [b] is 0. *)
Definition py_mod (a b : nat) : exn + nat :=
  if decide (b = 0) then inl ZeroDivisionError else inr (a mod b).

Lemma list_index_inr l x i :
  list_index l x = inr i ↔ l !! i = Some x ∧ ∀ j, j < i → l !! j ≠ Some x.
Proof.
  revert i. induction l as [|y l IH]; intros i; simpl.
  - split; [done | by intros [? _]].
  - case_decide as Hy; [subst y|].
    + split.
      * intros [= <-]. split; [done | lia].
      * intros [Hi Hmin]. destruct i as [|i]; [done|].
        by destruct (Hmin 0); [lia|].
    + assert (∀ i, (y :: l) !! S i = Some x →
                (∀ j, j < S i → (y :: l) !! j ≠ Some x) → list_index l x = inr i)
        as Htl.
      { intros k Hk Hmin. apply IH. split; [done|].
        intros j Hj. apply (Hmin (S j)). lia. }
      destruct (list_index l x) as [e|i'].
      * split; [done|]. intros [Hi Hmin].
        destruct i as [|i]; [naive_solver | by specialize (Htl i Hi Hmin)].
      * split.
        -- intros [= <-]. destruct (proj1 (IH i') eq_refl) as [Hi Hmin].
           split; [done|]. intros [|j] Hj; simpl; [naive_solver|]. apply Hmin. lia.
        -- intros [Hi Hmin]. destruct i as [|i]; [naive_solver|].
           by specialize (Htl i Hi Hmin) as [= ->].
Qed.

Lemma list_index_inl l x e : list_index l x = inl e ↔ e = ValueError ∧ x ∉ l.
Proof.
  induction l as [|y l IH]; simpl.
  - split; [intros [= <-]; split; [done | apply not_elem_of_nil] | by intros [-> _]].
  - rewrite not_elem_of_cons. case_decide as Hy; [naive_solver|].
    destruct (list_index l x) as [e'|i]; naive_solver.
Qed.

Lemma list_index_elem_of l x : x ∈ l → ∃ i, list_index l x = inr i.
Proof.
  intros Hx. destruct (list_index l x) as [e|i] eqn:H0; [|eauto].
  by apply list_index_inl in H0 as [_ ?].
Qed.

Lemma list_index_lookup l x i : list_index l x = inr i → l !! i = Some x.
Proof. by intros [? _]%list_index_inr. Qed.

Lemma list_index_lt l x i : list_index l x = inr i → i < length l.
Proof. intros ?%list_index_lookup. by eapply lookup_lt_Some. Qed.

(** In a list without duplicates, [index] inverts the subscript. *)
Lemma list_index_NoDup l x i : NoDup l → l !! i = Some x → list_index l x = inr i.
Proof.
  intros Hnd Hi. apply list_index_inr. split; [done|].
  intros j Hj Hjx. pose proof (NoDup_lookup l i j x Hnd Hi Hjx). lia.
Qed.

Lemma list_getitem_inr l i x : list_getitem l i = inr x ↔ l !! i = Some x.
Proof. unfold list_getitem. destruct (l !! i); naive_solver. Qed.

Lemma list_getitem_inl l i e :
  list_getitem l i = inl e ↔ e = IndexError ∧ length l ≤ i.
Proof.
  unfold list_getitem. destruct (l !! i) eqn:Hi.
  - apply lookup_lt_Some in Hi. split; [done | lia].
  - apply lookup_ge_None in Hi. naive_solver.
Qed.

Lemma list_getitem_index l x i : list_index l x = inr i → list_getitem l i = inr x.
Proof. intros ?%list_index_lookup. by apply list_getitem_inr. Qed.

Lemma list_index_getitem l x i :
  NoDup l → list_getitem l i = inr x → list_index l x = inr i.
Proof. intros ? ?%list_getitem_inr. by apply list_index_NoDup. Qed.
End builtins.

(** ** Attributes that hold a list *)

Record lens (S T : Type) : Type := Lens {
  view : S → T;
  set : T → S → S;
}.
Arguments Lens {S T} view set.
Arguments view {S T} _ _.
Arguments set {S T} _ _ _.

(** The laws of an attribute, on the states where it refers to an object
    ([valid]): what is stored is what is read, storing changes nothing
    else, and storing what is there changes nothing. *)
Class LensLaws {S T} (L : lens S T) (valid : S → Prop) : Prop := {
  view_set s t : valid s → view L (set L t s) = t;
  set_valid s t : valid s → valid (set L t s);
  set_set s t t' : set L t' (set L t s) = set L t' s;
  set_view s : set L (view L s) s = s;
}.

Section attribute.
Context {S A : Type} `{EqDecision A} (L : lens S (list A)).

(** [self.attr.pop(0)] *)
Definition pop0 : M S A := λ s,
  match list_pop0 (view L s) with
  | inr (x, l') => Ok x (set L l' s)
  | inl e => Raise e s
  end.

(** [self.attr.append(x)] *)
Definition append (x : A) : M S unit := λ s,
  Ok tt (set L (list_append (view L s) x) s).

(** [self.attr[i]] *)
Definition getitem (i : nat) : M S A := λ s, lift (list_getitem (view L s) i) s.

(** [self.attr.index(x)] *)
Definition index (x : A) : M S nat := λ s, lift (list_index (view L s) x) s.

(** The body of the rotation loop: [l.append(l.pop(0))]. *)
Definition pop_append : M S unit := x <- pop0 ;; append x.

Context (valid : S → Prop) `{!LensLaws L valid}.

Lemma pop_append_run s :
  valid s → view L s ≠ [] → pop_append s = Ok tt (set L (rotate 1 (view L s)) s).
Proof.
  intros Hv Hne. unfold pop_append, bind, pop0, append.
  destruct (view L s) as [|x l] eqn:Hl; [done|]. simpl.
  by rewrite view_set, set_set, rotate_cons_1.
Qed.

Lemma pop_append_empty s : view L s = [] → pop_append s = Raise IndexError s.
Proof. intros Hl. unfold pop_append, bind, pop0. by rewrite Hl. Qed.

(** [k] iterations of [l.append(l.pop(0))] on a non-empty list rotate
    it by [k]; the loop cannot fail half-way. *)
Lemma for_upto_pop_append k i s :
  valid s → view L s ≠ [] →
  for_upto k i (λ _, pop_append) s = Ok tt (set L (rotate k (view L s)) s).
Proof.
  revert i s. induction k as [|k IH]; intros i s Hv Hne; simpl.
  - by rewrite rotate_0, set_view.
  - unfold bind at 1. rewrite pop_append_run by done.
    rewrite IH; [|by apply set_valid| rewrite view_set by done; by rewrite rotate_eq_nil].
    by rewrite view_set, set_set, rotate_add by done.
Qed.

Lemma for_range_pop_append n s :
  valid s → view L s ≠ [] →
  for_range n (λ _, pop_append) s = Ok tt (set L (rotate (Z.to_nat n) (view L s)) s).
Proof. apply for_upto_pop_append. Qed.

(** On the empty list the first iteration raises, if there is one. *)
Lemma for_range_pop_append_empty n s :
  view L s = [] →
  for_range n (λ _, pop_append) s =
    if decide (0 < n)%Z then Raise IndexError s else Ok tt s.
Proof.
  intros Hl. unfold for_range. case_decide as Hn.
  - destruct (Z.to_nat n) as [|k] eqn:Hk; [lia|]. simpl.
    unfold bind. by rewrite pop_append_empty.
  - by replace (Z.to_nat n) with 0 by lia.
Qed.
End attribute.
