(* ===== verification/Alphabet.v ===== *)
(** * Alphabet: the fixed symbol set of both devices

    Both classes declare the same class attribute
    [__alphabet = list('ABCDEFGHIJKLMNOPQRSTUVWXYZ0123456789. ')]: 26 upper
    case letters, 10 digits, the period and the space, 38 symbols whose
    position in the list is their index (the specification counts 39; the
    literal of the sources has 38).  Characters are [ascii]: the code points
    0 to 255. *)

From stdpp Require Import base tactics option list numbers strings.
From Stdlib Require Import Ascii ZArith Lia.
From S2P Require Import Prelude.
From S2P Require Import PyList.

(** The code point of a character (Python's [ord]). *)
Definition ord (c : ascii) : N := N_of_ascii c.

(** [lo <= ord(c) <= hi] *)
Definition between (lo hi : N) (c : ascii) : bool :=
  (lo <=? ord c)%N && (ord c <=? hi)%N.

Definition alphabet : list ascii :=
  str "ABCDEFGHIJKLMNOPQRSTUVWXYZ0123456789. ".

(** Membership in the alphabet, by code point. *)
Definition in_alphabet (c : ascii) : bool :=
  between 65 90 c || between 48 57 c
  || bool_decide (c = "."%char) || bool_decide (c = " "%char).

(** The index of a character in the alphabet, computed from its code
    point: the specification of [__alphabet.index(char)]. *)
Definition code_index (c : ascii) : exn + nat :=
  if between 65 90 c then inr (N.to_nat (ord c) - 65)
  else if between 48 57 c then inr (N.to_nat (ord c) - 48 + 26)
  else if bool_decide (c = "."%char) then inr 36
  else if bool_decide (c = " "%char) then inr 37
  else inl ValueError.

(** Case analysis on the 256 characters. *)
Ltac ascii_cases c := destruct c as [[] [] [] [] [] [] [] []].

Lemma alphabet_length : length alphabet = 38.
Proof. reflexivity. Qed.

Lemma NoDup_alphabet : NoDup alphabet.
Proof. by apply (bool_decide_unpack _); vm_compute. Qed.

Lemma alphabet_ne : alphabet ≠ [].
Proof. done. Qed.

Lemma in_alphabet_decide c : bool_decide (c ∈ alphabet) = in_alphabet c.
Proof. ascii_cases c; vm_compute; reflexivity. Qed.

Lemma elem_of_alphabet c : c ∈ alphabet ↔ in_alphabet c.
Proof. by rewrite <-in_alphabet_decide, bool_decide_spec. Qed.

(** Every symbol of the alphabet has an index below 38, and the index
    leads back to the symbol. *)
Lemma alphabet_index c :
  c ∈ alphabet → ∃ i, list_index alphabet c = inr i ∧ i < 38 ∧ alphabet !! i = Some c.
Proof.
  intros [i Hi]%list_index_elem_of. exists i. split; [done|].
  split; [by apply list_index_lt in Hi | by apply list_index_lookup].
Qed.

Lemma alphabet_index_inl c : c ∉ alphabet → list_index alphabet c = inl ValueError.
Proof. intros Hc. by apply list_index_inl. Qed.

Lemma alphabet_lookup_index i c :
  alphabet !! i = Some c → list_index alphabet c = inr i.
Proof. apply list_index_NoDup, NoDup_alphabet. Qed.

#[export] Hint Resolve NoDup_alphabet alphabet_ne : py.

(** C38: [__alphabet.index(char)] by code point, for every character: a
    capital letter has the index [ord(char) - 65], a digit
    [ord(char) - 48 + 26], the period 36 and the space 37, so every index
    is below 38; on any other character [index] raises [ValueError]. *)
Theorem alphabet_index_by_code c :
  list_index alphabet c = code_index c ∧
  ∀ i, list_index alphabet c = inr i → i < 38 ∧ alphabet !! i = Some c.
Proof.
  split; [ascii_cases c; vm_compute; reflexivity|].
  intros i Hi. split; [by apply list_index_lt in Hi | by apply list_index_lookup].
Qed.
