(* ===== verification/Normalizer.v ===== *)
(** * Normalizer: the text filter at the head of [encrypt]

    Both [encrypt] methods start with
    [[
      msg = plaintext.strip().upper()
      msg = ''.join(e for e in msg if e.isalnum() or e in [' ', '.'])
    ]]
    The [str] methods are modelled on the code points 0 to 255 with the
    classes Python 3 gives them: [isspace] holds of the ASCII white space,
    of the separators 0x1c to 0x1f, of NEL (0x85) and of the no-break
    space (0xa0); [isalnum] holds of the ASCII letters and digits and of
    the Latin-1 letters, superscript digits and fractions.  [upper] maps
    a character to a string because the sharp s becomes "SS".  Two
    characters have an upper case outside Latin-1 (the micro sign and y
    with diaeresis): the model writes them unchanged, which stands for
    their upper case, a letter outside the alphabet just as they are. *)

From stdpp Require Import base tactics option list numbers strings.
From Stdlib Require Import Ascii ZArith Lia.
From S2P Require Import Prelude.
From S2P Require Import PyList.
From S2P Require Import Alphabet.

(** [c.isspace()] *)
Definition isspace (c : ascii) : bool :=
  between 9 13 c || between 28 32 c || (ord c =? 133)%N || (ord c =? 160)%N.

(** [c.isalnum()] *)
Definition isalnum (c : ascii) : bool :=
  between 48 57 c || between 65 90 c || between 97 122 c
  || (ord c =? 170)%N || between 178 179 c || (ord c =? 181)%N
  || between 185 186 c || between 188 190 c
  || between 192 214 c || between 216 246 c || between 248 255 c.

(** [c.upper()], a string. *)
Definition upper_char (c : ascii) : list ascii :=
  if between 97 122 c || between 224 246 c || between 248 254 c
  then [ascii_of_N (ord c - 32)]
  else if (ord c =? 223)%N then ["S"; "S"]%char
  else [c].

(** [s.upper()] *)
Definition upper (s : list ascii) : list ascii := s ≫= upper_char.

(** [s.lstrip()] *)
Fixpoint lstrip (s : list ascii) : list ascii :=
  match s with
  | [] => []
  | c :: s' => if isspace c then lstrip s' else s
  end.

(** [s.rstrip()] *)
Definition rstrip (s : list ascii) : list ascii := reverse (lstrip (reverse s)).

(** [s.strip()] *)
Definition strip (s : list ascii) : list ascii := rstrip (lstrip s).

(** The filter's test: [e.isalnum() or e in [' ', '.']]. *)
Definition keep (e : ascii) : bool :=
  isalnum e || bool_decide (e ∈ [" "; "."]%char).

Definition normalize (plaintext : list ascii) : list ascii :=
  let msg := upper (strip plaintext) in
  filter (λ e, keep e) msg.

(** A character of 7-bit ASCII. *)
Definition ascii7 (c : ascii) : bool := (ord c <? 128)%N.

(** ** Characters *)

Lemma keep_upper_ascii7 c e :
  ascii7 c → e ∈ upper_char c → keep e → e ∈ alphabet.
Proof.
  rewrite elem_of_alphabet. revert e.
  ascii_cases c; (intros e Hc; try done);
    intros He; repeat (apply elem_of_cons in He as [->|He]; [by vm_compute|]);
    by apply elem_of_nil in He.
Qed.

Lemma alphabet_keep c : c ∈ alphabet → keep c.
Proof. rewrite elem_of_alphabet. by ascii_cases c. Qed.

Lemma alphabet_upper_char c : c ∈ alphabet → upper_char c = [c].
Proof. rewrite elem_of_alphabet. by ascii_cases c. Qed.

Lemma alphabet_ascii7 c : c ∈ alphabet → ascii7 c.
Proof. rewrite elem_of_alphabet. by ascii_cases c. Qed.

(** The only white space the filter keeps is the space. *)
Lemma keep_isspace c : keep c → isspace c → c = " "%char.
Proof. by ascii_cases c. Qed.

(** ** [strip] *)

Lemma lstrip_suffix s : lstrip s `suffix_of` s.
Proof.
  induction s as [|c s IH]; simpl; [done|].
  destruct (isspace c); [by apply suffix_cons_r | done].
Qed.

Lemma lstrip_head s c : head (lstrip s) = Some c → ¬ isspace c.
Proof.
  induction s as [|d s IH]; simpl; [done|].
  destruct (isspace d) eqn:Hd; [done|]. simpl. intros [= <-] H. by rewrite Hd in H.
Qed.

Lemma lstrip_id s : (∀ c, head s = Some c → ¬ isspace c) → lstrip s = s.
Proof.
  destruct s as [|c s]; simpl; [done|]. intros H.
  specialize (H c eq_refl). by destruct (isspace c).
Qed.

Lemma lstrip_idemp s : lstrip (lstrip s) = lstrip s.
Proof. apply lstrip_id, lstrip_head. Qed.

(** [lstrip] removes a prefix of white space, and nothing else. *)
Lemma lstrip_spec s : ∃ l, s = l ++ lstrip s ∧ Forall (λ c, isspace c) l.
Proof.
  induction s as [|c s (l & Hs & Hl)]; simpl; [by exists []|].
  destruct (isspace c) eqn:Hc; [|by exists []].
  exists (c :: l). split; [by rewrite <-app_comm_cons, <-Hs|].
  constructor; [by rewrite Hc | done].
Qed.

Lemma rstrip_spec s : ∃ r, s = rstrip s ++ r ∧ Forall (λ c, isspace c) r.
Proof.
  destruct (lstrip_spec (reverse s)) as (l & Hs & Hl). exists (reverse l). split.
  - unfold rstrip. by rewrite <-reverse_app, <-Hs, reverse_involutive.
  - by apply Forall_reverse.
Qed.

(** [strip] removes white space at both ends, and nothing else. *)
Lemma strip_spec s :
  ∃ l r, s = l ++ strip s ++ r ∧ Forall (λ c, isspace c) l ∧ Forall (λ c, isspace c) r.
Proof.
  destruct (lstrip_spec s) as (l & Hs & Hl).
  destruct (rstrip_spec (lstrip s)) as (r & Hs' & Hr).
  exists l, r. unfold strip. by rewrite <-Hs', <-Hs.
Qed.

Lemma strip_last s c : last (strip s) = Some c → ¬ isspace c.
Proof.
  unfold strip, rstrip. rewrite last_reverse. apply lstrip_head.
Qed.

Lemma rstrip_id s : (∀ c, last s = Some c → ¬ isspace c) → rstrip s = s.
Proof.
  intros H. unfold rstrip. rewrite lstrip_id, reverse_involutive; [done|].
  intros c. rewrite head_reverse. apply H.
Qed.

(** A string that neither starts nor ends with white space is left as it
    is. *)
Lemma strip_id s :
  (∀ c, head s = Some c → ¬ isspace c) → (∀ c, last s = Some c → ¬ isspace c) →
  strip s = s.
Proof. intros Hh Hl. unfold strip. by rewrite lstrip_id, rstrip_id. Qed.

(** ** [normalize] *)

Lemma normalize_keep p : Forall (λ e, keep e) (normalize p).
Proof. unfold normalize. apply Forall_forall. by intros e [? _]%list_elem_of_filter. Qed.

Lemma upper_alphabet s : Forall (.∈ alphabet) s → upper s = s.
Proof.
  induction 1 as [|c s Hc _ IH]; [done|].
  unfold upper in *. rewrite bind_cons, IH. by rewrite alphabet_upper_char.
Qed.

Lemma filter_keep_alphabet s : Forall (.∈ alphabet) s → filter (λ e, keep e) s = s.
Proof.
  induction 1 as [|c s Hc _ IH]; [done|].
  rewrite filter_cons_True by by apply alphabet_keep. by rewrite IH.
Qed.

Lemma strip_elem_of s c : c ∈ strip s → c ∈ s.
Proof.
  destruct (strip_spec s) as (l & r & Hs & _). intros Hc.
  rewrite Hs, !elem_of_app. auto.
Qed.

Lemma normalize_elem_of p e :
  e ∈ normalize p ↔ keep e ∧ ∃ c, e ∈ upper_char c ∧ c ∈ strip p.
Proof. unfold normalize, upper. by rewrite list_elem_of_filter, list_elem_of_bind. Qed.

(** A plaintext of 7-bit characters normalizes to a message over the
    alphabet. *)
Lemma normalize_ascii7 p :
  Forall (λ c, ascii7 c) p → Forall (.∈ alphabet) (normalize p).
Proof.
  rewrite !Forall_forall. intros Hp e (Hk & c & He & Hc%strip_elem_of)%normalize_elem_of.
  eapply keep_upper_ascii7; eauto.
Qed.

(** On a message over the alphabet, [normalize] is [strip]. *)
Lemma normalize_alphabet p : Forall (.∈ alphabet) p → normalize p = strip p.
Proof.
  intros Hp. assert (Forall (.∈ alphabet) (strip p)) as Hs.
  { rewrite Forall_forall in *. intros c ?%strip_elem_of. auto. }
  unfold normalize. by rewrite upper_alphabet, filter_keep_alphabet.
Qed.

(** C29: a message over the alphabet that neither starts nor ends with a
    space is its own normal form: [encrypt] works on exactly the text it
    is given. *)
Theorem normalize_id p :
  Forall (.∈ alphabet) p → head p ≠ Some " "%char → last p ≠ Some " "%char →
  normalize p = p.
Proof.
  intros Hp Hh Hl. rewrite normalize_alphabet by done.
  assert (∀ c, c ∈ p → isspace c → c = " "%char) as Hsp.
  { intros c Hc. apply keep_isspace, alphabet_keep. by rewrite Forall_forall in Hp; apply Hp. }
  apply strip_id; intros c Hc Hs.
  - apply Hh. rewrite Hc. f_equal. apply Hsp; [by apply head_Some_elem_of|done].
  - apply Hl. rewrite Hc. f_equal. apply Hsp; [by apply last_Some_elem_of|done].
Qed.

Lemma normalize_id_witness : normalize (str "AT DAWN.") = str "AT DAWN.".
Proof.
  apply (normalize_id (str "AT DAWN.")); [|done..].
  by apply (bool_decide_unpack _); vm_compute.
Defined.

(** ** [strip] and [normalize] of a concatenation *)

Lemma lstrip_app_r s1 s2 :
  (∀ c, last s1 = Some c → ¬ isspace c) → s1 ≠ [] → lstrip (s1 ++ s2) = lstrip s1 ++ s2.
Proof.
  intros Hl Hne. induction s1 as [|c s1 IH]; [done|]. simpl.
  destruct (isspace c) eqn:Hc; [|done].
  destruct s1 as [|d s1]; [|by apply IH].
  specialize (Hl c eq_refl). by rewrite Hc in Hl.
Qed.

Lemma lstrip_ne s : (∀ c, last s = Some c → ¬ isspace c) → s ≠ [] → lstrip s ≠ [].
Proof.
  intros Hl Hne. induction s as [|c s IH]; [done|]. simpl.
  destruct (isspace c) eqn:Hc; [|done].
  destruct s as [|d s]; [|by apply IH].
  specialize (Hl c eq_refl). by rewrite Hc in Hl.
Qed.

Lemma rstrip_app_l s1 s2 :
  (∀ c, head s2 = Some c → ¬ isspace c) → s2 ≠ [] → rstrip (s1 ++ s2) = s1 ++ rstrip s2.
Proof.
  intros Hh Hne. unfold rstrip. rewrite reverse_app, lstrip_app_r, reverse_app.
  - by rewrite reverse_involutive.
  - intros c. rewrite last_reverse. apply Hh.
  - by intros ?%(f_equal reverse); rewrite reverse_involutive in *.
Qed.

Lemma lstrip_last s c : last (lstrip s) = Some c → last s = Some c.
Proof.
  destruct (lstrip_spec s) as (l & Hs & _). intros Hc. rewrite Hs.
  rewrite last_app, Hc. done.
Qed.

(** Two pieces that do not meet in white space are stripped piece by
    piece. *)
Lemma strip_app s1 s2 :
  (∀ c, last s1 = Some c → ¬ isspace c) → (∀ c, head s2 = Some c → ¬ isspace c) →
  strip (s1 ++ s2) = strip s1 ++ strip s2.
Proof.
  intros Hl Hh. destruct (decide (s1 = [])) as [->|Hne1]; [done|].
  destruct (decide (s2 = [])) as [->|Hne2]; [by rewrite !app_nil_r|].
  unfold strip. rewrite lstrip_app_r, rstrip_app_l by done.
  rewrite (rstrip_id (lstrip s1)), (lstrip_id s2); [done|done|].
  intros c ?%lstrip_last. by apply Hl.
Qed.

Lemma upper_app s1 s2 : upper (s1 ++ s2) = upper s1 ++ upper s2.
Proof. apply bind_app. Qed.

Lemma normalize_app p1 p2 :
  (∀ c, last p1 = Some c → ¬ isspace c) → (∀ c, head p2 = Some c → ¬ isspace c) →
  normalize (p1 ++ p2) = normalize p1 ++ normalize p2.
Proof.
  intros Hl Hh. unfold normalize. by rewrite strip_app, upper_app, filter_app.
Qed.

(** ** The normal form, on examples and in general *)

(** C28: the normal form of a plaintext of 7-bit characters is a message
    over the alphabet: the filter of [encrypt] leaves nothing that
    [__alphabet.index] rejects. *)
Theorem normalize_over_alphabet p :
  Forall (λ c, ascii7 c) p → Forall (.∈ alphabet) (normalize p).
Proof. apply normalize_ascii7. Qed.

Lemma normalize_over_alphabet_witness :
  Forall (.∈ alphabet) (normalize (str "  Attack @ 8:00, at dawn! ")).
Proof.
  apply (normalize_over_alphabet (str "  Attack @ 8:00, at dawn! ")).
  by apply (bool_decide_unpack _); vm_compute.
Defined.

(** Normalization is not idempotent: white space is stripped before
    the other characters are filtered out, so "- a -" normalizes to " A ",
    which normalizes to "A". *)
Theorem normalize_not_idempotent :
  normalize (str "- a -") = str " A " ∧ normalize (str " A ") = str "A".
Proof. by vm_compute. Qed.

(** Characters outside ASCII: "é" is alphanumeric and upper-cases to
    "É", which passes the filter and is not in the alphabet; "ß"
    upper-cases to the two letters "SS", so that the normal form can be
    longer than the plaintext. *)
Theorem normalize_latin1 :
  normalize ["233"%char] = ["201"%char] ∧ ("201"%char ∉ alphabet) ∧
  normalize ["223"%char] = str "SS".
Proof. split_and!; [done| |done]. by apply (bool_decide_unpack _); vm_compute. Qed.
