(* ===== verification/Device.v ===== *)
(** * Device: the contract between a rotor device and its user

    [encrypt] and [decrypt] of both classes are one loop over the message
    whose body substitutes one character and moves the rotors.  A [Device]
    names the two loop bodies and two sets of states: [ready], in which
    the substitution can be inverted (no rotor has a duplicate symbol), and
    [complete], in which every symbol of the alphabet can be encrypted
    (the rotors are long enough and every rotor has a speed).
    [DeviceLaws] states what the bodies promise: they keep both sets
    whether they return or raise, encryption of a symbol of the alphabet
    returns on a complete device, and on a ready device the two bodies
    undo each other from the same state, ending in the same state.

    The theorems of this file are proved against the interface, for whole
    messages: a ready device decrypts what an equally configured device
    encrypted, encryption accepts every message over the alphabet, and
    distinct messages have distinct ciphertexts.  The two device files
    provide the instances. *)

From stdpp Require Import base tactics option list numbers strings.
From Stdlib Require Import Ascii ZArith Lia.
From S2P Require Import Prelude.
From S2P Require Import Rotor.
From S2P Require Import PyList.
From S2P Require Import Alphabet.

(** ** The substitution of a rotor

    A rotor [k] substitutes the symbol at index [i] of the alphabet by its
    own symbol at index [i]; [unsubst] goes the other way. *)
Definition subst (k : list ascii) (c : ascii) : option ascii :=
  match list_index alphabet c with
  | inr i => k !! i
  | inl _ => None
  end.

Definition unsubst (k : list ascii) (x : ascii) : option ascii :=
  match list_index k x with
  | inr i => alphabet !! i
  | inl _ => None
  end.

Class Device (S : Type) : Type := {
  enc_char : ascii → M S ascii;
  dec_char : ascii → M S ascii;
  ready : S → Prop;
  complete : S → Prop;
}.

Class DeviceLaws (S : Type) `{Device S} : Prop := {
  enc_char_ready c : hoare ready (enc_char c) (λ _, ready) (λ _, ready);
  dec_char_ready c : hoare ready (dec_char c) (λ _, ready) (λ _, ready);
  enc_char_complete c : hoare complete (enc_char c) (λ _, complete) (λ _, complete);
  dec_char_complete c : hoare complete (dec_char c) (λ _, complete) (λ _, complete);
  enc_char_total s c : complete s → c ∈ alphabet → ∃ x s', enc_char c s = Ok x s';
  enc_dec_char s c x s' : ready s → enc_char c s = Ok x s' → dec_char x s = Ok c s';
  dec_enc_char s c x s' : ready s → dec_char x s = Ok c s' → enc_char c s = Ok x s';
}.

Section substitution.
Implicit Types (k : list ascii) (c x : ascii).

Lemma subst_unsubst k c x : NoDup k → subst k c = Some x → unsubst k x = Some c.
Proof.
  unfold subst, unsubst. intros Hk.
  destruct (list_index alphabet c) as [|i] eqn:Hi; [done|]. intros Hx.
  by rewrite (list_index_NoDup k x i), (list_index_lookup alphabet c i).
Qed.

Lemma unsubst_subst k c x : unsubst k x = Some c → subst k c = Some x.
Proof.
  unfold subst, unsubst.
  destruct (list_index k x) as [|i] eqn:Hi; [done|]. intros Hc.
  by rewrite (alphabet_lookup_index i c), (list_index_lookup k x i).
Qed.

Lemma subst_total k c :
  length alphabet ≤ length k → c ∈ alphabet → is_Some (subst k c).
Proof.
  intros Hlen (i & Hi & Hlt & _)%alphabet_index. unfold subst. rewrite Hi.
  apply lookup_lt_is_Some. rewrite alphabet_length in Hlen. lia.
Qed.

Lemma subst_Some_alphabet k c x : subst k c = Some x → c ∈ alphabet ∧ x ∈ k.
Proof.
  unfold subst. destruct (list_index alphabet c) as [|i] eqn:Hi; [done|]. intros Hx.
  split; apply list_elem_of_lookup; [exists i; by apply list_index_lookup | by exists i].
Qed.

Lemma unsubst_Some_alphabet k c x : unsubst k x = Some c → c ∈ alphabet ∧ x ∈ k.
Proof. intros ?%unsubst_subst. by apply subst_Some_alphabet. Qed.

Lemma subst_None k c :
  subst k c = None ↔ c ∉ alphabet ∨ ∃ i, list_index alphabet c = inr i ∧ length k ≤ i.
Proof.
  unfold subst. destruct (list_index alphabet c) as [e|i] eqn:Hi.
  - apply list_index_inl in Hi as [_ Hc]. naive_solver.
  - rewrite lookup_ge_None. split; [eauto|].
    intros [Hc|(j & [= <-] & ?)]; [|done].
    destruct Hc. apply list_elem_of_lookup. exists i. by apply list_index_lookup.
Qed.

(** The substitution of a rotated rotor, by index arithmetic: the symbol
    of index [i] becomes the rotor's symbol at [(n + i) mod length]. *)
Lemma subst_rotate k n c i :
  list_index alphabet c = inr i → i < length k →
  subst (rotate n k) c = k !! ((n + i) mod length k).
Proof. intros Hi Hlt. unfold subst. rewrite Hi. by apply lookup_rotate. Qed.
End substitution.

Section device.
Context {S : Type} `{DeviceLaws S}.
Implicit Types (s : S) (msg ct : list ascii).

(** A whole message keeps the device ready, on every path. *)
Lemma enc_msg_ready msg :
  hoare ready (for_each enc_char msg) (λ _, ready) (λ _, ready).
Proof. apply hoare_for_each, enc_char_ready. Qed.

Lemma dec_msg_ready ct :
  hoare ready (for_each dec_char ct) (λ _, ready) (λ _, ready).
Proof. apply hoare_for_each, dec_char_ready. Qed.

(** Decryption from the state encryption started in recovers the
    message and ends in the state encryption ended in. *)
Lemma enc_dec_msg msg s ct s' :
  ready s → for_each enc_char msg s = Ok ct s' → for_each dec_char ct s = Ok msg s'.
Proof.
  revert s ct. induction msg as [|c msg IH]; intros s ct Hs.
  - by intros [= <- <-].
  - intros (x & s1 & ct' & Hc & Hmsg & ->)%for_each_cons_Ok.
    apply for_each_cons_Ok. exists c, s1, msg. split; [by apply enc_dec_char|].
    split; [|done]. apply IH; [|done]. eapply hoare_Ok; [apply enc_char_ready|..]; done.
Qed.

Lemma dec_enc_msg ct s msg s' :
  ready s → for_each dec_char ct s = Ok msg s' → for_each enc_char msg s = Ok ct s'.
Proof.
  revert s msg. induction ct as [|x ct IH]; intros s msg Hs.
  - by intros [= <- <-].
  - intros (c & s1 & msg' & Hx & Hct & ->)%for_each_cons_Ok.
    apply for_each_cons_Ok. exists x, s1, ct. split; [by apply dec_enc_char|].
    split; [|done]. apply IH; [|done]. eapply hoare_Ok; [apply dec_char_ready|..]; done.
Qed.

Lemma enc_msg_complete msg :
  hoare complete (for_each enc_char msg) (λ _, complete) (λ _, complete).
Proof. apply hoare_for_each, enc_char_complete. Qed.

Lemma dec_msg_complete ct :
  hoare complete (for_each dec_char ct) (λ _, complete) (λ _, complete).
Proof. apply hoare_for_each, dec_char_complete. Qed.

(** Encryption of a message over the alphabet returns. *)
Lemma enc_msg_total msg s :
  complete s → Forall (.∈ alphabet) msg → ∃ ct s', for_each enc_char msg s = Ok ct s'.
Proof.
  intros Hs Hmsg. revert s Hs. induction Hmsg as [|c msg Hc _ IH]; intros s Hs.
  - by exists [], s.
  - destruct (enc_char_total s c Hs Hc) as (x & s1 & Hx).
    destruct (IH s1) as (ct & s' & Hct).
    { eapply hoare_Ok; [apply enc_char_complete|..]; done. }
    exists (x :: ct), s'. apply for_each_cons_Ok. by exists x, s1, ct.
Qed.

(** Two messages with the same ciphertext from the same state are
    equal. *)
Lemma enc_msg_inj msg1 msg2 s ct s1 s2 :
  ready s → for_each enc_char msg1 s = Ok ct s1 → for_each enc_char msg2 s = Ok ct s2 →
  msg1 = msg2 ∧ s1 = s2.
Proof.
  intros Hs H1%enc_dec_msg H2%enc_dec_msg; [|done..].
  rewrite H1 in H2. by injection H2.
Qed.

Lemma dec_msg_inj ct1 ct2 s msg s1 s2 :
  ready s → for_each dec_char ct1 s = Ok msg s1 → for_each dec_char ct2 s = Ok msg s2 →
  ct1 = ct2 ∧ s1 = s2.
Proof.
  intros Hs H1%dec_enc_msg H2%dec_enc_msg; [|done..].
  rewrite H1 in H2. by injection H2.
Qed.
End device.
