(* ===== verification/OneRotor.v ===== *)
(** * OneRotor: the single-rotor device (src/OneRotorDevice.py)

    The state of a [OneRotorDevice] is its key, one rotor, and its rotation
    speed.  [encrypt] looks each character of the normalized plaintext up in
    the alphabet, emits the key's symbol at that index and rotates the key
    by the speed; [decrypt] looks each character up in the key and emits
    the alphabet's symbol at that index, rotating likewise.  Module
    [OneRotorDevice] holds one definition per method, the loop bodies as
    [encrypt_char] and [decrypt_char]; the theorems follow it. *)

From stdpp Require Import base tactics option list numbers strings.
From Stdlib Require Import Ascii ZArith Lia.
From S2P Require Import Prelude.
From S2P Require Import Rotor.
From S2P Require Import PyList.
From S2P Require Import Alphabet.
From S2P Require Import Normalizer.
From S2P Require Import Device.

Module OneRotorDevice.

(** The instance attributes [__key] and [__speed]. *)
Record t : Type := Build {
  __key : list ascii;
  __speed : Z;
}.

(** The class attribute [__alphabet]. *)
Definition __alphabet : list ascii := alphabet.

(** The attribute [self.__key] as a place that holds a list. *)
Definition key_ : lens t (list ascii) :=
  Lens __key (λ k self, Build k (__speed self)).

(** [__init__(self, key, rotation_speed=1)]: [None] stands for an omitted
    argument. *)
Definition __init__ (key : list ascii) (rotation_speed : option Z) : t :=
  Build key (default 1%Z rotation_speed).

(** [__rotate(self, n)]; every call of the class passes [n]. *)
Definition __rotate (n : Z) : M t unit :=
  for_range n (λ i, pop_append key_).

(** The body of [encrypt]'s loop; the returned symbol is what the loop
    appends to [ciphertext]. *)
Definition encrypt_char (char : ascii) : M t ascii :=
  i <- lift (list_index __alphabet char) ;;
  x <- getitem key_ i ;;
  n <- gets __speed ;;
  __rotate n ;;
  ret x.

Definition encrypt (plaintext : list ascii) : M t (list ascii) :=
  let msg := normalize plaintext in
  let ciphertext := [] in
  for_acc encrypt_char msg ciphertext.

(** The body of [decrypt]'s loop. *)
Definition decrypt_char (char : ascii) : M t ascii :=
  i <- index key_ char ;;
  x <- lift (list_getitem __alphabet i) ;;
  n <- gets __speed ;;
  __rotate n ;;
  ret x.

Definition decrypt (ciphertext : list ascii) : M t (list ascii) :=
  let msg := [] in
  for_acc decrypt_char ciphertext msg.

(** ** Specification

    The ciphertext of a message as a function of the key and the number
    of positions the key moves per character: no state, no exceptions. *)
(** A message through a substitution [f] of the key, the key moving
    [sp] positions after each character. *)
Fixpoint spec_run (f : list ascii → ascii → option ascii)
    (k : list ascii) (sp : nat) (msg : list ascii) : option (list ascii) :=
  match msg with
  | [] => Some []
  | c :: msg' => x ← f k c; out ← spec_run f (rotate sp k) sp msg'; Some (x :: out)
  end.

Definition spec_encrypt : list ascii → nat → list ascii → option (list ascii) :=
  spec_run subst.

Definition spec_decrypt : list ascii → nat → list ascii → option (list ascii) :=
  spec_run unsubst.

(** The number of positions the key moves after each character. *)
Definition shift (self : t) : nat := Z.to_nat (__speed self).

(** The state after [n] characters. *)
Definition advance (n : nat) (self : t) : t :=
  Build (rotate (n * shift self) (__key self)) (__speed self).

(** A device whose substitution can be inverted: the key has no
    duplicate symbol. *)
Definition usable (self : t) : Prop := NoDup (__key self).

(** A device that can encrypt the whole alphabet: the key has a symbol
    for every index of the alphabet. *)
Definition long_enough (self : t) : Prop := length alphabet ≤ length (__key self).

(** A key as the specification asks for it: a permutation of the
    alphabet. *)
Definition valid_key (key : list ascii) : Prop := key ≡ₚ alphabet.

(** The exception [encrypt]'s loop body raises on a character the key
    does not substitute: [ValueError] from [__alphabet.index(char)],
    [IndexError] from [__key[i]]. *)
Definition encrypt_error (c : ascii) : exn :=
  if decide (c ∈ alphabet) then IndexError else ValueError.

(** The exception [decrypt]'s loop body raises on a character the key's
    inverse does not substitute: [ValueError] from [__key.index(char)],
    [IndexError] from [__alphabet[i]]. *)
Definition decrypt_error (k : list ascii) (x : ascii) : exn :=
  if decide (x ∈ k) then IndexError else ValueError.

End OneRotorDevice.

(** ** The demonstration script (lines 40 to 50 of the source) *)

Module OneRotorDemo.
Import OneRotorDevice.

Definition key : list ascii := str "BCDEFGHIJKLMNOPQRSTUVWXYZ0123456789. A".

Definition device : t := __init__ key (Some 2%Z).

Definition p : list ascii :=
  str "Attack location 8675309 at dawn. Do not engage enemy before then.".

Definition device2 : t := __init__ key (Some 2%Z).

(** The script: [c = device.encrypt(p)], [m = device2.decrypt(c)], then the
    three [print] calls; it returns what it prints, or the exception that
    ends it. *)
Definition main : exn + (list ascii * list ascii * list ascii) :=
  match encrypt p device with
  | Raise e _ => inl e
  | Ok c _ =>
      match decrypt c device2 with
      | Raise e _ => inl e
      | Ok m _ => inr (p, c, m)
      end
  end.

End OneRotorDemo.

Import OneRotorDevice.

#[export] Instance key_laws : LensLaws key_ (λ _, True).
Proof. split; [done.. | by intros []]. Qed.

#[export] Instance valid_key_proper : Proper ((≡ₚ) ==> iff) valid_key.
Proof. intros k1 k2 Hk. unfold valid_key. by rewrite Hk. Qed.

#[export] Instance usable_dec self : Decision (usable self).
Proof. unfold usable. apply _. Defined.

#[export] Instance long_enough_dec self : Decision (long_enough self).
Proof. unfold long_enough. apply _. Defined.

(** ** [__rotate] *)

Lemma rotate_run n self :
  __key self ≠ [] →
  __rotate n self = Ok tt (Build (rotate (Z.to_nat n) (__key self)) (__speed self)).
Proof. intros Hne. unfold __rotate. by rewrite (for_range_pop_append key_ (λ _, True)). Qed.

Lemma rotate_empty n self :
  __key self = [] →
  __rotate n self = if decide (0 < n)%Z then Raise IndexError self else Ok tt self.
Proof. apply (for_range_pop_append_empty key_). Qed.

Lemma advance_0 self : advance 0 self = self.
Proof. destruct self. unfold advance. simpl. by rewrite rotate_0. Qed.

Lemma advance_add n m self : advance n (advance m self) = advance (m + n) self.
Proof.
  unfold advance, shift. simpl. rewrite rotate_add. do 2 f_equal. lia.
Qed.

Lemma advance_usable n self : usable (advance n self) ↔ usable self.
Proof. unfold usable, advance. simpl. by rewrite NoDup_rotate. Qed.

Lemma advance_long_enough n self : long_enough (advance n self) ↔ long_enough self.
Proof. unfold long_enough, advance. simpl. by rewrite length_rotate. Qed.

Lemma advance_valid_key n self :
  valid_key (__key (advance n self)) ↔ valid_key (__key self).
Proof. unfold valid_key, advance. simpl. by rewrite rotate_Permutation. Qed.

Lemma valid_key_usable self : valid_key (__key self) → usable self ∧ long_enough self.
Proof.
  unfold valid_key, usable, long_enough. intros ->. split; [apply NoDup_alphabet | done].
Qed.

(** ** One character *)

Lemma encrypt_char_Ok char self x self' :
  encrypt_char char self = Ok x self' ↔
  subst (__key self) char = Some x ∧ self' = advance 1 self.
Proof.
  unfold encrypt_char, subst, __alphabet, bind, lift, getitem, gets, ret, list_getitem.
  destruct (list_index alphabet char) as [e|i]; simpl; [naive_solver|].
  destruct (__key self !! i) as [y|] eqn:Hy; simpl; [|naive_solver].
  rewrite rotate_run by by intros Hk; rewrite Hk in Hy.
  unfold advance, shift. rewrite Nat.mul_1_l. naive_solver.
Qed.

Lemma decrypt_char_Ok char self x self' :
  decrypt_char char self = Ok x self' ↔
  unsubst (__key self) char = Some x ∧ self' = advance 1 self.
Proof.
  unfold decrypt_char, unsubst, __alphabet, bind, lift, index, gets, ret, list_getitem.
  simpl. destruct (list_index (__key self) char) as [e|i] eqn:Hi; simpl; [naive_solver|].
  destruct (alphabet !! i) as [y|] eqn:Hy; simpl; [|naive_solver].
  rewrite rotate_run by by intros Hk; rewrite Hk in Hi.
  unfold advance, shift. rewrite Nat.mul_1_l. naive_solver.
Qed.

(** An exception of the loop body leaves the device as it was: the body
    fails before it rotates. *)
Lemma encrypt_char_Raise char self e self' :
  encrypt_char char self = Raise e self' →
  self' = self ∧ subst (__key self) char = None ∧
  (e = ValueError ∧ char ∉ alphabet ∨ e = IndexError ∧ char ∈ alphabet).
Proof.
  unfold encrypt_char, subst, __alphabet, bind, lift, getitem, gets, ret, list_getitem.
  destruct (list_index alphabet char) as [e'|i] eqn:Hi; simpl.
  - apply list_index_inl in Hi as [-> ?]. naive_solver.
  - destruct (__key self !! i) as [y|] eqn:Hy; simpl.
    + by rewrite rotate_run by by intros Hk; rewrite Hk in Hy.
    + intros [= <- <-]. split_and!; [done..|]. right. split; [done|].
      apply list_elem_of_lookup. exists i. by apply list_index_lookup.
Qed.

Lemma decrypt_char_Raise char self e self' :
  decrypt_char char self = Raise e self' →
  self' = self ∧ unsubst (__key self) char = None ∧
  (e = ValueError ∧ char ∉ __key self ∨ e = IndexError ∧ char ∈ __key self).
Proof.
  unfold decrypt_char, unsubst, __alphabet, bind, lift, index, gets, ret, list_getitem.
  simpl. destruct (list_index (__key self) char) as [e'|i] eqn:Hi; simpl.
  - apply list_index_inl in Hi as [-> ?]. naive_solver.
  - destruct (alphabet !! i) as [y|] eqn:Hy; simpl.
    + by rewrite rotate_run by by intros Hk; rewrite Hk in Hi.
    + intros [= <- <-]. split_and!; [done..|]. right. split; [done|].
      apply list_elem_of_lookup. exists i. by apply list_index_lookup.
Qed.

(** ** The device satisfies the contract *)

#[export] Instance one_device : Device t := {|
  enc_char := encrypt_char;
  dec_char := decrypt_char;
  ready := usable;
  complete := long_enough;
|}.

(** Both loop bodies keep every property of the key that a rotation
    keeps, whether they return or raise. *)
Lemma char_invariant (I : t → Prop) (body : ascii → M t ascii) char :
  (∀ self, I self → I (advance 1 self)) →
  (∀ self x self', body char self = Ok x self' → self' = advance 1 self) →
  (∀ self e self', body char self = Raise e self' → self' = self) →
  hoare I (body char) (λ _, I) (λ _, I).
Proof.
  intros Hadv HOk HRaise self HI. destruct (body char self) as [x self'|e self'] eqn:Hb.
  - apply HOk in Hb as ->. by apply Hadv.
  - by apply HRaise in Hb as ->.
Qed.

Lemma encrypt_char_invariant (I : t → Prop) char :
  (∀ self, I self → I (advance 1 self)) → hoare I (encrypt_char char) (λ _, I) (λ _, I).
Proof.
  intros HI. apply char_invariant; [done|..].
  - by intros self x self' [_ ?]%encrypt_char_Ok.
  - by intros self e self' [? _]%encrypt_char_Raise.
Qed.

Lemma decrypt_char_invariant (I : t → Prop) char :
  (∀ self, I self → I (advance 1 self)) → hoare I (decrypt_char char) (λ _, I) (λ _, I).
Proof.
  intros HI. apply char_invariant; [done|..].
  - by intros self x self' [_ ?]%decrypt_char_Ok.
  - by intros self e self' [? _]%decrypt_char_Raise.
Qed.

#[export] Instance one_device_laws : DeviceLaws t.
Proof.
  split; simpl.
  - intros c. apply encrypt_char_invariant. intros self. by rewrite advance_usable.
  - intros c. apply decrypt_char_invariant. intros self. by rewrite advance_usable.
  - intros c. apply encrypt_char_invariant. intros self. by rewrite advance_long_enough.
  - intros c. apply decrypt_char_invariant. intros self. by rewrite advance_long_enough.
  - intros self c Hlen [x Hx]%(subst_total (__key self)); [|done].
    exists x, (advance 1 self). by apply encrypt_char_Ok.
  - intros self c x self' Hk [Hx ->]%encrypt_char_Ok.
    apply decrypt_char_Ok. split; [by apply subst_unsubst | done].
  - intros self c x self' Hk [Hx ->]%decrypt_char_Ok.
    apply encrypt_char_Ok. split; [by apply unsubst_subst | done].
Qed.

(** ** Whole messages against the specification *)

Lemma advance_S n self : advance n (advance 1 self) = advance (S n) self.
Proof. by rewrite advance_add. Qed.

Lemma key_advance_1 self : __key (advance 1 self) = rotate (shift self) (__key self).
Proof. unfold advance. simpl. by rewrite Nat.add_0_r. Qed.

Lemma shift_advance n self : shift (advance n self) = shift self.
Proof. done. Qed.

Lemma for_each_spec_run body f msg self out self' :
  (∀ c self x self',
     body c self = Ok x self' ↔ f (__key self) c = Some x ∧ self' = advance 1 self) →
  for_each body msg self = Ok out self' ↔
  spec_run f (__key self) (shift self) msg = Some out ∧ self' = advance (length msg) self.
Proof.
  intros Hbody. revert self out. induction msg as [|c msg IH]; intros self out.
  - simpl. rewrite advance_0. unfold ret. naive_solver.
  - rewrite for_each_cons_Ok. simpl. rewrite bind_Some. setoid_rewrite bind_Some.
    setoid_rewrite Hbody. setoid_rewrite IH. split.
    + intros (y & s1 & ys' & [Hy ->] & [Hys ->] & ->).
      rewrite key_advance_1, shift_advance in Hys. rewrite advance_S. eauto 10.
    + intros [(x & Hx & x0 & Hx0 & [= <-]) ->]. exists x, (advance 1 self), x0.
      by rewrite key_advance_1, shift_advance, advance_S.
Qed.

Lemma for_each_encrypt_spec msg self ct self' :
  for_each encrypt_char msg self = Ok ct self' ↔
  spec_encrypt (__key self) (shift self) msg = Some ct ∧ self' = advance (length msg) self.
Proof. apply for_each_spec_run, encrypt_char_Ok. Qed.

Lemma for_each_decrypt_spec ct self msg self' :
  for_each decrypt_char ct self = Ok msg self' ↔
  spec_decrypt (__key self) (shift self) ct = Some msg ∧ self' = advance (length ct) self.
Proof. apply for_each_spec_run, decrypt_char_Ok. Qed.

(** ** [encrypt] and [decrypt] *)

(** The accumulator of the loops is the list of the symbols the body
    returned. *)
Lemma encrypt_unfold plaintext self :
  encrypt plaintext self = for_each encrypt_char (normalize plaintext) self.
Proof. unfold encrypt. by rewrite for_acc_nil. Qed.

Lemma decrypt_unfold ciphertext self :
  decrypt ciphertext self = for_each decrypt_char ciphertext self.
Proof. unfold decrypt. by rewrite for_acc_nil. Qed.

(** C3: [encrypt] returns a ciphertext exactly when the stateless
    specification [spec_encrypt] gives it for the normalized plaintext, the
    key and the speed the device holds; the device is then left with its
    key rotated by the speed once per character of the normalized
    plaintext. *)
Theorem encrypt_refines_spec plaintext self ct self' :
  encrypt plaintext self = Ok ct self' ↔
  spec_encrypt (__key self) (shift self) (normalize plaintext) = Some ct ∧
  self' = advance (length (normalize plaintext)) self.
Proof. unfold encrypt. rewrite for_acc_nil. apply for_each_encrypt_spec. Qed.

(** C5: [decrypt] returns a message exactly when the stateless
    specification [spec_decrypt] gives it for the ciphertext, which is not
    normalized; the key is then rotated by the speed once per character of
    the ciphertext. *)
Theorem decrypt_refines_spec ciphertext self msg self' :
  decrypt ciphertext self = Ok msg self' ↔
  spec_decrypt (__key self) (shift self) ciphertext = Some msg ∧
  self' = advance (length ciphertext) self.
Proof. unfold decrypt. rewrite for_acc_nil. apply for_each_decrypt_spec. Qed.

(** C13: a device whose key has no duplicate symbol decrypts what a device
    in the same state encrypted: it returns the normalized plaintext and
    ends in the state the encrypting device ended in. *)
Theorem decrypt_encrypt plaintext self ct self' :
  usable self →
  encrypt plaintext self = Ok ct self' →
  decrypt ct self = Ok (normalize plaintext) self'.
Proof.
  intros Hk. unfold encrypt, decrypt. rewrite !for_acc_nil.
  exact (enc_dec_msg (normalize plaintext) self ct self' Hk).
Qed.

Lemma decrypt_encrypt_witness :
  decrypt (str "BE") OneRotorDemo.device =
    Ok (normalize (str "ab")) (advance 2 OneRotorDemo.device).
Proof.
  apply (decrypt_encrypt (str "ab") OneRotorDemo.device).
  - by apply (bool_decide_unpack _); vm_compute.
  - by vm_compute.
Defined.

(** C19: on a device whose key is at least as long as the alphabet,
    [encrypt] returns for every plaintext of 7-bit characters: neither
    [ValueError] nor [IndexError] can occur. *)
Theorem encrypt_total plaintext self :
  long_enough self → Forall (λ c, ascii7 c) plaintext →
  ∃ ct self', encrypt plaintext self = Ok ct self'.
Proof.
  intros Hlen Hp%normalize_ascii7. unfold encrypt.
  destruct (enc_msg_total (H:=one_device) (normalize plaintext) self Hlen Hp)
    as (ct & self' & Hct).
  exists ct, self'. by rewrite for_acc_nil.
Qed.

Lemma encrypt_total_witness :
  ∃ ct self', encrypt OneRotorDemo.p OneRotorDemo.device = Ok ct self'.
Proof.
  apply (encrypt_total OneRotorDemo.p OneRotorDemo.device).
  - by vm_compute.
  - by apply (bool_decide_unpack _); vm_compute.
Defined.

(** C1: two freshly constructed devices with the same key, a permutation
    of the alphabet, and the same speed: the first encrypts any plaintext
    of 7-bit characters and the second decrypts the ciphertext to the
    normalized plaintext, both ending in the same state. *)
Theorem roundtrip key rotation_speed plaintext :
  valid_key key → Forall (λ c, ascii7 c) plaintext →
  ∃ ct self',
    encrypt plaintext (__init__ key rotation_speed) = Ok ct self' ∧
    decrypt ct (__init__ key rotation_speed) = Ok (normalize plaintext) self'.
Proof.
  intros [Hnd Hlen]%(valid_key_usable (__init__ key rotation_speed)) Hp%normalize_ascii7.
  destruct (enc_msg_total (H:=one_device) (normalize plaintext) _ Hlen Hp) as (ct & self' & Hct).
  exists ct, self'. rewrite encrypt_unfold, decrypt_unfold. split; [done|].
  exact (enc_dec_msg _ _ _ _ Hnd Hct).
Qed.

Lemma roundtrip_witness :
  ∃ ct self',
    encrypt OneRotorDemo.p (__init__ OneRotorDemo.key (Some 2%Z)) = Ok ct self' ∧
    decrypt ct (__init__ OneRotorDemo.key (Some 2%Z)) = Ok (normalize OneRotorDemo.p) self'.
Proof.
  apply (roundtrip OneRotorDemo.key (Some 2%Z) OneRotorDemo.p).
  - by apply (bool_decide_unpack _); vm_compute.
  - by apply (bool_decide_unpack _); vm_compute.
Defined.

(** ** [__rotate] *)

(** C9: on a non-empty key, [__rotate n] is the cyclic left shift by [n]
    positions modulo the key's length: the first [n mod N] symbols move to
    the back, in order; it never raises, and it does nothing for
    [n <= 0]. *)
Theorem rotate_closed_form n self :
  __key self ≠ [] →
  let k := Z.to_nat n mod length (__key self) in
  __rotate n self = Ok tt (Build (drop k (__key self) ++ take k (__key self)) (__speed self)).
Proof. intros Hne. by rewrite rotate_run. Qed.

Lemma rotate_closed_form_witness :
  __rotate 40 OneRotorDemo.device =
    Ok tt (Build (str "DEFGHIJKLMNOPQRSTUVWXYZ0123456789. ABC") 2).
Proof. apply (rotate_closed_form 40 OneRotorDemo.device). by vm_compute. Defined.

(** On the empty key, [__rotate n] raises [IndexError] (from
    [pop(0)]) when [n] is positive and does nothing otherwise; the device
    is unchanged in both cases. *)
Theorem rotate_empty_key n self :
  __key self = [] →
  __rotate n self = if decide (0 < n)%Z then Raise IndexError self else Ok tt self.
Proof. apply rotate_empty. Qed.

Lemma rotate_empty_key_witness :
  __rotate 1 (__init__ [] None) = Raise IndexError (__init__ [] None).
Proof. by apply (rotate_empty_key 1 (__init__ [] None)). Defined.

(** C26: a rotation keeps every property [I] of the key that is invariant
    under permutation of the list (two keys that are permutations of
    each other both have it or both lack it), whether it returns or
    raises: the key stays a permutation of the alphabet, stays free of
    duplicates and keeps its length. *)
Theorem rotate_keeps_key n (I : list ascii → Prop) :
  Proper ((≡ₚ) ==> iff) I →
  hoare (λ self, I (__key self)) (__rotate n)
        (λ _ self, I (__key self)) (λ _ self, I (__key self)).
Proof.
  intros HI self Hk. destruct (decide (__key self = [])) as [He|Hne].
  - rewrite rotate_empty by done. by case_decide.
  - rewrite rotate_run by done. simpl. by rewrite rotate_Permutation.
Qed.

Lemma rotate_keeps_key_witness :
  hoare (λ self, valid_key (__key self)) (__rotate 5)
        (λ _ self, valid_key (__key self)) (λ _ self, valid_key (__key self)).
Proof. apply (rotate_keeps_key 5 valid_key). apply valid_key_proper. Defined.

(** C27: one-rotor periodicity: a rotation by [n >= 0] of a key without
    duplicates leaves the device as it was exactly when [n] is a multiple
    of the key's length. *)
Theorem rotate_identity_iff n self :
  usable self → __key self ≠ [] →
  __rotate (Z.of_nat n) self = Ok tt self ↔ n mod length (__key self) = 0.
Proof.
  intros Hnd Hne. rewrite rotate_run, Nat2Z.id by done.
  rewrite <-(rotate_period n (__key self) Hnd Hne).
  destruct self as [k sp]. simpl. split; [by intros [= ?] | by intros ->].
Qed.

Lemma rotate_identity_iff_witness :
  __rotate 76 OneRotorDemo.device = Ok tt OneRotorDemo.device ↔ 76 mod 38 = 0.
Proof.
  apply (rotate_identity_iff 76 OneRotorDemo.device).
  - by apply (bool_decide_unpack _); vm_compute.
  - by vm_compute.
Defined.

(** ** Positions *)

Lemma spec_run_length f k sp msg out : spec_run f k sp msg = Some out → length out = length msg.
Proof.
  revert k out. induction msg as [|c msg IH]; intros k out; simpl; [by intros [= <-]|].
  intros (x & _ & (out' & Hout%IH & [= <-])%bind_Some)%bind_Some. simpl. by f_equal.
Qed.

(** The symbol at position [t] went through the key rotated [t] times by
    the speed. *)
Lemma spec_run_lookup f k sp msg out t c :
  spec_run f k sp msg = Some out → msg !! t = Some c →
  ∃ x, out !! t = Some x ∧ f (rotate (t * sp) k) c = Some x.
Proof.
  revert k out t. induction msg as [|d msg IH]; intros k out t; simpl; [done|].
  intros (x & Hx & (out' & Hout & [= <-])%bind_Some)%bind_Some Ht.
  destruct t as [|t]; simpl in *.
  - injection Ht as ->. exists x. by rewrite rotate_0.
  - destruct (IH _ _ _ Hout Ht) as (y & Hy & Hf). exists y. split; [done|].
    by rewrite rotate_add in Hf.
Qed.

(** C15: the ciphertext has one symbol per character of the normalized
    plaintext, and the symbol at position [t] is the key's symbol at index
    [(t * speed + i) mod N], where [i] is the alphabet index of the
    character at position [t] and [N] the key's length: a substitution
    that shifts by the speed at every position. *)
Theorem encrypt_position plaintext self ct self' t c :
  encrypt plaintext self = Ok ct self' → normalize plaintext !! t = Some c →
  length ct = length (normalize plaintext) ∧
  ∃ i x, list_index alphabet c = inr i ∧ ct !! t = Some x ∧
         __key self !! ((t * shift self + i) mod length (__key self)) = Some x.
Proof.
  rewrite encrypt_unfold. intros [Hspec _]%for_each_encrypt_spec Ht.
  split; [by eapply spec_run_length|].
  destruct (spec_run_lookup _ _ _ _ _ _ _ Hspec Ht) as (x & Hx & Hs).
  unfold subst in Hs. destruct (list_index alphabet c) as [|i] eqn:Hi; [done|].
  exists i, x. split_and!; [done..|].
  rewrite <-lookup_rotate; [done|]. apply lookup_lt_Some in Hs. by rewrite length_rotate in Hs.
Qed.

Lemma encrypt_position_witness :
  length (str "BE") = length (normalize (str "ab")) ∧
  ∃ i x, list_index alphabet "B"%char = inr i ∧ str "BE" !! 1 = Some x ∧
         __key OneRotorDemo.device
           !! ((1 * shift OneRotorDemo.device + i) mod length (__key OneRotorDemo.device))
         = Some x.
Proof.
  apply (encrypt_position (str "ab") OneRotorDemo.device (str "BE")
           (advance 2 OneRotorDemo.device) 1 "B"%char); by vm_compute.
Defined.

(** Every symbol of a ciphertext is a symbol of the key the device
    held when [encrypt] was called. *)
Theorem ciphertext_symbols plaintext self ct self' :
  encrypt plaintext self = Ok ct self' → Forall (.∈ __key self) ct.
Proof.
  rewrite encrypt_unfold. intros [Hspec _]%for_each_encrypt_spec. apply Forall_lookup. intros t x Hx.
  destruct (lookup_lt_is_Some_2 (normalize plaintext) t) as [c Hc].
  { rewrite <-(spec_run_length _ _ _ _ _ Hspec). by eapply lookup_lt_Some. }
  destruct (spec_run_lookup _ _ _ _ _ _ _ Hspec Hc) as (y & Hy & [_ Hk]%subst_Some_alphabet).
  rewrite Hx in Hy. injection Hy as <-. by rewrite elem_of_rotate in Hk.
Qed.

Lemma ciphertext_symbols_witness : Forall (.∈ __key OneRotorDemo.device) (str "BE").
Proof.
  apply (ciphertext_symbols (str "ab") OneRotorDemo.device (str "BE")
           (advance 2 OneRotorDemo.device)).
  by vm_compute.
Defined.

(** Every character of a message that [decrypt] returns is a symbol of
    the alphabet. *)
Lemma decrypt_symbols ciphertext self msg self' :
  decrypt ciphertext self = Ok msg self' → Forall (.∈ alphabet) msg.
Proof.
  rewrite decrypt_unfold. intros [Hspec _]%for_each_decrypt_spec. apply Forall_lookup. intros t c Hc.
  destruct (lookup_lt_is_Some_2 ciphertext t) as [x Hx].
  { rewrite <-(spec_run_length _ _ _ _ _ Hspec). by eapply lookup_lt_Some. }
  destruct (spec_run_lookup _ _ _ _ _ _ _ Hspec Hx) as (y & Hy & [Ha _]%unsubst_Some_alphabet).
  rewrite Hc in Hy. by injection Hy as <-.
Qed.

(** ** Exceptions *)

Lemma encrypt_char_Raise_iff char self e self' :
  encrypt_char char self = Raise e self' ↔
  subst (__key self) char = None ∧ e = encrypt_error char ∧ self' = self.
Proof.
  unfold encrypt_error. split.
  - intros (-> & Hs & He)%encrypt_char_Raise. case_decide; naive_solver.
  - intros (Hs & -> & ->). destruct (encrypt_char char self) as [x s|e s] eqn:Hc.
    + apply encrypt_char_Ok in Hc as [Hx _]. congruence.
    + apply encrypt_char_Raise in Hc as (-> & _ & He). case_decide; naive_solver.
Qed.

Lemma decrypt_char_Raise_iff char self e self' :
  decrypt_char char self = Raise e self' ↔
  unsubst (__key self) char = None ∧ e = decrypt_error (__key self) char ∧ self' = self.
Proof.
  unfold decrypt_error. split.
  - intros (-> & Hs & He)%decrypt_char_Raise. case_decide; naive_solver.
  - intros (Hs & -> & ->). destruct (decrypt_char char self) as [x s|e s] eqn:Hc.
    + apply decrypt_char_Ok in Hc as [Hx _]. congruence.
    + apply decrypt_char_Raise in Hc as (-> & _ & He). case_decide; naive_solver.
Qed.

(** The loop bodies, branch by branch. *)
Lemma one_encrypt_char_run char self :
  encrypt_char char self =
    match subst (__key self) char with
    | Some x => Ok x (advance 1 self)
    | None => Raise (encrypt_error char) self
    end.
Proof.
  destruct (encrypt_char char self) as [x s|e s] eqn:Hc.
  - apply encrypt_char_Ok in Hc as [-> ->]. done.
  - apply encrypt_char_Raise_iff in Hc as (-> & -> & ->). done.
Qed.

Lemma one_decrypt_char_run char self :
  decrypt_char char self =
    match unsubst (__key self) char with
    | Some x => Ok x (advance 1 self)
    | None => Raise (decrypt_error (__key self) char) self
    end.
Proof.
  destruct (decrypt_char char self) as [x s|e s] eqn:Hc.
  - apply decrypt_char_Ok in Hc as [-> ->]. done.
  - apply decrypt_char_Raise_iff in Hc as (-> & -> & ->). done.
Qed.

(** A loop over a message raises exactly at the first character its body
    cannot substitute, after the characters before it went through. *)
Lemma for_each_Raise_spec body f err msg self e self' :
  (∀ c self x self',
     body c self = Ok x self' ↔ f (__key self) c = Some x ∧ self' = advance 1 self) →
  (∀ c self e self',
     body c self = Raise e self' ↔
     f (__key self) c = None ∧ e = err (__key self) c ∧ self' = self) →
  for_each body msg self = Raise e self' ↔
  ∃ m1 c m2 out,
    msg = m1 ++ c :: m2 ∧
    spec_run f (__key self) (shift self) m1 = Some out ∧
    f (__key (advance (length m1) self)) c = None ∧
    e = err (__key (advance (length m1) self)) c ∧
    self' = advance (length m1) self.
Proof.
  intros HOk HRaise. split.
  - intros (m1 & c & m2 & out & s1 & -> & [Hm1 ->]%(for_each_spec_run _ f) & Hc%HRaise)
      %for_each_Raise_inv; [|done]. naive_solver.
  - intros (m1 & c & m2 & out & -> & Hm1 & Hc & -> & ->).
    eapply for_each_raise; [apply (for_each_spec_run _ f); done|]. by apply HRaise.
Qed.

(** C21: [encrypt] raises exactly when some character of the normalized
    plaintext has no substitute in the key as it stands at that position:
    [ValueError] for a character outside the alphabet, [IndexError] for a
    symbol of the alphabet whose index is past the key's end.  Nothing is
    returned, and the device keeps the rotations of the characters before
    the failing one. *)
Theorem encrypt_raises plaintext self e self' :
  encrypt plaintext self = Raise e self' ↔
  ∃ m1 c m2 ct1,
    normalize plaintext = m1 ++ c :: m2 ∧
    spec_encrypt (__key self) (shift self) m1 = Some ct1 ∧
    subst (__key (advance (length m1) self)) c = None ∧
    e = encrypt_error c ∧ self' = advance (length m1) self.
Proof.
  unfold encrypt. rewrite for_acc_nil.
  apply (for_each_Raise_spec encrypt_char subst (λ _, encrypt_error));
    [apply encrypt_char_Ok | apply encrypt_char_Raise_iff].
Qed.

(** C22: [decrypt] raises exactly when some character of the ciphertext
    has no inverse substitute in the key as it stands at that position:
    [ValueError] for a character that is not in the key, [IndexError] for
    a symbol of the key at a position past the alphabet's end.  The device
    keeps the rotations of the characters before the failing one. *)
Theorem decrypt_raises ciphertext self e self' :
  decrypt ciphertext self = Raise e self' ↔
  ∃ c1 x c2 msg1,
    ciphertext = c1 ++ x :: c2 ∧
    spec_decrypt (__key self) (shift self) c1 = Some msg1 ∧
    unsubst (__key (advance (length c1) self)) x = None ∧
    e = decrypt_error (__key (advance (length c1) self)) x ∧
    self' = advance (length c1) self.
Proof.
  unfold decrypt. rewrite for_acc_nil.
  apply (for_each_Raise_spec decrypt_char unsubst decrypt_error);
    [apply decrypt_char_Ok | apply decrypt_char_Raise_iff].
Qed.

(** A plaintext with a letter outside ASCII passes the filter of
    [encrypt] and makes it raise [ValueError]: "café" leaves the device of
    the demonstration rotated three times and returns nothing. *)
Theorem encrypt_latin1_letter :
  encrypt (str "caf" ++ ["233"%char]) OneRotorDemo.device =
    Raise ValueError (advance 3 OneRotorDemo.device).
Proof. by vm_compute. Qed.

(** ** State continuity *)

(** C30: two [encrypt] calls in a row on one device give the ciphertext and
    the final state of one call on the concatenated plaintext, provided
    the first plaintext does not end and the second does not start with
    white space. *)
Theorem encrypt_continuity p1 p2 self :
  (∀ c, last p1 = Some c → ¬ isspace c) → (∀ c, head p2 = Some c → ¬ isspace c) →
  encrypt (p1 ++ p2) self = (c1 <- encrypt p1 ;; c2 <- encrypt p2 ;; ret (c1 ++ c2)) self.
Proof.
  intros Hl Hh. unfold encrypt. rewrite normalize_app by done.
  rewrite for_acc_nil, for_each_app. unfold bind.
  rewrite !for_acc_nil. destruct (for_each encrypt_char (normalize p1) self); [|done].
  by rewrite for_acc_nil.
Qed.

Lemma encrypt_continuity_witness :
  encrypt (str "at d" ++ str "awn") OneRotorDemo.device =
    (c1 <- encrypt (str "at d") ;; c2 <- encrypt (str "awn") ;; ret (c1 ++ c2))
      OneRotorDemo.device.
Proof.
  apply (encrypt_continuity (str "at d") (str "awn") OneRotorDemo.device).
  - intros c [= <-]. by vm_compute.
  - intros c [= <-]. by vm_compute.
Defined.

(** Without that proviso state continuity fails: the space at the end
    of "a " is stripped when "a " is encrypted alone and kept when "a b"
    is encrypted in one call, so the two ciphertexts differ. *)
Theorem encrypt_continuity_fails :
  value_of (encrypt (str "a " ++ str "b") OneRotorDemo.device) = inr (str "BCG") ∧
  value_of ((c1 <- encrypt (str "a ") ;; c2 <- encrypt (str "b") ;; ret (c1 ++ c2))
              OneRotorDemo.device) = inr (str "BE").
Proof. by vm_compute. Qed.

(** ** Concrete runs *)

(** Rotation happens after a character is substituted and before the
    next one is: with the key of the demonstration and speed 2, "AB"
    encrypts to "BE" (A is the key's symbol at index 0, then the key
    turns by 2, then B is the turned key's symbol at index 1) and the
    device is left turned by 4. *)
Theorem encrypt_AB :
  encrypt (str "AB") OneRotorDemo.device =
    Ok (str "BE") (Build (str "FGHIJKLMNOPQRSTUVWXYZ0123456789. ABCDE") 2).
Proof. by vm_compute. Qed.

(** The demonstration script ends without an exception; it prints its
    plaintext, this ciphertext, and as the message the upper-cased
    plaintext. *)
Theorem demo_main :
  OneRotorDemo.main =
    inr (OneRotorDemo.p,
         str "BWYHLVM05VVE7DE4336665EIL6OUTF.X06H6KNUCJUPLTTQX81 N26 CNSHE0QP0N",
         str "ATTACK LOCATION 8675309 AT DAWN. DO NOT ENGAGE ENEMY BEFORE THEN.").
Proof. by vm_compute. Qed.

(** A device constructed with a speed of zero or less never turns its
    rotor ([range(0, n)] is empty): [encrypt] substitutes every character
    with the key it was constructed with and leaves the device as it
    was. *)
Theorem encrypt_static plaintext self ct self' :
  (__speed self ≤ 0)%Z →
  encrypt plaintext self = Ok ct self' ↔
  mapM (subst (__key self)) (normalize plaintext) = Some ct ∧ self' = self.
Proof.
  intros Hsp. unfold encrypt. rewrite for_acc_nil, for_each_encrypt_spec.
  assert (shift self = 0) as Hsh by (unfold shift; lia).
  assert (∀ n, advance n self = self) as ->.
  { intros n. unfold advance. rewrite Hsh, Nat.mul_0_r, rotate_0. by destruct self. }
  rewrite Hsh. unfold spec_encrypt.
  assert (∀ k msg, spec_run subst k 0 msg = mapM (subst k) msg) as ->; [|done].
  intros k msg. induction msg as [|c msg IH]; [done|]. simpl. by rewrite rotate_0, IH.
Qed.

Lemma encrypt_static_witness :
  encrypt (str "ab") (__init__ OneRotorDemo.key (Some 0%Z)) =
    Ok (str "BC") (__init__ OneRotorDemo.key (Some 0%Z)).
Proof.
  apply (encrypt_static (str "ab") (__init__ OneRotorDemo.key (Some 0%Z))); [done|].
  by vm_compute.
Defined.
