(* ===== verification/MultiRotor.v ===== *)
(** * MultiRotor: the multi-rotor device (src/MultiRotorDevice.py)

    The state of a [MultiRotorDevice] is its key, a list of rotors, the
    list of rotation speeds and the index of the current rotor.  For each
    character [encrypt] and [decrypt] first move the index to the next
    rotor, cyclically, substitute through that rotor and rotate it by its
    own speed; the other rotors stay as they are.

    A rotor object is named by its position in [self.__key]: the outer list
    is built once by [__init__] and never changed, so a position names the
    same list object for the life of the device, and [rotor_ r] is the
    place the object lives in.  The methods return such positions where
    the Python methods return the list object, and every mutation through
    the returned object is a mutation of the key.

    This file is the class with [__tracing] at its initial value [False]:
    the statements under [if self.__tracing] are left out.  [Tracing]
    has the class with them and proves that they change nothing but the
    output. *)

From stdpp Require Import base tactics option list numbers strings.
From Stdlib Require Import Ascii ZArith Lia.
From S2P Require Import Prelude.
From S2P Require Import Rotor.
From S2P Require Import PyList.
From S2P Require Import Alphabet.
From S2P Require Import Normalizer.
From S2P Require Import Device.

Module MultiRotorDevice.

(** The attributes [__key], [__speeds] and [__cur_rotor_idx]. *)
Record t : Type := Build {
  __key : list (list ascii);
  __speeds : list Z;
  __cur_rotor_idx : nat;
}.

(** The class attribute [__alphabet]. *)
Definition __alphabet : list ascii := alphabet.

(** [self.__key] and [self.__speeds] as places that hold a list. *)
Definition key_ : lens t (list (list ascii)) :=
  Lens __key (λ k self, Build k (__speeds self) (__cur_rotor_idx self)).

Definition speeds_ : lens t (list Z) :=
  Lens __speeds (λ v self, Build (__key self) v (__cur_rotor_idx self)).

(** The rotor object at position [r] of the key. *)
Definition rotor_ (r : nat) : lens t (list ascii) :=
  Lens (λ self, __key self !!! r)
       (λ l self, Build (<[r:=l]> (__key self)) (__speeds self) (__cur_rotor_idx self)).

(** [self.__cur_rotor_idx = idx] *)
Definition set_cur_rotor_idx (idx : nat) : M t unit :=
  modify (λ self, Build (__key self) (__speeds self) idx).

(** [__init__(self, key, rotation_speeds)]: the key is copied rotor by
    rotor, the cursor starts at the class attribute's value 0. *)
Definition __init__ (key : list (list ascii)) (rotation_speeds : list Z) : t :=
  Build key rotation_speeds 0.

(** [__current_rotor]: the object [self.__key[self.__cur_rotor_idx]]. *)
Definition __current_rotor : M t nat :=
  idx <- gets __cur_rotor_idx ;;
  getitem key_ idx ;;
  ret idx.

(** [__next_rotor]: the cursor moves before the rotor is returned. *)
Definition __next_rotor : M t nat :=
  idx <- gets __cur_rotor_idx ;;
  len <- gets (λ self, length (__key self)) ;;
  idx' <- lift (py_mod (idx + 1) len) ;;
  set_cur_rotor_idx idx' ;;
  __current_rotor.

Definition __rotate : M t unit :=
  rotor <- __current_rotor ;;
  idx <- gets __cur_rotor_idx ;;
  speed <- getitem speeds_ idx ;;
  for_range speed (λ i, pop_append (rotor_ rotor)).

(** The body of [encrypt]'s loop. *)
Definition encrypt_char (char : ascii) : M t ascii :=
  i <- lift (list_index __alphabet char) ;;
  rotor <- __next_rotor ;;
  x <- getitem (rotor_ rotor) i ;;
  __rotate ;;
  ret x.

Definition encrypt (plaintext : list ascii) : M t (list ascii) :=
  let msg := normalize plaintext in
  let ciphertext := [] in
  for_acc encrypt_char msg ciphertext.

(** The body of [decrypt]'s loop. *)
Definition decrypt_char (char : ascii) : M t ascii :=
  rotor <- __next_rotor ;;
  i <- index (rotor_ rotor) char ;;
  x <- lift (list_getitem __alphabet i) ;;
  __rotate ;;
  ret x.

Definition decrypt (ciphertext : list ascii) : M t (list ascii) :=
  let msg := [] in
  for_acc decrypt_char ciphertext msg.

(** ** Specification: the rotor bank as a transition function *)

(** The rotor the next character goes through. *)
Definition selected (self : t) : nat :=
  (__cur_rotor_idx self + 1) mod length (__key self).

(** What one character does to the bank: the cursor moves to the
    selected rotor and that rotor turns by its speed. *)
Definition turn (self : t) : option t :=
  let r := selected self in
  rot ← __key self !! r;
  sp ← __speeds self !! r;
  Some (Build (<[r:=rotate (Z.to_nat sp) rot]> (__key self)) (__speeds self) r).

(** One character through the substitution [f] of the selected rotor. *)
Definition step (f : list ascii → ascii → option ascii) (c : ascii) (self : t)
    : option (ascii * t) :=
  rot ← __key self !! selected self;
  x ← f rot c;
  self' ← turn self;
  Some (x, self').

(** A message, character by character. *)
Definition run (f : list ascii → ascii → option ascii)
    : list ascii → t → option (list ascii * t) :=
  run_opt (step f).

(** The state after the cursor moved to [r]. *)
Definition at_rotor (r : nat) (self : t) : t := Build (__key self) (__speeds self) r.

(** What a loop body does once the selected rotor [rot] gave (or did not
    give) the symbol [ox]: turn the bank and return the symbol. *)
Definition finish (ox : option ascii) (self : t) : res t ascii :=
  match ox with
  | None => Raise IndexError (at_rotor (selected self) self)
  | Some x =>
      match turn self with
      | Some self' => Ok x self'
      | None => Raise IndexError (at_rotor (selected self) self)
      end
  end.

(** The conditions under which the loop bodies raise, with the exception
    and the state they leave: the three cases of [encrypt] and of
    [decrypt] exclude each other, and each of them makes the body
    raise. *)
Definition encrypt_fault (c : ascii) (s : t) (e : exn) (s' : t) : Prop :=
  (e = ValueError ∧ (c ∉ alphabet) ∧ s' = s) ∨
  (e = ZeroDivisionError ∧ c ∈ alphabet ∧ __key s = [] ∧ s' = s) ∨
  (e = IndexError ∧ c ∈ alphabet ∧ __key s ≠ [] ∧ s' = at_rotor (selected s) s ∧
   ∃ rot, __key s !! selected s = Some rot ∧
          (subst rot c = None ∨ __speeds s !! selected s = None)).

Definition decrypt_fault (x : ascii) (s : t) (e : exn) (s' : t) : Prop :=
  (e = ZeroDivisionError ∧ __key s = [] ∧ s' = s) ∨
  ((e = ValueError ∨ e = IndexError) ∧ __key s ≠ [] ∧ s' = at_rotor (selected s) s ∧
   ∃ rot, __key s !! selected s = Some rot ∧
          (e = ValueError ∧ (x ∉ rot) ∨
           e = IndexError ∧ x ∈ rot ∧
             (unsubst rot x = None ∨ __speeds s !! selected s = None))).
(** A device whose cursor names a rotor; a fresh device with a rotor is
    seated, and every character keeps it so. *)
Definition seated (self : t) : Prop := __cur_rotor_idx self < length (__key self).

(** How often rotor [r] is selected by the first [n] characters. *)
Definition uses (self : t) (n r : nat) : nat :=
  length (filter (λ t, (__cur_rotor_idx self + t + 1) mod length (__key self) = r) (seq 0 n)).

(** The bank after [n] characters, in closed form: every rotor turned by
    its speed once per use, the cursor [n] rotors further. *)
Definition bank_after (n : nat) (self : t) : t :=
  Build (imap (λ r rot, rotate (Z.to_nat (__speeds self !!! r) * uses self n r) rot)
              (__key self))
        (__speeds self)
        ((__cur_rotor_idx self + n) mod length (__key self)).

(** A device whose substitutions can be inverted: no rotor has a
    duplicate symbol. *)
Definition usable (self : t) : Prop := Forall NoDup (__key self).

(** A device that can encrypt the whole alphabet at every position: there
    is a rotor, every rotor has a speed and a symbol for every index of
    the alphabet. *)
Definition equipped (self : t) : Prop :=
  __key self ≠ [] ∧ length (__key self) ≤ length (__speeds self) ∧
  Forall (λ rot, length alphabet ≤ length rot) (__key self).

(** A device all of whose rotors are permutations of the alphabet, with
    at least one rotor and a speed for every rotor: what a valid
    configuration constructs, and what every character keeps. *)
Definition permuted (self : t) : Prop :=
  __key self ≠ [] ∧ length (__key self) ≤ length (__speeds self) ∧
  Forall (λ rot, rot ≡ₚ alphabet) (__key self).

(** A configuration as the specification asks for it: at least one
    rotor, one speed per rotor, every rotor a permutation of the
    alphabet. *)
Definition valid_config (key : list (list ascii)) (rotation_speeds : list Z) : Prop :=
  key ≠ [] ∧ length rotation_speeds = length key ∧ Forall (λ rot, rot ≡ₚ alphabet) key.

End MultiRotorDevice.

(** ** The demonstration script (lines 82 to 147 of the source)

    The script draws its rotors with [random.sample(alphabet,
    len(alphabet))], which returns a new list holding the alphabet in a
    random order.  [sample n] stands for the list the [n]-th call
    returns, so that the script is a function of what the random source
    gives it. *)

Module MultiRotorDemo.
Import MultiRotorDevice.

Section script.
Variable sample : nat → list ascii.

Definition alphabet : list ascii := str "ABCDEFGHIJKLMNOPQRSTUVWXYZ0123456789. ".

(** [key = []; for i in range(0,6): key.append(random.sample(...))] *)
Definition key : list (list ascii) := sample <$> seq 0 6.

Definition speeds : list Z := [3; 1; 5; 2; 6; 4]%Z.

Definition alice : t := __init__ key speeds.

Definition p : list ascii :=
  str "Attack location 8675309 at dawn. Do not engage enemy before then.".

Definition bob : t := __init__ key speeds.

(** The seven devices of the simulated attacker, in the order of the
    script: what [eve] knows of the key and of the speeds. *)
Definition eve_0_rotors_0_speeds : t := __init__ [sample 6] [1]%Z.

Definition eve_first_rotor_0_speeds : t :=
  __init__ (take 1 key ++ (sample <$> seq 7 5)) [1; 1; 1; 1; 1; 1]%Z.

Definition eve_first_rotor_first_speed : t :=
  __init__ (take 1 key ++ (sample <$> seq 12 5)) [3; 1; 1; 1; 1; 1]%Z.

Definition eve_rotors_1_2 : t :=
  __init__ (take 2 key ++ (sample <$> seq 17 4)) [3; 1; 1; 1; 1; 1]%Z.

Definition eve_5_rotors_5_speeds : t :=
  __init__ (<[5:=sample 21]> key) [3; 1; 5; 2; 6; 1]%Z.

Definition eve_6_rotors_5_speeds : t := __init__ key [3; 1; 5; 2; 6; 1]%Z.

Definition eve_5_rotors_6_speeds : t := __init__ (<[5:=sample 22]> key) speeds.

Definition eves : list t :=
  [eve_0_rotors_0_speeds; eve_first_rotor_0_speeds; eve_first_rotor_first_speed;
   eve_rotors_1_2; eve_5_rotors_5_speeds; eve_6_rotors_5_speeds;
   eve_5_rotors_6_speeds].

(** What the attacker's devices print, in order; the first exception
    ends the script. *)
Fixpoint attack (c : list ascii) (devices : list t) : exn + list (list ascii) :=
  match devices with
  | [] => inr []
  | eve :: rest =>
      m <~ call (decrypt c) eve ;;
      ms <~ attack c rest ;;
      inr (m :: ms)
  end.

(** The script: the plaintext, the ciphertext, what bob sees and what
    eve sees in her seven attempts, or the exception that ends it. *)
Definition main : exn + (list ascii * list ascii * list ascii * list (list ascii)) :=
  c <~ call (encrypt p) alice ;;
  m <~ call (decrypt c) bob ;;
  seen <~ attack c eves ;;
  inr (p, c, m, seen).

End script.

(** One outcome of the random source, for the examples: the alphabet
    rotated by a different amount at each call. *)
Definition sample_rotations (n : nat) : list ascii :=
  rotate (7 * n + 1) Alphabet.alphabet.

End MultiRotorDemo.

Import MultiRotorDevice.

#[export] Instance rotor_laws r : LensLaws (rotor_ r) (λ self, r < length (__key self)).
Proof.
  split; simpl.
  - intros self l Hr. by rewrite list_lookup_total_insert_eq.
  - intros self l Hr. by rewrite length_insert.
  - intros self l l'. by rewrite list_insert_insert_eq.
  - intros [k v i]. simpl. f_equal. destruct (decide (r < length k)) as [Hr|Hr].
    + apply list_insert_id. by apply list_lookup_lookup_total_lt.
    + apply list_insert_ge. lia.
Qed.

#[export] Instance multi_usable_dec self : Decision (usable self).
Proof. unfold usable. apply _. Defined.

#[export] Instance equipped_dec self : Decision (equipped self).
Proof. unfold equipped. apply _. Defined.

#[export] Instance permuted_dec self : Decision (permuted self).
Proof. unfold permuted. apply _. Defined.

#[export] Instance valid_config_dec key speeds : Decision (valid_config key speeds).
Proof. unfold valid_config. apply _. Defined.

(** ** The methods, one by one *)

Section methods.
Implicit Types (self : t) (r i : nat) (rot : list ascii).

Lemma selected_lt self : __key self ≠ [] → selected self < length (__key self).
Proof.
  intros Hne. apply Nat.mod_upper_bound. by destruct (__key self).
Qed.

Lemma current_rotor_run self :
  __current_rotor self =
    if decide (__cur_rotor_idx self < length (__key self))
    then Ok (__cur_rotor_idx self) self else Raise IndexError self.
Proof.
  unfold __current_rotor, bind, gets, getitem, lift, list_getitem, ret. simpl.
  case_decide as Hlt.
  - by destruct (lookup_lt_is_Some_2 _ _ Hlt) as [rot ->].
  - by rewrite lookup_ge_None_2 by lia.
Qed.

Lemma next_rotor_run self :
  __next_rotor self =
    if decide (__key self = []) then Raise ZeroDivisionError self
    else Ok (selected self) (at_rotor (selected self) self).
Proof.
  unfold __next_rotor, bind, gets, lift, py_mod, set_cur_rotor_idx, modify.
  destruct (decide (__key self = [])) as [Hk|Hk].
  - by rewrite Hk.
  - rewrite decide_False by by destruct (__key self).
    rewrite current_rotor_run. simpl. by rewrite decide_True by by apply selected_lt.
Qed.

(** [__rotate] on a device whose current rotor and its speed exist. *)
Lemma multi_rotate_run self rot sp :
  __key self !! __cur_rotor_idx self = Some rot → rot ≠ [] →
  __speeds self !! __cur_rotor_idx self = Some sp →
  __rotate self =
    Ok tt (Build (<[__cur_rotor_idx self:=rotate (Z.to_nat sp) rot]> (__key self))
                 (__speeds self) (__cur_rotor_idx self)).
Proof.
  intros Hrot Hne Hsp. pose proof (lookup_lt_Some _ _ _ Hrot) as Hlt.
  unfold __rotate, bind. rewrite current_rotor_run, decide_True by done.
  unfold gets, getitem, lift, list_getitem. simpl. rewrite Hsp.
  rewrite (for_range_pop_append (rotor_ _) (λ s, __cur_rotor_idx self < length (__key s)));
    simpl; [|done|by rewrite (list_lookup_total_correct _ _ _ Hrot)].
  by rewrite (list_lookup_total_correct _ _ _ Hrot).
Qed.

(** [__rotate] raises [IndexError] when the current rotor has no speed,
    and changes nothing then. *)
Lemma rotate_no_speed self :
  __speeds self !! __cur_rotor_idx self = None → __rotate self = Raise IndexError self.
Proof.
  intros Hsp. unfold __rotate, bind. rewrite current_rotor_run.
  case_decide; [|done]. unfold gets, getitem, lift, list_getitem. simpl. by rewrite Hsp.
Qed.

Lemma turn_Some self self' :
  turn self = Some self' ↔
  ∃ rot sp, __key self !! selected self = Some rot ∧
            __speeds self !! selected self = Some sp ∧
            self' = Build (<[selected self:=rotate (Z.to_nat sp) rot]> (__key self))
                          (__speeds self) (selected self).
Proof. unfold turn. simpl. rewrite bind_Some. setoid_rewrite bind_Some. naive_solver. Qed.

(** After the cursor moved to the selected rotor, [__rotate] completes
    the turn, or raises [IndexError] when that rotor has no speed. *)
Lemma rotate_selected self rot :
  __key self !! selected self = Some rot → rot ≠ [] →
  __rotate (at_rotor (selected self) self) =
    match turn self with
    | Some self' => Ok tt self'
    | None => Raise IndexError (at_rotor (selected self) self)
    end.
Proof.
  intros Hrot Hne. unfold turn. simpl. rewrite Hrot. simpl.
  destruct (__speeds self !! selected self) as [sp|] eqn:Hsp; simpl.
  - by rewrite (multi_rotate_run _ rot sp).
  - by rewrite rotate_no_speed.
Qed.

Lemma finish_Ok ox self x self' :
  finish ox self = Ok x self' ↔ ox = Some x ∧ turn self = Some self'.
Proof. unfold finish. destruct ox, (turn self); naive_solver. Qed.

Lemma finish_Raise ox self e self' :
  finish ox self = Raise e self' →
  e = IndexError ∧ self' = at_rotor (selected self) self ∧ (ox = None ∨ turn self = None).
Proof. unfold finish. destruct ox, (turn self); naive_solver. Qed.

(** With a selected rotor, the bank fails to turn only for want of a
    speed. *)
Lemma turn_None self rot :
  __key self !! selected self = Some rot → turn self = None →
  __speeds self !! selected self = None.
Proof.
  intros Hrot. unfold turn. simpl. rewrite Hrot. simpl.
  by destruct (__speeds self !! selected self).
Qed.

(** [encrypt]'s loop body, branch by branch. *)
Lemma encrypt_char_run char self :
  encrypt_char char self =
    match list_index alphabet char with
    | inl e => Raise e self
    | inr i =>
        match __key self !! selected self with
        | None => Raise ZeroDivisionError self
        | Some rot => finish (rot !! i) self
        end
    end.
Proof.
  unfold encrypt_char, __alphabet, bind at 1, lift.
  destruct (list_index alphabet char) as [e|i]; [done|].
  unfold bind at 1. rewrite next_rotor_run. case_decide as Hk.
  { by rewrite Hk. }
  unfold bind at 1, getitem, lift, list_getitem. simpl. rewrite list_lookup_total_alt.
  destruct (__key self !! selected self) as [rot|] eqn:Hrot; simpl;
    [|by pose proof (selected_lt self Hk); apply lookup_ge_None in Hrot; lia].
  destruct (rot !! i) as [y|] eqn:Hy; simpl; [|done].
  unfold bind. rewrite (rotate_selected _ rot) by (done || by intros ->).
  by destruct (turn self).
Qed.

(** [decrypt]'s loop body, branch by branch. *)
Lemma decrypt_char_run char self :
  decrypt_char char self =
    match __key self !! selected self with
    | None => Raise ZeroDivisionError self
    | Some rot =>
        match list_index rot char with
        | inl e => Raise e (at_rotor (selected self) self)
        | inr i => finish (alphabet !! i) self
        end
    end.
Proof.
  unfold decrypt_char, __alphabet.
  unfold bind at 1. rewrite next_rotor_run. case_decide as Hk.
  { by rewrite Hk. }
  unfold bind at 1, index, lift. simpl. rewrite list_lookup_total_alt.
  destruct (__key self !! selected self) as [rot|] eqn:Hrot; simpl;
    [|by pose proof (selected_lt self Hk); apply lookup_ge_None in Hrot; lia].
  destruct (list_index rot char) as [e|i] eqn:Hi; simpl; [done|].
  unfold bind at 1, list_getitem.
  destruct (alphabet !! i) as [y|] eqn:Hy; simpl; [|done].
  unfold bind. rewrite (rotate_selected _ rot) by (done || by intros ->).
  by destruct (turn self).
Qed.

(** The loop body returns exactly when the transition function [step]
    does, with the same symbol and the same next state. *)
Lemma multi_encrypt_char_Ok char self x self' :
  encrypt_char char self = Ok x self' ↔ step subst char self = Some (x, self').
Proof.
  rewrite encrypt_char_run. unfold step, subst.
  destruct (list_index alphabet char) as [e|i]; simpl.
  { destruct (__key self !! selected self); naive_solver. }
  destruct (__key self !! selected self) as [rot|]; simpl; [|naive_solver].
  rewrite finish_Ok. destruct (rot !! i), (turn self); naive_solver.
Qed.

Lemma multi_decrypt_char_Ok char self x self' :
  decrypt_char char self = Ok x self' ↔ step unsubst char self = Some (x, self').
Proof.
  rewrite decrypt_char_run. unfold step, unsubst.
  destruct (__key self !! selected self) as [rot|]; simpl; [|naive_solver].
  destruct (list_index rot char) as [e|i]; simpl; [naive_solver|].
  rewrite finish_Ok. destruct (alphabet !! i), (turn self); naive_solver.
Qed.

(** An exception leaves the rotors as they were; the cursor has moved
    when the exception came after [__next_rotor].  The third case names
    its cause: the selected rotor has no symbol for the character, or no
    speed. *)
Lemma multi_encrypt_char_Raise char self e self' :
  encrypt_char char self = Raise e self' →
  (e = ValueError ∧ (char ∉ alphabet) ∧ self' = self) ∨
  (e = ZeroDivisionError ∧ __key self = [] ∧ self' = self) ∨
  (e = IndexError ∧ __key self ≠ [] ∧ self' = at_rotor (selected self) self ∧
   ∃ rot, __key self !! selected self = Some rot ∧
          (subst rot char = None ∨ __speeds self !! selected self = None)).
Proof.
  rewrite encrypt_char_run. unfold subst.
  destruct (list_index alphabet char) as [e'|i] eqn:Hi.
  { apply list_index_inl in Hi as [-> ?]. naive_solver. }
  destruct (__key self !! selected self) as [rot|] eqn:Hrot.
  - intros (-> & -> & Hwhy)%finish_Raise. right; right. split_and!; [done| |done|].
    + intros Hk. by rewrite Hk in Hrot.
    + exists rot. split; [done|]. destruct Hwhy as [?|?%(turn_None _ rot)]; auto.
  - intros [= <- <-]. right; left. split_and!; [done| |done].
    destruct (decide (__key self = [])) as [|Hk]; [done|].
    apply lookup_ge_None in Hrot. pose proof (selected_lt self Hk). lia.
Qed.

Lemma multi_decrypt_char_Raise char self e self' :
  decrypt_char char self = Raise e self' →
  (e = ZeroDivisionError ∧ __key self = [] ∧ self' = self) ∨
  ((e = ValueError ∨ e = IndexError) ∧ __key self ≠ [] ∧
    self' = at_rotor (selected self) self ∧
   ∃ rot, __key self !! selected self = Some rot ∧
          (e = ValueError ∧ (char ∉ rot) ∨
           e = IndexError ∧ char ∈ rot ∧
             (unsubst rot char = None ∨ __speeds self !! selected self = None))).
Proof.
  rewrite decrypt_char_run. unfold unsubst.
  destruct (__key self !! selected self) as [rot|] eqn:Hrot.
  - assert (__key self ≠ []) as Hk by (intros Hk; by rewrite Hk in Hrot).
    destruct (list_index rot char) as [e'|i] eqn:Hi.
    + apply list_index_inl in Hi as [-> ?]. intros [= <- <-]. right.
      split_and!; [by left|done..|]. exists rot. auto.
    + intros (-> & -> & Hwhy)%finish_Raise. right. split_and!; [by right|done..|].
      exists rot. split; [done|]. right. split; [done|]. split.
      { apply list_elem_of_lookup. exists i. by apply list_index_lookup. }
      rewrite Hi. destruct Hwhy as [Hx|?%(turn_None _ rot)]; [by left|by right|done].
  - intros [= <- <-]. left. split_and!; [done| |done].
    destruct (decide (__key self = [])) as [|Hk]; [done|].
    apply lookup_ge_None in Hrot. pose proof (selected_lt self Hk). lia.
Qed.


Lemma encrypt_char_Raise_fault char self e self' :
  encrypt_char char self = Raise e self' ↔ encrypt_fault char self e self'.
Proof.
  split.
  - intros Hc. pose proof Hc as He. apply multi_encrypt_char_Raise in He.
    rewrite encrypt_char_run in Hc. unfold encrypt_fault.
    destruct (list_index alphabet char) as [|i] eqn:Hi.
    { apply list_index_inl in Hi as [-> ?]. injection Hc as <- <-. by left. }
    assert (char ∈ alphabet)
      by (apply list_elem_of_lookup; exists i; by apply list_index_lookup).
    naive_solver.
  - rewrite encrypt_char_run. unfold encrypt_fault, subst, finish.
    intros [(-> & Hc & ->)|[(-> & Hc & Hk & ->)|(-> & Hc & _ & -> & rot & Hrot & Hwhy)]].
    + by rewrite alphabet_index_inl.
    + apply alphabet_index in Hc as (i & -> & _). by rewrite Hk.
    + apply alphabet_index in Hc as (i & Hi & _). rewrite Hi in Hwhy |- *. rewrite Hrot.
      destruct Hwhy as [->|Hsp]; [done|]. destruct (rot !! i); [|done].
      unfold turn. simpl. by rewrite Hrot, Hsp.
Qed.

Lemma decrypt_char_Raise_fault char self e self' :
  decrypt_char char self = Raise e self' ↔ decrypt_fault char self e self'.
Proof.
  split.
  - intros Hc. apply multi_decrypt_char_Raise in Hc. unfold decrypt_fault. naive_solver.
  - rewrite decrypt_char_run. unfold decrypt_fault, unsubst, finish.
    intros [(-> & Hk & ->)|(He & _ & -> & rot & Hrot & Hwhy)].
    + by rewrite Hk.
    + rewrite Hrot. destruct Hwhy as [[-> Hx]|(-> & Hx & Hwhy)].
      * by rewrite (proj2 (list_index_inl rot char ValueError)).
      * apply list_index_elem_of in Hx as [i Hi]. rewrite Hi in Hwhy |- *.
        destruct Hwhy as [->|Hsp]; [done|]. destruct (alphabet !! i); [|done].
        unfold turn. simpl. by rewrite Hrot, Hsp.
Qed.
End methods.

(** ** The device satisfies the contract *)

#[export] Instance multi_device : Device t := {|
  enc_char := encrypt_char;
  dec_char := decrypt_char;
  ready := usable;
  complete := equipped;
|}.

Section contract.
Implicit Types (self : t) (c x : ascii).

(** What a character does to the bank when it goes through. *)
Lemma step_Some f c self x self' :
  step f c self = Some (x, self') ↔
  ∃ rot sp, __key self !! selected self = Some rot ∧ f rot c = Some x ∧
            __speeds self !! selected self = Some sp ∧
            self' = Build (<[selected self:=rotate (Z.to_nat sp) rot]> (__key self))
                          (__speeds self) (selected self).
Proof.
  unfold step. rewrite bind_Some. setoid_rewrite bind_Some. setoid_rewrite bind_Some.
  setoid_rewrite turn_Some. naive_solver.
Qed.

(** A character that [decrypt] takes through is in the selected rotor. *)
Lemma step_unsubst_index c self x self' :
  step unsubst c self = Some (x, self') →
  ∃ i, list_index (__key self !!! selected self) c = inr i.
Proof.
  intros (rot & sp & Hrot & Hx & _)%step_Some. rewrite (list_lookup_total_correct _ _ _ Hrot).
  unfold unsubst in Hx. destruct (list_index rot c); [done|by eexists].
Qed.

Lemma step_turn f c self x self' : step f c self = Some (x, self') → turn self = Some self'.
Proof.
  unfold step. intros (rot & _ & (y & _ & (s & Hs & [= _ <-])%bind_Some)%bind_Some)%bind_Some.
  done.
Qed.

(** A property of the device that a turn of the bank and a move of the
    cursor keep is kept by both loop bodies, whether they return or
    raise. *)
Lemma multi_char_invariant (I : t → Prop) :
  (∀ self self', turn self = Some self' → I self → I self') →
  (∀ self r, I self → I (at_rotor r self)) →
  ∀ c, hoare I (encrypt_char c) (λ _, I) (λ _, I) ∧
       hoare I (decrypt_char c) (λ _, I) (λ _, I).
Proof.
  intros Hturn Hat c. split; intros self HI.
  - destruct (encrypt_char c self) as [x self'|e self'] eqn:Hc.
    + apply multi_encrypt_char_Ok, step_turn in Hc. eauto.
    + apply multi_encrypt_char_Raise in Hc. naive_solver.
  - destruct (decrypt_char c self) as [x self'|e self'] eqn:Hc.
    + apply multi_decrypt_char_Ok, step_turn in Hc. eauto.
    + apply multi_decrypt_char_Raise in Hc. naive_solver.
Qed.

Lemma turn_usable self self' : turn self = Some self' → usable self → usable self'.
Proof.
  intros (rot & sp & Hrot & _ & ->)%turn_Some Hk. unfold usable in *. simpl.
  apply Forall_insert; [done|]. apply NoDup_rotate. by eapply Forall_lookup_1.
Qed.

Lemma turn_equipped self self' : turn self = Some self' → equipped self → equipped self'.
Proof.
  intros (rot & sp & Hrot & _ & ->)%turn_Some (Hne & Hsp & Hlen). unfold equipped. simpl.
  split_and!.
  - intros Hk%(f_equal length). rewrite length_insert in Hk. by destruct (__key self).
  - by rewrite length_insert.
  - apply Forall_insert; [done|]. rewrite length_rotate.
    by apply (Forall_lookup_1 _ _ _ _ Hlen Hrot).
Qed.

Lemma step_total self c :
  equipped self → c ∈ alphabet → ∃ x self', step subst c self = Some (x, self').
Proof.
  intros (Hne & Hsp & Hlen) Hc. pose proof (selected_lt self Hne) as Hlt.
  destruct (lookup_lt_is_Some_2 (__key self) _ Hlt) as [rot Hrot].
  destruct (lookup_lt_is_Some_2 (__speeds self) (selected self)) as [sp Hsp']; [lia|].
  destruct (subst_total rot c) as [x Hx]; [|done|].
  { by apply (Forall_lookup_1 _ _ _ _ Hlen Hrot). }
  unfold step, turn. rewrite Hrot, Hsp'. simpl. rewrite Hx. simpl. eauto.
Qed.

Lemma step_subst_unsubst self c x self' :
  usable self → step subst c self = Some (x, self') → step unsubst x self = Some (c, self').
Proof.
  unfold step. intros Hk (rot & Hrot & (y & Hy & Hs)%bind_Some)%bind_Some.
  rewrite Hrot. simpl. destruct (turn self) as [s|]; [|done]. injection Hs as <- <-.
  rewrite (subst_unsubst rot c y); [done| |done]. by eapply Forall_lookup_1.
Qed.

Lemma step_unsubst_subst self c x self' :
  step unsubst x self = Some (c, self') → step subst c self = Some (x, self').
Proof.
  unfold step. intros (rot & Hrot & (y & Hy & Hs)%bind_Some)%bind_Some.
  rewrite Hrot. simpl. destruct (turn self) as [s|]; [|done]. injection Hs as <- <-.
  by rewrite (unsubst_subst rot y x).
Qed.

#[export] Instance multi_device_laws : DeviceLaws t.
Proof.
  split; simpl.
  - intros c. by apply (multi_char_invariant usable turn_usable).
  - intros c. by apply (multi_char_invariant usable turn_usable).
  - intros c. by apply (multi_char_invariant equipped turn_equipped).
  - intros c. by apply (multi_char_invariant equipped turn_equipped).
  - intros self c He Hc. destruct (step_total self c He Hc) as (x & self' & Hs).
    exists x, self'. by apply multi_encrypt_char_Ok.
  - intros self c x self' Hk Hc%multi_encrypt_char_Ok.
    apply multi_decrypt_char_Ok. by apply step_subst_unsubst.
  - intros self c x self' Hk Hc%multi_decrypt_char_Ok.
    apply multi_encrypt_char_Ok. by apply step_unsubst_subst.
Qed.
End contract.

(** ** [encrypt] and [decrypt] *)

Lemma multi_encrypt_unfold plaintext self :
  encrypt plaintext self = for_each encrypt_char (normalize plaintext) self.
Proof. unfold encrypt. by rewrite for_acc_nil. Qed.

Lemma multi_decrypt_unfold ciphertext self :
  decrypt ciphertext self = for_each decrypt_char ciphertext self.
Proof. unfold decrypt. by rewrite for_acc_nil. Qed.

Lemma for_each_encrypt_run msg self ct self' :
  for_each encrypt_char msg self = Ok ct self' ↔ run subst msg self = Some (ct, self').
Proof. apply for_each_run_opt. intros. apply multi_encrypt_char_Ok. Qed.

Lemma for_each_decrypt_run ct self msg self' :
  for_each decrypt_char ct self = Ok msg self' ↔ run unsubst ct self = Some (msg, self').
Proof. apply for_each_run_opt. intros. apply multi_decrypt_char_Ok. Qed.

(** C4: [MultiRotorDevice.encrypt] returns a ciphertext and a final state
    exactly when the transition function of the rotor bank, iterated over
    the normalized plaintext with the substitution of the selected rotor,
    gives them. *)
Theorem multi_encrypt_refines_run plaintext self ct self' :
  encrypt plaintext self = Ok ct self' ↔ run subst (normalize plaintext) self = Some (ct, self').
Proof.
  unfold encrypt. rewrite for_acc_nil. apply for_each_run_opt.
  intros. apply multi_encrypt_char_Ok.
Qed.

(** C6: [MultiRotorDevice.decrypt] returns a message and a final state
    exactly when the transition function of the rotor bank, iterated over
    the ciphertext with the inverse substitution of the selected rotor,
    gives them. *)
Theorem multi_decrypt_refines_run ciphertext self msg self' :
  decrypt ciphertext self = Ok msg self' ↔ run unsubst ciphertext self = Some (msg, self').
Proof.
  unfold decrypt. rewrite for_acc_nil. apply for_each_run_opt.
  intros. apply multi_decrypt_char_Ok.
Qed.

(** C14: a multi-rotor device none of whose rotors has a duplicate symbol
    decrypts what a device in the same state encrypted: it returns the
    normalized plaintext and ends in the state the encrypting device
    ended in. *)
Theorem multi_decrypt_encrypt plaintext self ct self' :
  usable self →
  encrypt plaintext self = Ok ct self' →
  decrypt ct self = Ok (normalize plaintext) self'.
Proof.
  intros Hk. unfold encrypt, decrypt. rewrite !for_acc_nil.
  exact (enc_dec_msg (normalize plaintext) self ct self' Hk).
Qed.

Lemma multi_decrypt_encrypt_witness :
  decrypt (str "I8") (MultiRotorDemo.alice MultiRotorDemo.sample_rotations) =
    Ok (normalize (str "at"))
       (state_of (encrypt (str "at") (MultiRotorDemo.alice MultiRotorDemo.sample_rotations))).
Proof.
  apply (multi_decrypt_encrypt (str "at")
           (MultiRotorDemo.alice MultiRotorDemo.sample_rotations)).
  - by apply (bool_decide_unpack _); vm_compute.
  - by vm_compute.
Defined.

(** C20: on a device with at least one rotor, a speed for every rotor and
    rotors at least as long as the alphabet, [encrypt] returns for every
    plaintext of 7-bit characters. *)
Theorem multi_encrypt_total plaintext self :
  equipped self → Forall (λ c, ascii7 c) plaintext →
  ∃ ct self', encrypt plaintext self = Ok ct self'.
Proof.
  intros Hlen Hp%normalize_ascii7. unfold encrypt.
  destruct (enc_msg_total (H:=multi_device) (normalize plaintext) self Hlen Hp)
    as (ct & self' & Hct).
  exists ct, self'. by rewrite for_acc_nil.
Qed.

Lemma multi_encrypt_total_witness :
  ∃ ct self',
    encrypt MultiRotorDemo.p (MultiRotorDemo.alice MultiRotorDemo.sample_rotations) =
      Ok ct self'.
Proof.
  apply (multi_encrypt_total MultiRotorDemo.p
           (MultiRotorDemo.alice MultiRotorDemo.sample_rotations)).
  - by apply (bool_decide_unpack _); vm_compute.
  - by apply (bool_decide_unpack _); vm_compute.
Defined.

Lemma valid_config_usable key speeds :
  valid_config key speeds → usable (__init__ key speeds) ∧ equipped (__init__ key speeds).
Proof.
  intros (Hne & Hsp & Hperm). unfold usable, equipped. simpl. split_and!; [|done|lia|].
  - eapply Forall_impl; [done|]. intros rot ->. apply NoDup_alphabet.
  - eapply Forall_impl; [done|]. by intros rot ->.
Qed.

(** C2: two freshly constructed multi-rotor devices with the same key and
    speeds (at least one rotor, one speed per rotor, every rotor a
    permutation of the alphabet): the first encrypts any plaintext of
    7-bit characters and the second decrypts the ciphertext to the
    normalized plaintext, both ending in the same state. *)
Theorem multi_roundtrip key rotation_speeds plaintext :
  valid_config key rotation_speeds → Forall (λ c, ascii7 c) plaintext →
  ∃ ct self',
    encrypt plaintext (__init__ key rotation_speeds) = Ok ct self' ∧
    decrypt ct (__init__ key rotation_speeds) = Ok (normalize plaintext) self'.
Proof.
  intros [Hnd Hlen]%valid_config_usable Hp%normalize_ascii7.
  destruct (enc_msg_total (H:=multi_device) (normalize plaintext) _ Hlen Hp) as (ct & self' & Hct).
  exists ct, self'. rewrite multi_encrypt_unfold, multi_decrypt_unfold. split; [done|].
  exact (enc_dec_msg _ _ _ _ Hnd Hct).
Qed.

Lemma multi_roundtrip_witness :
  ∃ ct self',
    encrypt MultiRotorDemo.p
      (__init__ (MultiRotorDemo.key MultiRotorDemo.sample_rotations) MultiRotorDemo.speeds) =
      Ok ct self' ∧
    decrypt ct
      (__init__ (MultiRotorDemo.key MultiRotorDemo.sample_rotations) MultiRotorDemo.speeds) =
      Ok (normalize MultiRotorDemo.p) self'.
Proof.
  apply (multi_roundtrip (MultiRotorDemo.key MultiRotorDemo.sample_rotations)
           MultiRotorDemo.speeds MultiRotorDemo.p).
  - by apply (bool_decide_unpack _); vm_compute.
  - by apply (bool_decide_unpack _); vm_compute.
Defined.

(** ** The bank in closed form *)

Section closed_form.
Implicit Types (self : t) (n r : nat) (f : list ascii → ascii → option ascii).

Lemma uses_0 self r : uses self 0 r = 0.
Proof. done. Qed.

Lemma uses_S self n r :
  uses self (S n) r =
    uses self n r +
    (if decide ((__cur_rotor_idx self + n + 1) mod length (__key self) = r) then 1 else 0).
Proof.
  unfold uses. rewrite seq_S, filter_app, length_app. simpl. f_equal.
  rewrite filter_cons, filter_nil. by case_decide.
Qed.

Lemma bank_after_0 self : seated self → bank_after 0 self = self.
Proof.
  unfold seated, bank_after. destruct self as [k v i]. simpl. intros Hi. f_equal.
  - apply list_eq. intros j. rewrite list_lookup_imap.
    destruct (k !! j); simpl; [|done]. by rewrite Nat.mul_0_r, rotate_0.
  - rewrite Nat.add_0_r. by apply Nat.mod_small.
Qed.

Lemma selected_bank_after n self :
  seated self →
  selected (bank_after n self) = (__cur_rotor_idx self + n + 1) mod length (__key self).
Proof.
  unfold seated, selected, bank_after. simpl. intros Hi. rewrite length_imap.
  by rewrite Nat.Div0.add_mod_idemp_l.
Qed.

Lemma bank_after_seated n self : seated self → seated (bank_after n self).
Proof.
  unfold seated, bank_after. simpl. intros Hi. rewrite length_imap.
  apply Nat.mod_upper_bound. lia.
Qed.

(** One character takes the closed form to the next. *)
Lemma turn_bank_after n self self' :
  seated self → turn (bank_after n self) = Some self' → self' = bank_after (S n) self.
Proof.
  intros Hi (rot & sp & Hrot & Hsp & ->)%turn_Some.
  rewrite selected_bank_after in * by done.
  set (r := (__cur_rotor_idx self + n + 1) mod length (__key self)) in *.
  simpl in *. unfold bank_after. f_equal.
  - apply list_eq. intros j. rewrite !list_lookup_imap, uses_S. fold r.
    pose proof (lookup_lt_Some _ _ _ Hrot) as Hr.
    rewrite list_lookup_imap in Hrot. destruct (decide (j = r)) as [->|Hj].
    + rewrite list_lookup_insert_eq by done. rewrite decide_True by done.
      destruct (__key self !! r) as [rot0|]; simplify_eq/=.
      rewrite rotate_add, (list_lookup_total_correct _ _ _ Hsp). do 2 f_equal. lia.
    + rewrite list_lookup_insert_ne, list_lookup_imap by done.
      rewrite decide_False by done. by rewrite Nat.add_0_r.
  - unfold r. f_equal. lia.
Qed.

(** A run of [n] characters ends in the closed form for [n]. *)
Lemma run_bank_after f msg self out self' :
  seated self → run f msg self = Some (out, self') → self' = bank_after (length msg) self.
Proof.
  intros Hi. revert out self'. induction msg as [|c msg IH] using rev_ind; intros out self'.
  - intros [= _ <-]. by rewrite bank_after_0.
  - unfold run. rewrite run_opt_app, length_app, Nat.add_1_r. simpl.
    intros ([out1 s1] & ->%IH & ([ys s2] & Hc & [= _ <-])%bind_Some)%bind_Some.
    destruct (step f c _) as [[x s3]|] eqn:Hs; simplify_eq/=.
    apply step_turn in Hs. by apply turn_bank_after.
Qed.

(** The output at position [n] went through the rotor that position
    selects, turned by its speed once per earlier use. *)
Lemma run_position f msg self out self' n c :
  seated self → run f msg self = Some (out, self') → msg !! n = Some c →
  let r := (__cur_rotor_idx self + n + 1) mod length (__key self) in
  ∃ rot x, __key self !! r = Some rot ∧ out !! n = Some x ∧
    f (rotate (Z.to_nat (__speeds self !!! r) * uses self n r) rot) c = Some x.
Proof.
  intros Hi Hrun Hn.
  destruct (run_opt_lookup _ _ _ _ _ _ _ Hrun Hn) as (ct1 & s1 & x & s2 & H1 & Hc & Hx).
  apply (run_bank_after _ _ _ _ _ Hi) in H1. rewrite length_take_le in H1
    by (apply lookup_lt_Some in Hn; lia). subst s1.
  unfold step in Hc. rewrite selected_bank_after in Hc by done. intros r.
  simpl in Hc. rewrite list_lookup_imap in Hc. fold r in Hc |- *.
  destruct (__key self !! _) as [rot|]; simpl in Hc; [|done].
  apply bind_Some in Hc as (y & Hy & (s3 & _ & [= -> _])%bind_Some).
  by exists rot, x.
Qed.

(** The uses of a rotor depend on the cursor and the number of rotors
    only. *)
Lemma uses_ext self1 self2 n r :
  __cur_rotor_idx self1 = __cur_rotor_idx self2 →
  length (__key self1) = length (__key self2) →
  uses self1 n r = uses self2 n r.
Proof. unfold uses. by intros -> ->. Qed.
End closed_form.

(** C10: after [encrypt] returned, a device that started with its cursor on
    a rotor is in the closed form for the number of characters of the
    normalized plaintext: every rotor is turned by its own speed once per
    character that selected it, and the cursor is that many rotors
    further, cyclically. *)
Theorem encrypt_bank_after plaintext self ct self' :
  seated self → encrypt plaintext self = Ok ct self' →
  self' = bank_after (length (normalize plaintext)) self.
Proof.
  intros Hi. rewrite multi_encrypt_unfold, for_each_encrypt_run. by apply run_bank_after.
Qed.

Lemma encrypt_bank_after_witness :
  state_of (encrypt (str "attack at dawn")
              (MultiRotorDemo.alice MultiRotorDemo.sample_rotations)) =
    bank_after 14 (MultiRotorDemo.alice MultiRotorDemo.sample_rotations).
Proof.
  apply (encrypt_bank_after (str "attack at dawn")
           (MultiRotorDemo.alice MultiRotorDemo.sample_rotations)
           (str "I8D3ALIUF8FE6A")).
  - vm_compute; lia.
  - by vm_compute.
Defined.

(** C11: selection cycle: while [encrypt] works through a message, the
    cursor after the first [n] characters is [n] rotors past where it
    started, cyclically, whatever the speeds are; from a fresh device the
    cursors are 1, 2, ..., m-1, 0, 1, ... *)
Theorem selection_cycle plaintext self ct self' m1 m2 :
  seated self → encrypt plaintext self = Ok ct self' → normalize plaintext = m1 ++ m2 →
  ∃ ct1 s1, for_each encrypt_char m1 self = Ok ct1 s1 ∧
    __cur_rotor_idx s1 = (__cur_rotor_idx self + length m1) mod length (__key self).
Proof.
  intros Hi. rewrite multi_encrypt_unfold, for_each_encrypt_run. intros Hrun Hm.
  unfold run in Hrun. rewrite Hm, run_opt_app in Hrun.
  apply bind_Some in Hrun as ([ct1 s1] & H1 & _). exists ct1, s1.
  split; [by apply for_each_encrypt_run|]. by rewrite (run_bank_after _ _ _ _ _ Hi H1).
Qed.

Lemma selection_cycle_witness :
  ∃ ct1 s1,
    for_each encrypt_char (str "ATTACK A")
      (MultiRotorDemo.alice MultiRotorDemo.sample_rotations) = Ok ct1 s1 ∧
    __cur_rotor_idx s1 = (0 + 8) mod 6.
Proof.
  apply (selection_cycle (str "attack at dawn")
           (MultiRotorDemo.alice MultiRotorDemo.sample_rotations)
           (str "I8D3ALIUF8FE6A")
           (state_of (encrypt (str "attack at dawn")
              (MultiRotorDemo.alice MultiRotorDemo.sample_rotations)))
           (str "ATTACK A") (str "T DAWN")).
  - vm_compute; lia.
  - by vm_compute.
  - by vm_compute.
Defined.

(** C25: a character turns the selected rotor only: when the loop body of
    [encrypt] returns, the cursor is on the selected rotor, the speeds
    and the number of rotors are as before, and every other rotor is
    untouched. *)
Theorem encrypt_char_frame char self x self' :
  encrypt_char char self = Ok x self' →
  __cur_rotor_idx self' = selected self ∧ __speeds self' = __speeds self ∧
  length (__key self') = length (__key self) ∧
  ∀ r, r ≠ selected self → __key self' !! r = __key self !! r.
Proof.
  intros (rot & sp & _ & _ & ->)%multi_encrypt_char_Ok%step_turn%turn_Some. simpl.
  split_and!; [done..|by rewrite length_insert|].
  intros r Hr. by rewrite list_lookup_insert_ne.
Qed.

Lemma encrypt_char_frame_witness :
  let self := MultiRotorDemo.alice MultiRotorDemo.sample_rotations in
  let self' := state_of (encrypt_char "A"%char self) in
  __cur_rotor_idx self' = selected self ∧ __speeds self' = __speeds self ∧
  length (__key self') = length (__key self) ∧
  ∀ r, r ≠ selected self → __key self' !! r = __key self !! r.
Proof.
  apply (encrypt_char_frame "A"%char (MultiRotorDemo.alice MultiRotorDemo.sample_rotations)
           "I"%char). by vm_compute.
Defined.

(** C16: the symbol at position [n] of the ciphertext comes from the rotor
    [r] that position selects, [n + 1] rotors past the starting cursor:
    it is that rotor's original symbol at index [(speed * uses + i) mod N],
    with [i] the alphabet index of the character, [uses] the number of
    earlier positions that selected [r], and [N] the rotor's length. *)
Theorem multi_encrypt_position plaintext self ct self' n c :
  seated self → encrypt plaintext self = Ok ct self' → normalize plaintext !! n = Some c →
  let r := (__cur_rotor_idx self + n + 1) mod length (__key self) in
  ∃ i rot x, list_index alphabet c = inr i ∧ __key self !! r = Some rot ∧
    ct !! n = Some x ∧
    rot !! ((Z.to_nat (__speeds self !!! r) * uses self n r + i) mod length rot) = Some x.
Proof.
  intros Hi. rewrite multi_encrypt_unfold, for_each_encrypt_run. intros Hrun Hn r.
  destruct (run_position _ _ _ _ _ _ _ Hi Hrun Hn) as (rot & x & Hrot & Hx & Hy).
  fold r in Hrot, Hy. unfold subst in Hy.
  destruct (list_index alphabet c) as [|i]; [done|].
  exists i, rot, x. split_and!; [done..|].
  rewrite <-lookup_rotate; [done|]. apply lookup_lt_Some in Hy. by rewrite length_rotate in Hy.
Qed.

Lemma multi_encrypt_position_witness :
  let self := MultiRotorDemo.alice MultiRotorDemo.sample_rotations in
  let r := (__cur_rotor_idx self + 7 + 1) mod length (__key self) in
  ∃ i rot x, list_index alphabet "A"%char = inr i ∧ __key self !! r = Some rot ∧
    str "I8D3ALIUF8FE6A" !! 7 = Some x ∧
    rot !! ((Z.to_nat (__speeds self !!! r) * uses self 7 r + i) mod length rot) = Some x.
Proof.
  apply (multi_encrypt_position (str "attack at dawn")
           (MultiRotorDemo.alice MultiRotorDemo.sample_rotations)
           (str "I8D3ALIUF8FE6A")
           (state_of (encrypt (str "attack at dawn")
              (MultiRotorDemo.alice MultiRotorDemo.sample_rotations)))
           7 "A"%char).
  - vm_compute; lia.
  - by vm_compute.
  - by vm_compute.
Defined.

(** ** Exceptions *)

(** C23: [encrypt] raises exactly when the characters before some
    character [c] of the normalized plaintext went through the bank and
    [c] finds the bank in one of three conditions: [c] is not in the
    alphabet ([ValueError], state as the prefix left it); [c] is in the
    alphabet and there is no rotor ([ZeroDivisionError] from the modulo of
    [__next_rotor], state unchanged); or [c] is in the alphabet and the
    selected rotor has no symbol at the index of [c] or has no speed
    ([IndexError], and then the cursor has already moved to the selected
    rotor while no rotor has turned). *)
Theorem multi_encrypt_raises plaintext self e self' :
  encrypt plaintext self = Raise e self' ↔
  ∃ m1 c m2 ct1 s1,
    normalize plaintext = m1 ++ c :: m2 ∧ run subst m1 self = Some (ct1, s1) ∧
    ((e = ValueError ∧ (c ∉ alphabet) ∧ self' = s1) ∨
     (e = ZeroDivisionError ∧ c ∈ alphabet ∧ __key s1 = [] ∧ self' = s1) ∨
     (e = IndexError ∧ c ∈ alphabet ∧ __key s1 ≠ [] ∧
      self' = at_rotor (selected s1) s1 ∧
      ∃ rot, __key s1 !! selected s1 = Some rot ∧
             (subst rot c = None ∨ __speeds s1 !! selected s1 = None))).
Proof.
  rewrite multi_encrypt_unfold, for_each_Raise_iff.
  setoid_rewrite for_each_encrypt_run. by setoid_rewrite encrypt_char_Raise_fault.
Qed.

Lemma multi_encrypt_raises_witness :
  encrypt (str "caf" ++ ["233"%char]) (MultiRotorDemo.alice MultiRotorDemo.sample_rotations) =
    Raise ValueError (bank_after 3 (MultiRotorDemo.alice MultiRotorDemo.sample_rotations)).
Proof.
  apply (multi_encrypt_raises (str "caf" ++ ["233"%char])
           (MultiRotorDemo.alice MultiRotorDemo.sample_rotations)).
  eexists (str "CAF"), "201"%char, [], _, _.
  split; [by vm_compute|]. split; [by vm_compute|]. left. split_and!; [done| |by vm_compute].
  by apply (bool_decide_unpack _); vm_compute.
Defined.

(** C24: [decrypt] raises exactly when the characters before some
    character [x] of the ciphertext went through the bank and either
    there is no rotor ([ZeroDivisionError], state unchanged), or the
    cursor has moved to the selected rotor and that rotor does not hold
    [x] ([ValueError]), or holds it past the alphabet's length or has no
    speed ([IndexError]); no rotor has turned for the failing
    character. *)
Theorem multi_decrypt_raises ciphertext self e self' :
  decrypt ciphertext self = Raise e self' ↔
  ∃ c1 x c2 msg1 s1,
    ciphertext = c1 ++ x :: c2 ∧ run unsubst c1 self = Some (msg1, s1) ∧
    ((e = ZeroDivisionError ∧ __key s1 = [] ∧ self' = s1) ∨
     ((e = ValueError ∨ e = IndexError) ∧ __key s1 ≠ [] ∧
      self' = at_rotor (selected s1) s1 ∧
      ∃ rot, __key s1 !! selected s1 = Some rot ∧
             (e = ValueError ∧ (x ∉ rot) ∨
              e = IndexError ∧ x ∈ rot ∧
                (unsubst rot x = None ∨ __speeds s1 !! selected s1 = None)))).
Proof.
  rewrite multi_decrypt_unfold, for_each_Raise_iff.
  setoid_rewrite for_each_decrypt_run. by setoid_rewrite decrypt_char_Raise_fault.
Qed.

Lemma multi_decrypt_raises_witness :
  decrypt (str "I8-") (MultiRotorDemo.alice MultiRotorDemo.sample_rotations) =
    Raise ValueError
      (at_rotor 3 (bank_after 2 (MultiRotorDemo.alice MultiRotorDemo.sample_rotations))).
Proof.
  apply (multi_decrypt_raises (str "I8-")
           (MultiRotorDemo.alice MultiRotorDemo.sample_rotations)).
  eexists (str "I8"), "-"%char, [], _, _.
  split; [by vm_compute|]. split; [by vm_compute|]. right.
  split_and!; [by left|done|by vm_compute|].
  eexists. split; [by vm_compute|]. left. split; [done|].
  by apply (bool_decide_unpack _); vm_compute.
Defined.

(** [encrypt] raises exactly when the transition function of the bank
    is undefined somewhere along the normalized plaintext: [run] and
    [encrypt] agree on failure as well as on success. *)
Theorem multi_encrypt_raises_iff plaintext self :
  (∃ e self', encrypt plaintext self = Raise e self') ↔
  run subst (normalize plaintext) self = None.
Proof.
  rewrite multi_encrypt_unfold.
  destruct (for_each encrypt_char (normalize plaintext) self) as [ct s|e s] eqn:Hrun.
  - apply for_each_encrypt_run in Hrun. rewrite Hrun. naive_solver.
  - split; [intros _|by eauto].
    destruct (run subst (normalize plaintext) self) as [[ct s1]|] eqn:Hr; [|done].
    apply for_each_encrypt_run in Hr. congruence.
Qed.

(** C36: construction accepts a key without rotors, and the first character
    then fails in [__next_rotor] with [ZeroDivisionError]: there is no
    configuration error, and the device is left as constructed. *)
Theorem empty_key_raises rotation_speeds plaintext c msg :
  normalize plaintext = c :: msg → c ∈ alphabet →
  encrypt plaintext (__init__ [] rotation_speeds) =
    Raise ZeroDivisionError (__init__ [] rotation_speeds).
Proof.
  intros Hm (i & Hi & _)%alphabet_index. rewrite multi_encrypt_unfold, Hm. simpl.
  unfold bind. by rewrite encrypt_char_run, Hi.
Qed.

Lemma empty_key_raises_witness :
  encrypt (str "at dawn") (__init__ [] [3; 1]%Z) =
    Raise ZeroDivisionError (__init__ [] [3; 1]%Z).
Proof.
  apply (empty_key_raises [3; 1]%Z (str "at dawn") "A"%char (str "T DAWN")).
  - by vm_compute.
  - by apply (bool_decide_unpack _); vm_compute.
Defined.

(** C37: construction accepts fewer speeds than rotors; the character that
    selects a rotor without a speed is substituted and then lost, as
    [__rotate] raises [IndexError]: the cursor has moved to that rotor and
    no rotor has turned. *)
Theorem missing_speed_raises char self rot x :
  __key self !! selected self = Some rot → subst rot char = Some x →
  __speeds self !! selected self = None →
  encrypt_char char self = Raise IndexError (at_rotor (selected self) self).
Proof.
  intros Hrot Hx Hsp. rewrite encrypt_char_run. unfold subst in Hx.
  destruct (list_index alphabet char) as [|i]; [done|]. rewrite Hrot, Hx.
  unfold finish, turn. simpl. by rewrite Hrot, Hsp.
Qed.

Lemma missing_speed_raises_witness :
  encrypt_char "A"%char (__init__ [alphabet; alphabet] [1%Z]) =
    Raise IndexError (Build [alphabet; alphabet] [1%Z] 1).
Proof.
  apply (missing_speed_raises "A"%char (__init__ [alphabet; alphabet] [1%Z])
           alphabet "A"%char); by vm_compute.
Defined.

(** ** Rotors that are permutations of the alphabet *)

Section permutations.
Implicit Types (self : t) (c x : ascii) (msg ct : list ascii).

Lemma permuted_equipped self : permuted self → usable self ∧ equipped self.
Proof.
  intros (Hne & Hsp & Hperm). unfold usable, equipped. split_and!; [|done..|].
  - eapply Forall_impl; [done|]. intros rot ->. apply NoDup_alphabet.
  - eapply Forall_impl; [done|]. by intros rot ->.
Qed.

Lemma valid_config_permuted key speeds :
  valid_config key speeds → permuted (__init__ key speeds).
Proof. intros (Hne & Hsp & Hperm). unfold permuted. simpl. split_and!; [done|lia|done]. Qed.

Lemma turn_permuted self self' : turn self = Some self' → permuted self → permuted self'.
Proof.
  intros (rot & sp & Hrot & _ & ->)%turn_Some (Hne & Hsp & Hperm). unfold permuted. simpl.
  split_and!.
  - intros Hk%(f_equal length). rewrite length_insert in Hk. by destruct (__key self).
  - by rewrite length_insert.
  - apply Forall_insert; [done|]. rewrite rotate_Permutation.
    by apply (Forall_lookup_1 _ _ _ _ Hperm Hrot).
Qed.

(** On permutation rotors both substitutions are total on the alphabet
    and stay within it. *)
Lemma step_permuted f c self :
  (∀ rot, rot ≡ₚ alphabet → c ∈ alphabet → ∃ x, f rot c = Some x ∧ x ∈ alphabet) →
  permuted self → c ∈ alphabet →
  ∃ x self', step f c self = Some (x, self') ∧ x ∈ alphabet ∧ permuted self'.
Proof.
  intros Hf Hself Hc. pose proof Hself as (Hne & Hsp & Hperm).
  pose proof (selected_lt self Hne) as Hlt.
  destruct (lookup_lt_is_Some_2 (__key self) _ Hlt) as [rot Hrot].
  destruct (lookup_lt_is_Some_2 (__speeds self) (selected self)) as [sp Hsp']; [lia|].
  destruct (Hf rot) as (x & Hx & Hxa); [by apply (Forall_lookup_1 _ _ _ _ Hperm Hrot)|done|].
  destruct (turn self) as [self'|] eqn:Hturn;
    [|by unfold turn in Hturn; rewrite Hrot, Hsp' in Hturn].
  exists x, self'. unfold step. rewrite Hrot. simpl. rewrite Hx. simpl.
  rewrite Hturn. split_and!; [done..|by eapply turn_permuted].
Qed.

Lemma subst_permuted rot c :
  rot ≡ₚ alphabet → c ∈ alphabet → ∃ x, subst rot c = Some x ∧ x ∈ alphabet.
Proof.
  intros Hrot Hc. destruct (subst_total rot c) as [x Hx]; [by rewrite Hrot|done|].
  exists x. split; [done|]. rewrite <-Hrot. by apply subst_Some_alphabet in Hx as [_ ?].
Qed.

Lemma unsubst_permuted rot x :
  rot ≡ₚ alphabet → x ∈ alphabet → ∃ c, unsubst rot x = Some c ∧ c ∈ alphabet.
Proof.
  intros Hrot Hx. rewrite <-Hrot in Hx.
  destruct (list_index_elem_of _ _ Hx) as [i Hi]. unfold unsubst. rewrite Hi.
  destruct (lookup_lt_is_Some_2 alphabet i) as [c Hc].
  { rewrite <-Hrot. by eapply list_index_lt. }
  exists c. split; [done|]. by eapply list_elem_of_lookup_2.
Qed.

Lemma run_permuted f msg self :
  (∀ rot c, rot ≡ₚ alphabet → c ∈ alphabet → ∃ x, f rot c = Some x ∧ x ∈ alphabet) →
  permuted self → Forall (.∈ alphabet) msg →
  ∃ out self', run f msg self = Some (out, self') ∧
    Forall (.∈ alphabet) out ∧ permuted self'.
Proof.
  intros Hf Hself Hmsg. revert self Hself.
  induction Hmsg as [|c msg Hc _ IH]; intros self Hself.
  - exists [], self. by split_and!.
  - destruct (step_permuted f c self) as (x & s1 & Hx & Hxa & Hs1); [by eauto|done..|].
    destruct (IH s1 Hs1) as (out & self' & Hout & Houta & Hself').
    exists (x :: out), self'. unfold run in *. simpl. rewrite Hx. simpl. rewrite Hout.
    split_and!; [done| |done]. by constructor.
Qed.

(** Encryption and decryption from one state with permutation rotors. *)
Lemma roundtrip_permuted plaintext self :
  permuted self → Forall (λ c, ascii7 c) plaintext →
  ∃ ct self', encrypt plaintext self = Ok ct self' ∧
    decrypt ct self = Ok (normalize plaintext) self' ∧ Forall (.∈ alphabet) ct.
Proof.
  intros Hself Hp%normalize_ascii7.
  destruct (run_permuted subst (normalize plaintext) self)
    as (ct & self' & Hct%for_each_encrypt_run & Hca & _); [apply subst_permuted|done..|].
  exists ct, self'. rewrite multi_encrypt_unfold, multi_decrypt_unfold. split_and!; [done| |done].
  apply permuted_equipped in Hself as [Hus _]. exact (enc_dec_msg _ _ _ _ Hus Hct).
Qed.
End permutations.

(** C32: a device whose rotors are permutations of the alphabet, with a
    speed for every rotor, decrypts every text over the alphabet without
    an exception, whatever key encrypted it: a wrong key is never
    detected, it yields a wrong message over the alphabet. *)
Theorem multi_decrypt_total ciphertext self :
  permuted self → Forall (.∈ alphabet) ciphertext →
  ∃ msg self', decrypt ciphertext self = Ok msg self' ∧
    Forall (.∈ alphabet) msg ∧ permuted self'.
Proof.
  intros Hself Hct.
  destruct (run_permuted unsubst ciphertext self) as (msg & self' & Hrun & ?);
    [apply unsubst_permuted|done..|].
  exists msg, self'. split; [|done]. rewrite multi_decrypt_unfold.
  by apply for_each_decrypt_run.
Qed.

Lemma multi_decrypt_total_witness :
  ∃ msg self',
    decrypt (str "ANY TEXT.") (MultiRotorDemo.alice MultiRotorDemo.sample_rotations) =
      Ok msg self' ∧
    Forall (.∈ alphabet) msg ∧ permuted self'.
Proof.
  apply (multi_decrypt_total (str "ANY TEXT.")
           (MultiRotorDemo.alice MultiRotorDemo.sample_rotations)).
  - by apply (bool_decide_unpack _); vm_compute.
  - by apply (bool_decide_unpack _); vm_compute.
Defined.

(** On such a device the ciphertext of any plaintext of 7-bit
    characters is a text over the alphabet, and the device stays such a
    device. *)
Theorem multi_ciphertext_alphabet plaintext self :
  permuted self → Forall (λ c, ascii7 c) plaintext →
  ∃ ct self', encrypt plaintext self = Ok ct self' ∧
    Forall (.∈ alphabet) ct ∧ permuted self'.
Proof.
  intros Hself Hp%normalize_ascii7.
  destruct (run_permuted subst (normalize plaintext) self) as (ct & self' & Hrun & ?);
    [apply subst_permuted|done..|].
  exists ct, self'. split; [|done]. rewrite multi_encrypt_unfold.
  by apply for_each_encrypt_run.
Qed.

Lemma multi_ciphertext_alphabet_witness :
  ∃ ct self',
    encrypt MultiRotorDemo.p (MultiRotorDemo.alice MultiRotorDemo.sample_rotations) =
      Ok ct self' ∧
    Forall (.∈ alphabet) ct ∧ permuted self'.
Proof.
  apply (multi_ciphertext_alphabet MultiRotorDemo.p
           (MultiRotorDemo.alice MultiRotorDemo.sample_rotations)).
  - by apply (bool_decide_unpack _); vm_compute.
  - by apply (bool_decide_unpack _); vm_compute.
Defined.

(** ** What part of the key a position depends on *)

(** Two runs of a substitution over the same text agree at every position
    whose rotor, and speed unless it is the rotor's first use, the two
    devices agree on. *)
Lemma run_agree f text self1 self2 out1 s1 out2 s2 n :
  seated self1 →
  __cur_rotor_idx self2 = __cur_rotor_idx self1 →
  length (__key self2) = length (__key self1) →
  let r := (__cur_rotor_idx self1 + n + 1) mod length (__key self1) in
  __key self2 !! r = __key self1 !! r →
  uses self1 n r = 0 ∨ __speeds self2 !! r = __speeds self1 !! r →
  run f text self1 = Some (out1, s1) → run f text self2 = Some (out2, s2) →
  out2 !! n = out1 !! n.
Proof.
  intros Hi Hc Hlen r Hrot Hsp H1 H2. destruct (text !! n) as [x|] eqn:Hn.
  - destruct (run_position _ _ _ _ _ _ _ Hi H1 Hn) as (rot1 & c1 & Hr1 & -> & Hc1).
    assert (seated self2) as Hi2 by (unfold seated in *; congruence).
    destruct (run_position _ _ _ _ _ _ _ Hi2 H2 Hn) as (rot2 & c2 & Hr2 & -> & Hc2).
    rewrite Hc, Hlen in Hr2, Hc2. fold r in Hr1, Hc1, Hr2, Hc2.
    rewrite (uses_ext self2 self1) in Hc2 by done.
    assert (rot2 = rot1) as -> by congruence. rewrite <-Hc1, <-Hc2.
    destruct Hsp as [->|Hsp]; [by rewrite !Nat.mul_0_r|].
    by rewrite !list_lookup_total_alt, Hsp.
  - apply run_opt_length in H1, H2. apply lookup_ge_None in Hn.
    by rewrite !lookup_ge_None_2 by lia.
Qed.

(** C31: the character [decrypt] returns at position [n] depends only on
    the rotor [r] that position selects and, unless this is the first use
    of [r], on the speed of [r]: two devices with the same number of
    rotors and the same cursor that agree on this rotor (and speed)
    return the same character at [n], however the rest of their keys and
    speeds differ. *)
Theorem decrypt_agree ciphertext self1 self2 msg1 s1 msg2 s2 n :
  seated self1 →
  __cur_rotor_idx self2 = __cur_rotor_idx self1 →
  length (__key self2) = length (__key self1) →
  let r := (__cur_rotor_idx self1 + n + 1) mod length (__key self1) in
  __key self2 !! r = __key self1 !! r →
  uses self1 n r = 0 ∨ __speeds self2 !! r = __speeds self1 !! r →
  decrypt ciphertext self1 = Ok msg1 s1 → decrypt ciphertext self2 = Ok msg2 s2 →
  msg2 !! n = msg1 !! n.
Proof.
  intros Hi Hc Hlen r Hrot Hsp. rewrite !multi_decrypt_unfold, !for_each_decrypt_run.
  by apply run_agree.
Qed.

Lemma decrypt_agree_witness : str "ATTACK AT GAWN" !! 4 = str "ATTACK AT DAWN" !! 4.
Proof.
  apply (decrypt_agree (str "I8D3ALIUF8FE6A")
           (MultiRotorDemo.alice MultiRotorDemo.sample_rotations)
           (MultiRotorDemo.eve_6_rotors_5_speeds MultiRotorDemo.sample_rotations)
           (str "ATTACK AT DAWN")
           (state_of (decrypt (str "I8D3ALIUF8FE6A")
              (MultiRotorDemo.alice MultiRotorDemo.sample_rotations)))
           (str "ATTACK AT GAWN")
           (state_of (decrypt (str "I8D3ALIUF8FE6A")
              (MultiRotorDemo.eve_6_rotors_5_speeds MultiRotorDemo.sample_rotations)))
           4).
  - vm_compute; lia.
  - done.
  - done.
  - done.
  - by left.
  - by vm_compute.
  - by vm_compute.
Defined.
