(* ===== verification/Tracing.v ===== *)
(** * Tracing: the multi-rotor device with its diagnostic output

    [MultiRotorDevice] has a flag [__tracing], [False] until
    [enable_tracing] is called, and under [if self.__tracing] it prints
    what it does.  Module [Traced] is the class with the flag and the
    prints: its state is the three attributes of [MultiRotor], the flag,
    and the characters written to standard output so far; each method is
    the method of the source line by line.

    The theorems relate it to [MultiRotor]: every method of [Traced] returns
    what the method of [MultiRotorDevice] returns on the same attributes,
    raises when it raises, leaves the same attributes and the same flag,
    and only appends to the output; with the flag off it appends nothing.
    What is proved of [MultiRotorDevice] therefore holds of the class
    whether tracing is on or off.

    The relation [sim_out mt m w] carries the text as well: [mt] does
    what [m] does and, with the flag on, appends [w] of the attributes it
    started from.  Its rules compose the text of a method from the texts
    of its statements ([seq_out], [fold_out]); the text of [encrypt] and
    of [decrypt] on a run that returns is then computed once and for all
    ([encrypt_text], [decrypt_text]): the banner, and for each character
    what the loop body and [__rotate] print, as a function of the rotor
    bank at that character. *)

From stdpp Require Import base tactics option list numbers strings pretty.
From Stdlib Require Import Ascii ZArith Lia.
From S2P Require Import Prelude.
From S2P Require Import Rotor.
From S2P Require Import PyList.
From S2P Require Import Alphabet.
From S2P Require Import Normalizer.
From S2P Require Import Device.
From S2P Require Import MultiRotor.

Module Traced.

(** The attributes of an object, and what it has printed. *)
Record t : Type := Build {
  __key : list (list ascii);
  __speeds : list Z;
  __cur_rotor_idx : nat;
  __tracing : bool;
  stdout : list ascii;
}.

Definition __alphabet : list ascii := alphabet.

Definition key_ : lens t (list (list ascii)) :=
  Lens __key (λ k self,
    Build k (__speeds self) (__cur_rotor_idx self) (__tracing self) (stdout self)).

Definition speeds_ : lens t (list Z) :=
  Lens __speeds (λ v self,
    Build (__key self) v (__cur_rotor_idx self) (__tracing self) (stdout self)).

Definition rotor_ (r : nat) : lens t (list ascii) :=
  Lens (λ self, __key self !!! r)
       (λ l self, Build (<[r:=l]> (__key self)) (__speeds self) (__cur_rotor_idx self)
                        (__tracing self) (stdout self)).

Definition set_cur_rotor_idx (idx : nat) : M t unit :=
  modify (λ self,
    Build (__key self) (__speeds self) idx (__tracing self) (stdout self)).

(** [print(a, b, ...)]: the arguments separated by a space, then a
    newline. *)
Definition newline : ascii := "010"%char.

Fixpoint joined (args : list (list ascii)) : list ascii :=
  match args with
  | [] => []
  | [a] => a
  | a :: rest => a ++ " "%char :: joined rest
  end.

Definition print (args : list (list ascii)) : M t unit :=
  modify (λ self,
    Build (__key self) (__speeds self) (__cur_rotor_idx self) (__tracing self)
          (stdout self ++ joined args ++ [newline])).

(** [if self.__tracing: stmt] *)
Definition if_tracing (stmt : M t unit) : M t unit :=
  tracing <- gets __tracing ;;
  if tracing : bool then stmt else ret tt.

(** ['*'*10] and the like. *)
Definition times (c : ascii) (n : nat) : list ascii := replicate n c.

(** [enable_tracing] *)
Definition enable_tracing : M t unit :=
  modify (λ self,
    Build (__key self) (__speeds self) (__cur_rotor_idx self) true (stdout self)).

(** [__show_rotors] *)
Definition __show_rotors : M t unit :=
  print [times "*" 10; str "rotors"; times "*" 10] ;;
  key <- gets __key ;;
  for_each (λ rotor, print [rotor]) key ;;
  print [times "*" 10; str "/rotors"; times "*" 10].

(** [__init__]: the object starts with the class attributes
    [__cur_rotor_idx = 0] and [__tracing = False], so the [if] of line 24
    prints nothing. *)
Definition __init__ (key : list (list ascii)) (rotation_speeds : list Z) : t :=
  state_of (if_tracing __show_rotors (Build key rotation_speeds 0 false [])).

Definition __current_rotor : M t nat :=
  idx <- gets __cur_rotor_idx ;;
  getitem key_ idx ;;
  ret idx.

Definition __next_rotor : M t nat :=
  idx <- gets __cur_rotor_idx ;;
  len <- gets (λ self, length (__key self)) ;;
  idx' <- lift (py_mod (idx + 1) len) ;;
  set_cur_rotor_idx idx' ;;
  __current_rotor.

Definition __rotate : M t unit :=
  if_tracing (print [times "-" 10; str "rotate...."]) ;;
  rotor <- __current_rotor ;;
  idx <- gets __cur_rotor_idx ;;
  speed <- getitem speeds_ idx ;;
  if_tracing (r <- gets (view (rotor_ rotor)) ;;
              print [str "rotating rotor by " ++ str (pretty speed) ++ str ":   "; r]) ;;
  for_range speed (λ i, pop_append (rotor_ rotor)) ;;
  if_tracing __show_rotors.

(** The body of [encrypt]'s loop, from the ciphertext so far to the
    ciphertext with one more symbol. *)
Definition encrypt_char (ciphertext : list ascii) (char : ascii) : M t (list ascii) :=
  if_tracing (print [times "-" 10; str "char -> " ++ [char]]) ;;
  i <- lift (list_index __alphabet char) ;;
  rotor <- __next_rotor ;;
  if_tracing (r <- gets (view (rotor_ rotor)) ;; print [str "rotor:"; r]) ;;
  x <- getitem (rotor_ rotor) i ;;
  let ciphertext := ciphertext ++ [x] in
  if_tracing (print [str "ciphertext:"; ciphertext]) ;;
  __rotate ;;
  ret ciphertext.

Definition encrypt (plaintext : list ascii) : M t (list ascii) :=
  let msg := normalize plaintext in
  if_tracing (print [[newline; newline]; times "=" 10; str "encrypting..."]) ;;
  let ciphertext := [] in
  for_fold encrypt_char msg ciphertext.

(** The body of [decrypt]'s loop. *)
Definition decrypt_char (msg : list ascii) (char : ascii) : M t (list ascii) :=
  rotor <- __next_rotor ;;
  if_tracing (r <- gets (view (rotor_ rotor)) ;; print [str "rotor:"; r]) ;;
  i <- index (rotor_ rotor) char ;;
  if_tracing (print [str "char at rotor position"; str (pretty i)]) ;;
  x <- lift (list_getitem __alphabet i) ;;
  let msg := msg ++ [x] in
  __rotate ;;
  ret msg.

Definition decrypt (ciphertext : list ascii) : M t (list ascii) :=
  if_tracing (print [[newline; newline]; times "=" 10; str "decrypting..."]) ;;
  let msg := [] in
  for_fold decrypt_char ciphertext msg.

(** Lines of output. *)
Definition lines (ls : list (list ascii)) : list ascii := ls ≫= λ l, l ++ [newline].

(** ** What tracing writes

    The text each method writes when tracing is on, as a function of the
    rotors it works on. *)

(** [__show_rotors] on the key [key]. *)
Definition rotors_text (key : list (list ascii)) : list ascii :=
  lines ([joined [times "*" 10; str "rotors"; times "*" 10]] ++ key ++
         [joined [times "*" 10; str "/rotors"; times "*" 10]]).

(** [__rotate] turning the rotor [rot] by [speed]; [key'] is the key
    afterwards. *)
Definition rotate_text (rot : list ascii) (speed : Z) (key' : list (list ascii))
    : list ascii :=
  lines [joined [times "-" 10; str "rotate...."];
         joined [str "rotating rotor by " ++ str (pretty speed) ++ str ":   "; rot]] ++
  rotors_text key'.

(** The body of [encrypt]'s loop before it rotates: the character, the
    selected rotor, the ciphertext with the new symbol. *)
Definition encrypt_char_text (char : ascii) (rot ciphertext : list ascii) : list ascii :=
  lines [joined [times "-" 10; str "char -> " ++ [char]];
         joined [str "rotor:"; rot];
         joined [str "ciphertext:"; ciphertext]].

(** [encrypt]'s loop over [msg] from the bank [s], [ciphertext] being the
    text so far. *)
Fixpoint encrypt_text (msg ciphertext : list ascii) (s : MultiRotorDevice.t)
    : list ascii :=
  match msg with
  | [] => []
  | char :: msg' =>
      let r := MultiRotorDevice.selected s in
      let rot := MultiRotorDevice.__key s !!! r in
      match MultiRotorDevice.step subst char s with
      | Some (x, s') =>
          encrypt_char_text char rot (ciphertext ++ [x]) ++
          rotate_text rot (MultiRotorDevice.__speeds s !!! r) (MultiRotorDevice.__key s') ++
          encrypt_text msg' (ciphertext ++ [x]) s'
      | None => []
      end
  end.

(** The body of [decrypt]'s loop before it rotates: the selected rotor
    and the position of the character in it. *)
Definition decrypt_char_text (rot : list ascii) (i : nat) : list ascii :=
  lines [joined [str "rotor:"; rot];
         joined [str "char at rotor position"; str (pretty i)]].

Fixpoint decrypt_text (ciphertext : list ascii) (s : MultiRotorDevice.t) : list ascii :=
  match ciphertext with
  | [] => []
  | char :: ciphertext' =>
      let r := MultiRotorDevice.selected s in
      let rot := MultiRotorDevice.__key s !!! r in
      match list_index rot char, MultiRotorDevice.step unsubst char s with
      | inr i, Some (x, s') =>
          decrypt_char_text rot i ++
          rotate_text rot (MultiRotorDevice.__speeds s !!! r) (MultiRotorDevice.__key s') ++
          decrypt_text ciphertext' s'
      | _, _ => []
      end
  end.

(** The line [encrypt] and [decrypt] start with. *)
Definition banner (what : list ascii) : list ascii :=
  lines [joined [[newline; newline]; times "=" 10; what]].

(** ** The relation to [MultiRotorDevice] *)

(** The attributes without the flag and the output. *)
Definition dev (self : t) : MultiRotorDevice.t :=
  MultiRotorDevice.Build (__key self) (__speeds self) (__cur_rotor_idx self).

(** A result of [MultiRotorDevice] as a result of the traced object
    [self] that has printed [out] on the way. *)
Definition traced {A} (self : t) (out : list ascii) (r : res MultiRotorDevice.t A)
    : res t A :=
  let wrap s :=
    Build (MultiRotorDevice.__key s) (MultiRotorDevice.__speeds s)
          (MultiRotorDevice.__cur_rotor_idx s) (__tracing self) (stdout self ++ out) in
  match r with
  | Ok a s => Ok a (wrap s)
  | Raise e s => Raise e (wrap s)
  end.

(** [mt] does what [m] does, and prints; with the flag off it prints
    nothing. *)
Definition sim {A} (mt : M t A) (m : M MultiRotorDevice.t A) : Prop :=
  ∀ self, ∃ out, mt self = traced self out (m (dev self)) ∧
                 (__tracing self = false → out = []).

(** [mt] does what [m] does and prints nothing. *)
Definition silent {A} (mt : M t A) (m : M MultiRotorDevice.t A) : Prop :=
  ∀ self, mt self = traced self [] (m (dev self)).

(** [stmt] only prints, and what it prints is [w] of the attributes. *)
Definition writes (stmt : M t unit) (w : MultiRotorDevice.t → list ascii) : Prop :=
  ∀ self, stmt self = traced self (w (dev self)) (Ok tt (dev self)).

(** [mt] does what [m] does, and with the flag on it prints [w] of the
    attributes it started with. *)
Definition sim_out {A} (mt : M t A) (m : M MultiRotorDevice.t A)
    (w : MultiRotorDevice.t → list ascii) : Prop :=
  ∀ self, mt self =
          traced self (if __tracing self then w (dev self) else []) (m (dev self)).

(** What a sequence prints: what its first statement prints, then what
    the rest prints from the state the first statement leaves. *)
Definition seq_out {A} (m : M MultiRotorDevice.t A)
    (w1 : MultiRotorDevice.t → list ascii) (w2 : A → MultiRotorDevice.t → list ascii)
    : MultiRotorDevice.t → list ascii :=
  λ s, w1 s ++ match m s with Ok a s' => w2 a s' | Raise _ _ => [] end.

(** What a loop prints. *)
Fixpoint fold_out {A B} (b : B → A → M MultiRotorDevice.t B)
    (wb : B → A → MultiRotorDevice.t → list ascii) (xs : list A) (acc : B)
    : MultiRotorDevice.t → list ascii :=
  match xs with
  | [] => λ _, []
  | x :: xs' => seq_out (b acc x) (wb acc x) (fold_out b wb xs')
  end.

End Traced.

Import Traced.

(** ** Results of the device on the traced object *)

Section results.
Context {A B : Type}.
Implicit Types (self : t) (out : list ascii).

Lemma traced_dev self (a : A) : traced self [] (Ok a (dev self)) = Ok a self.
Proof. destruct self. unfold traced. simpl. by rewrite app_nil_r. Qed.

Lemma traced_dev_raise self e : traced self [] (Raise e (dev self)) = Raise (A:=A) e self.
Proof. destruct self. unfold traced. simpl. by rewrite app_nil_r. Qed.

Lemma traced_traced self out1 out2 (a : A) s (r : res MultiRotorDevice.t B) :
  traced (state_of (traced self out1 (Ok a s))) out2 r = traced self (out1 ++ out2) r.
Proof. unfold traced. simpl. rewrite app_assoc. by destruct r. Qed.

Lemma dev_traced self out (a : A) s : dev (state_of (traced self out (Ok a s))) = s.
Proof. by destruct s. Qed.

Lemma tracing_traced self out (r : res MultiRotorDevice.t A) :
  __tracing (state_of (traced self out r)) = __tracing self.
Proof. by destruct r. Qed.

(** A continuation after a statement that returned. *)
Lemma traced_continue self out1 out2 (a : A) s (kt : M t B) k :
  kt (state_of (traced self out1 (Ok a s))) =
    traced (state_of (traced self out1 (Ok a s))) out2
           (k (dev (state_of (traced self out1 (Ok a s))))) →
  kt (state_of (traced self out1 (Ok a s))) = traced self (out1 ++ out2) (k s).
Proof. by rewrite dev_traced, traced_traced. Qed.
End results.

(** ** Statements that print nothing *)

Section silent_rules.
Context {A B : Type}.
Implicit Types (self : t).

Lemma silent_ret (a : A) : silent (ret a) (ret a).
Proof. intros self. unfold ret. by rewrite traced_dev. Qed.

Lemma silent_lift (r : exn + A) : silent (lift r) (lift r).
Proof. intros self. unfold lift. destruct r; by rewrite ?traced_dev, ?traced_dev_raise. Qed.

Lemma silent_gets (ft : t → A) (f : MultiRotorDevice.t → A) :
  (∀ self, ft self = f (dev self)) → silent (gets ft) (gets f).
Proof. intros Hf self. unfold gets. by rewrite Hf, traced_dev. Qed.

Lemma silent_bind (mt : M t A) m (kt : A → M t B) k :
  silent mt m → (∀ a, silent (kt a) (k a)) → silent (x <- mt ;; kt x) (x <- m ;; k x).
Proof.
  intros Hm Hk self. unfold bind. rewrite Hm.
  destruct (m (dev self)) as [a s|e s]; [|done].
  apply (traced_continue self [] [] a s (kt a) (k a)), Hk.
Qed.
End silent_rules.

(** An attribute of the traced object is the same attribute of the
    device. *)
Class LensSim {T} (Lt : lens t T) (L : lens MultiRotorDevice.t T) : Prop := {
  view_dev self : view Lt self = view L (dev self);
  set_dev self v :
    PyList.set Lt v self = state_of (traced self [] (Ok tt (PyList.set L v (dev self))));
}.

#[export] Instance key_sim : LensSim key_ MultiRotorDevice.key_.
Proof. split; intros; simpl; by rewrite ?app_nil_r. Qed.

#[export] Instance speeds_sim : LensSim speeds_ MultiRotorDevice.speeds_.
Proof. split; intros; simpl; by rewrite ?app_nil_r. Qed.

#[export] Instance rotor_sim r : LensSim (rotor_ r) (MultiRotorDevice.rotor_ r).
Proof. split; intros; simpl; by rewrite ?app_nil_r. Qed.

Section attributes.
Context {T : Type} `{EqDecision T}.
Context (Lt : lens t (list T)) (L : lens MultiRotorDevice.t (list T)) `{!LensSim Lt L}.

Lemma silent_getitem i : silent (getitem Lt i) (getitem L i).
Proof.
  intros self. unfold getitem. rewrite view_dev.
  unfold lift. destruct (list_getitem _ i); by rewrite ?traced_dev, ?traced_dev_raise.
Qed.

Lemma silent_index x : silent (index Lt x) (index L x).
Proof.
  intros self. unfold index. rewrite view_dev.
  unfold lift. destruct (list_index _ x); by rewrite ?traced_dev, ?traced_dev_raise.
Qed.

Lemma silent_pop0 : silent (pop0 Lt) (pop0 L).
Proof.
  intros self. unfold pop0. rewrite view_dev.
  destruct (list_pop0 _) as [e|[x l]]; [by rewrite traced_dev_raise|by rewrite set_dev].
Qed.

Lemma silent_append x : silent (append Lt x) (append L x).
Proof. intros self. unfold append. by rewrite view_dev, set_dev. Qed.

Lemma silent_pop_append : silent (pop_append Lt) (pop_append L).
Proof. apply silent_bind; [apply silent_pop0 | apply silent_append]. Qed.
End attributes.

Section silent_loops.

Lemma silent_for_upto k i (bt : Z → M t unit) b :
  (∀ j, silent (bt j) (b j)) → silent (for_upto k i bt) (for_upto k i b).
Proof.
  intros Hb. revert i. induction k as [|k IH]; intros i; simpl; [apply silent_ret|].
  apply silent_bind; [apply Hb | intros _; apply IH].
Qed.

Lemma silent_for_range n (bt : Z → M t unit) b :
  (∀ j, silent (bt j) (b j)) → silent (for_range n bt) (for_range n b).
Proof. apply silent_for_upto. Qed.

Lemma silent_set_cur_rotor_idx idx :
  silent (set_cur_rotor_idx idx) (MultiRotorDevice.set_cur_rotor_idx idx).
Proof.
  intros self.
  unfold set_cur_rotor_idx, MultiRotorDevice.set_cur_rotor_idx, modify, traced. simpl.
  by rewrite app_nil_r.
Qed.
End silent_loops.

Create HintDb silent discriminated.

(** One step of a proof that a method prints nothing. *)
Ltac silent_step :=
  first [ apply silent_ret | apply silent_lift
        | apply silent_getitem; apply _ | apply silent_index; apply _
        | apply silent_for_range; intros ?; apply silent_pop_append; apply _
        | apply silent_gets; done
        | apply silent_set_cur_rotor_idx
        | solve [auto with silent nocore]
        | apply silent_bind; [|intros ?] ].

Lemma silent_current_rotor : silent __current_rotor MultiRotorDevice.__current_rotor.
Proof. unfold __current_rotor, MultiRotorDevice.__current_rotor. repeat silent_step. Qed.

#[export] Hint Resolve silent_current_rotor : silent.

Lemma silent_next_rotor : silent __next_rotor MultiRotorDevice.__next_rotor.
Proof. unfold __next_rotor, MultiRotorDevice.__next_rotor. repeat silent_step. Qed.

#[export] Hint Resolve silent_next_rotor : silent.

(** ** Statements that only print *)

Section printing.
Implicit Types (self : t) (w : MultiRotorDevice.t → list ascii).

Lemma writes_print args : writes (print args) (λ _, joined args ++ [newline]).
Proof. by intros self. Qed.

Lemma writes_conseq stmt w w' : (∀ s, w s = w' s) → writes stmt w → writes stmt w'.
Proof. intros Hw H self. by rewrite <-Hw. Qed.

Lemma writes_seq stmt1 stmt2 w1 w2 :
  writes stmt1 w1 → writes stmt2 w2 → writes (stmt1 ;; stmt2) (λ s, w1 s ++ w2 s).
Proof.
  intros H1 H2 self. unfold bind. rewrite H1.
  apply (traced_continue self _ _ tt (dev self) stmt2 (λ s, Ok tt s)). rewrite H2.
  by rewrite !dev_traced.
Qed.

Lemma writes_gets {A} (ft : t → A) (f : MultiRotorDevice.t → A) stmt
    (w : A → MultiRotorDevice.t → list ascii) :
  (∀ self, ft self = f (dev self)) → (∀ a, writes (stmt a) (w a)) →
  writes (a <- gets ft ;; stmt a) (λ s, w (f s) s).
Proof. intros Hf H self. unfold bind, gets. by rewrite H, Hf. Qed.

(** [for rotor in key: print(''.join(rotor))] *)
Lemma writes_equiv stmt stmt' w : stmt ≡ stmt' → writes stmt w → writes stmt' w.
Proof. intros He H self. by rewrite <-He. Qed.

Lemma writes_for_each key stmt w :
  writes stmt w →
  writes (for_each (λ rotor, print [rotor]) key ;; stmt) (λ s, lines key ++ w s).
Proof.
  intros Hs. induction key as [|rotor key IH]; [done|].
  eapply writes_equiv; [symmetry; apply for_each_cons_seq|].
  eapply writes_conseq; [|apply writes_seq; [apply writes_print | apply IH]].
  intros s. unfold lines. rewrite bind_cons. simpl. by rewrite <-!app_assoc.
Qed.

Lemma writes_show_rotors :
  writes __show_rotors (λ s, rotors_text (MultiRotorDevice.__key s)).
Proof.
  eapply writes_conseq; [|unfold __show_rotors; apply writes_seq; [apply writes_print|];
    apply (writes_gets __key MultiRotorDevice.__key); [done|]; intros key;
    apply writes_for_each, writes_print].
  intros s. unfold rotors_text, lines. rewrite !bind_app. by simpl.
Qed.
End printing.

(** ** Rules of the simulation *)

Section sim_out_rules.
Context {A B : Type}.
Implicit Types (self : t) (w : MultiRotorDevice.t → list ascii).

Lemma sim_out_silent (mt : M t A) m : silent mt m → sim_out mt m (λ _, []).
Proof. intros H self. rewrite H. by destruct (__tracing self). Qed.

Lemma sim_out_conseq (mt : M t A) m w w' :
  (∀ s, w s = w' s) → sim_out mt m w → sim_out mt m w'.
Proof. intros Hw H self. by rewrite <-Hw. Qed.

Lemma sim_out_equiv (mt : M t A) m m' w : m ≡ m' → sim_out mt m w → sim_out mt m' w.
Proof. intros Hm H self. by rewrite <-Hm. Qed.

Lemma sim_out_bind (mt : M t A) m (kt : A → M t B) k w1
    (wk : A → MultiRotorDevice.t → list ascii) :
  sim_out mt m w1 → (∀ a, sim_out (kt a) (k a) (wk a)) →
  sim_out (x <- mt ;; kt x) (x <- m ;; k x) (seq_out m w1 wk).
Proof.
  intros Hm Hk self. unfold bind, seq_out. rewrite Hm.
  destruct (m (dev self)) as [a s|e s].
  - etrans;
      [apply (traced_continue self _ (if __tracing self then wk a s else []) a s (kt a) (k a));
       by rewrite Hk, tracing_traced, dev_traced|].
    by destruct (__tracing self).
  - destruct (__tracing self); by rewrite ?app_nil_r.
Qed.

(** The traced method prints, or does not print, and otherwise does what
    the device does: the relation of the theorems. *)
Lemma sim_out_sim (mt : M t A) m w : sim_out mt m w → sim mt m.
Proof.
  intros H self. exists (if __tracing self then w (dev self) else []).
  split; [done|]. by intros ->.
Qed.
End sim_out_rules.

Section sim_out_unit_rules.
Context {A : Type}.
Implicit Types (self : t) (stmt : M t unit) (w : MultiRotorDevice.t → list ascii).

(** With the flag off, a statement under [if self.__tracing] does
    nothing. *)
Lemma sim_out_if_tracing stmt w : writes stmt w → sim_out (if_tracing stmt) (ret tt) w.
Proof.
  intros Hw self. unfold if_tracing, bind, gets. destruct (__tracing self) eqn:Hb.
  - apply Hw.
  - by rewrite traced_dev.
Qed.

(** A statement that only prints is skipped. *)
Lemma sim_out_skip stmt (kt : M t A) k w1 w2 :
  sim_out stmt (ret tt) w1 → sim_out kt k w2 → sim_out (stmt ;; kt) k (λ s, w1 s ++ w2 s).
Proof. intros Hm Hk. exact (sim_out_bind stmt (ret tt) (λ _, kt) (λ _, k) _ _ Hm (λ _, Hk)). Qed.

Lemma sim_out_trailing (mt : M t unit) m stmt w1 w2 :
  sim_out mt m w1 → sim_out stmt (ret tt) w2 →
  sim_out (mt ;; stmt) m (seq_out m w1 (λ _, w2)).
Proof.
  intros Hm Hs. eapply sim_out_equiv;
    [|exact (sim_out_bind mt m (λ _, stmt) (λ _, ret tt) _ _ Hm (λ _, Hs))].
  intros s. unfold bind, ret. by destruct (m s) as [[]|].
Qed.

Lemma sim_out_for_fold {C} (bt : A → C → M t A) b
    (wb : A → C → MultiRotorDevice.t → list ascii) xs acc :
  (∀ acc x, sim_out (bt acc x) (b acc x) (wb acc x)) →
  sim_out (for_fold bt xs acc) (for_fold b xs acc) (fold_out b wb xs acc).
Proof.
  intros Hb. revert acc. induction xs as [|x xs IH]; intros acc; simpl.
  - apply sim_out_silent, silent_ret.
  - apply sim_out_bind; [apply Hb | intros acc'; apply IH].
Qed.
End sim_out_unit_rules.

Lemma writes_view {T} (Lt : lens t T) L `{!LensSim Lt L} (stmt : T → M t unit)
    (w : T → MultiRotorDevice.t → list ascii) :
  (∀ a, writes (stmt a) (w a)) →
  writes (a <- gets (view Lt) ;; stmt a) (λ s, w (view L s) s).
Proof. apply writes_gets, view_dev. Qed.

(** One step of a simulation proof: a printing statement is skipped, a
    statement of the device is matched; what is printed is collected. *)
Ltac writes_step :=
  first [ apply writes_print | apply writes_show_rotors
        | eapply writes_view; [apply _|intros ?] | eapply writes_seq ].

Ltac sim_out_printing := solve [eapply sim_out_if_tracing; repeat writes_step].

Ltac sim_out_step :=
  first [ eassumption
        | apply sim_out_silent; solve [silent_step]
        | eapply sim_out_skip; [sim_out_printing|]
        | eapply sim_out_trailing; [|sim_out_printing]
        | eapply sim_out_bind; [|intros ?] ].

(** ** Lines of text *)

Lemma lines_nil : lines [] = [].
Proof. done. Qed.

Lemma lines_cons l ls : lines (l :: ls) = l ++ newline :: lines ls.
Proof. unfold lines. by rewrite bind_cons, <-app_assoc. Qed.

Lemma lines_app ls1 ls2 : lines (ls1 ++ ls2) = lines ls1 ++ lines ls2.
Proof. apply bind_app. Qed.

(** Texts are compared as lists of lines and their pieces. *)
Ltac text_eq :=
  unfold rotate_text, encrypt_char_text, decrypt_char_text;
  rewrite ?lines_app, ?lines_cons, ?lines_nil;
  repeat (progress (rewrite <-?app_assoc, ?app_nil_r; cbn [app])); try done.

(** ** The methods *)

Section methods.
Implicit Types (self : t) (char : ascii) (s : MultiRotorDevice.t).

(** [__rotate], and what it prints when the current rotor and its speed
    exist. *)
Lemma rotate_out :
  ∃ w, sim_out __rotate MultiRotorDevice.__rotate w ∧
    ∀ s rot speed,
      MultiRotorDevice.__key s !! MultiRotorDevice.__cur_rotor_idx s = Some rot →
      rot ≠ [] →
      MultiRotorDevice.__speeds s !! MultiRotorDevice.__cur_rotor_idx s = Some speed →
      w s = rotate_text rot speed
              (<[MultiRotorDevice.__cur_rotor_idx s:=rotate (Z.to_nat speed) rot]>
                 (MultiRotorDevice.__key s)).
Proof.
  eexists. split.
  { unfold __rotate, MultiRotorDevice.__rotate. repeat sim_out_step. }
  intros s rot speed Hrot Hne Hsp. pose proof (lookup_lt_Some _ _ _ Hrot) as Hlt.
  unfold seq_out. rewrite current_rotor_run, decide_True by done.
  unfold gets, getitem, lift, list_getitem. cbn [view MultiRotorDevice.speeds_].
  rewrite Hsp.
  rewrite (for_range_pop_append (MultiRotorDevice.rotor_ _)
             (λ s', MultiRotorDevice.__cur_rotor_idx s < length (MultiRotorDevice.__key s')));
    cbn [view MultiRotorDevice.rotor_];
    [|done|by rewrite (list_lookup_total_correct _ _ _ Hrot)].
  rewrite (list_lookup_total_correct _ _ _ Hrot).
  cbn [PyList.set MultiRotorDevice.rotor_ MultiRotorDevice.__key]. by text_eq.
Qed.

(** The loop bodies of the device, returning the text so far with the
    new symbol. *)
Lemma encrypt_char_acc ciphertext char :
  (x <- MultiRotorDevice.encrypt_char char ;; ret (ciphertext ++ [x])) ≡
  (i <- lift (list_index alphabet char) ;;
   rotor <- MultiRotorDevice.__next_rotor ;;
   x <- getitem (MultiRotorDevice.rotor_ rotor) i ;;
   MultiRotorDevice.__rotate ;;
   ret (ciphertext ++ [x])).
Proof.
  unfold MultiRotorDevice.encrypt_char, MultiRotorDevice.__alphabet.
  rewrite bind_assoc. f_equiv. intros i. rewrite bind_assoc. f_equiv. intros rotor.
  rewrite bind_assoc. f_equiv. intros x. rewrite bind_assoc. f_equiv. intros u.
  by rewrite bind_ret_l.
Qed.

Lemma decrypt_char_acc msg char :
  (x <- MultiRotorDevice.decrypt_char char ;; ret (msg ++ [x])) ≡
  (rotor <- MultiRotorDevice.__next_rotor ;;
   i <- index (MultiRotorDevice.rotor_ rotor) char ;;
   x <- lift (list_getitem alphabet i) ;;
   MultiRotorDevice.__rotate ;;
   ret (msg ++ [x])).
Proof.
  unfold MultiRotorDevice.decrypt_char, MultiRotorDevice.__alphabet.
  rewrite bind_assoc. f_equiv. intros rotor. rewrite bind_assoc. f_equiv. intros i.
  rewrite bind_assoc. f_equiv. intros x. rewrite bind_assoc. f_equiv. intros u.
  by rewrite bind_ret_l.
Qed.

(** The traced body of [encrypt]'s loop returns the text so far with the
    symbol the device's body returns, and writes the character, the
    rotor, the text and what [__rotate] writes. *)
Lemma encrypt_char_out :
  ∃ wb, (∀ ciphertext char,
          sim_out (encrypt_char ciphertext char)
            (x <- MultiRotorDevice.encrypt_char char ;; ret (ciphertext ++ [x]))
            (wb ciphertext char)) ∧
    ∀ ciphertext char s x s',
      MultiRotorDevice.step subst char s = Some (x, s') →
      wb ciphertext char s =
        encrypt_char_text char (MultiRotorDevice.__key s !!! MultiRotorDevice.selected s)
          (ciphertext ++ [x]) ++
        rotate_text (MultiRotorDevice.__key s !!! MultiRotorDevice.selected s)
          (MultiRotorDevice.__speeds s !!! MultiRotorDevice.selected s)
          (MultiRotorDevice.__key s').
Proof.
  destruct rotate_out as (wr & Hr & Hwr). eexists. split.
  { intros ciphertext char. eapply sim_out_equiv; [symmetry; apply encrypt_char_acc|].
    unfold encrypt_char, __alphabet. repeat sim_out_step. }
  intros ciphertext char s x s' (rot & speed & Hrot & Hx & Hsp & ->)%step_Some.
  unfold subst in Hx. destruct (list_index alphabet char) as [|i] eqn:Hi; [done|].
  assert (MultiRotorDevice.__key s ≠ []) as Hk by (by intros Hk; rewrite Hk in Hrot).
  unfold seq_out, lift. rewrite next_rotor_run, decide_False by done.
  unfold getitem, gets, lift, list_getitem.
  cbn [view MultiRotorDevice.rotor_ MultiRotorDevice.at_rotor MultiRotorDevice.__key].
  rewrite (list_lookup_total_correct _ _ _ Hrot), (list_lookup_total_correct _ _ _ Hsp), Hx.
  rewrite (Hwr _ rot speed) by (done || by intros ->).
  destruct (MultiRotorDevice.__rotate _); by text_eq.
Qed.

(** The same for the body of [decrypt]'s loop, which writes the rotor
    and the position of the character in it. *)
Lemma decrypt_char_out :
  ∃ wb, (∀ msg char,
          sim_out (decrypt_char msg char)
            (x <- MultiRotorDevice.decrypt_char char ;; ret (msg ++ [x])) (wb msg char)) ∧
    ∀ msg char s i x s',
      list_index (MultiRotorDevice.__key s !!! MultiRotorDevice.selected s) char = inr i →
      MultiRotorDevice.step unsubst char s = Some (x, s') →
      wb msg char s =
        decrypt_char_text (MultiRotorDevice.__key s !!! MultiRotorDevice.selected s) i ++
        rotate_text (MultiRotorDevice.__key s !!! MultiRotorDevice.selected s)
          (MultiRotorDevice.__speeds s !!! MultiRotorDevice.selected s)
          (MultiRotorDevice.__key s').
Proof.
  destruct rotate_out as (wr & Hr & Hwr). eexists. split.
  { intros msg char. eapply sim_out_equiv; [symmetry; apply decrypt_char_acc|].
    unfold decrypt_char, __alphabet. repeat sim_out_step. }
  intros msg char s i x s' Hi (rot & speed & Hrot & Hx & Hsp & ->)%step_Some.
  rewrite (list_lookup_total_correct _ _ _ Hrot) in Hi. unfold unsubst in Hx. rewrite Hi in Hx.
  assert (MultiRotorDevice.__key s ≠ []) as Hk by (by intros Hk; rewrite Hk in Hrot).
  unfold seq_out. rewrite next_rotor_run, decide_False by done.
  unfold index, getitem, gets, lift, list_getitem.
  cbn [view MultiRotorDevice.rotor_ MultiRotorDevice.at_rotor MultiRotorDevice.__key].
  rewrite (list_lookup_total_correct _ _ _ Hrot), (list_lookup_total_correct _ _ _ Hsp), Hi, Hx.
  rewrite (Hwr _ rot speed) by (done || by intros ->).
  destruct (MultiRotorDevice.__rotate _); by text_eq.
Qed.
End methods.

(** ** The loops *)

Section loops.
Context (wb : list ascii → ascii → MultiRotorDevice.t → list ascii).
Implicit Types (s : MultiRotorDevice.t) (msg ciphertext : list ascii).

(** What [encrypt]'s loop writes over a message that goes through. *)
Lemma fold_out_encrypt msg ciphertext s out s' :
  (∀ ciphertext char s x s',
     MultiRotorDevice.step subst char s = Some (x, s') →
     wb ciphertext char s =
       encrypt_char_text char (MultiRotorDevice.__key s !!! MultiRotorDevice.selected s)
         (ciphertext ++ [x]) ++
       rotate_text (MultiRotorDevice.__key s !!! MultiRotorDevice.selected s)
         (MultiRotorDevice.__speeds s !!! MultiRotorDevice.selected s)
         (MultiRotorDevice.__key s')) →
  MultiRotorDevice.run subst msg s = Some (out, s') →
  fold_out (λ ct c, x <- MultiRotorDevice.encrypt_char c ;; ret (ct ++ [x])) wb
    msg ciphertext s = encrypt_text msg ciphertext s.
Proof.
  intros Hwb. revert ciphertext s out s'.
  induction msg as [|c msg IH]; intros ciphertext s out s' Hrun; [done|].
  unfold MultiRotorDevice.run in *. cbn [run_opt] in Hrun.
  destruct (MultiRotorDevice.step subst c s) as [[x s1]|] eqn:Hstep; [|done].
  cbn [mbind option_bind] in Hrun.
  destruct (run_opt _ msg s1) as [[ys s2]|] eqn:Hrest; [|done].
  cbn [fold_out encrypt_text]. unfold seq_out, bind.
  rewrite (proj2 (multi_encrypt_char_Ok _ _ _ _) Hstep), Hstep. cbn [ret].
  by rewrite (Hwb _ _ _ _ _ Hstep), (IH _ _ _ _ Hrest), <-app_assoc.
Qed.

Lemma fold_out_decrypt ciphertext msg s out s' :
  (∀ msg char s i x s',
     list_index (MultiRotorDevice.__key s !!! MultiRotorDevice.selected s) char = inr i →
     MultiRotorDevice.step unsubst char s = Some (x, s') →
     wb msg char s =
       decrypt_char_text (MultiRotorDevice.__key s !!! MultiRotorDevice.selected s) i ++
       rotate_text (MultiRotorDevice.__key s !!! MultiRotorDevice.selected s)
         (MultiRotorDevice.__speeds s !!! MultiRotorDevice.selected s)
         (MultiRotorDevice.__key s')) →
  MultiRotorDevice.run unsubst ciphertext s = Some (out, s') →
  fold_out (λ m c, x <- MultiRotorDevice.decrypt_char c ;; ret (m ++ [x])) wb
    ciphertext msg s = decrypt_text ciphertext s.
Proof.
  intros Hwb. revert msg s out s'.
  induction ciphertext as [|c ct IH]; intros msg s out s' Hrun; [done|].
  unfold MultiRotorDevice.run in *. cbn [run_opt] in Hrun.
  destruct (MultiRotorDevice.step unsubst c s) as [[x s1]|] eqn:Hstep; [|done].
  cbn [mbind option_bind] in Hrun.
  destruct (run_opt _ ct s1) as [[ys s2]|] eqn:Hrest; [|done].
  cbn [fold_out decrypt_text]. unfold seq_out, bind.
  rewrite (proj2 (multi_decrypt_char_Ok _ _ _ _) Hstep), Hstep. cbn [ret].
  destruct (step_unsubst_index c s x s1 Hstep) as [i Hi].
  by rewrite Hi, (Hwb _ _ _ _ _ _ Hi Hstep), (IH _ _ _ _ Hrest), <-app_assoc.
Qed.
End loops.

(** [encrypt], and what it writes when the message goes through. *)
Lemma encrypt_out :
  ∃ w, (∀ plaintext,
         sim_out (encrypt plaintext) (MultiRotorDevice.encrypt plaintext) (w plaintext)) ∧
    ∀ plaintext s ct s',
      MultiRotorDevice.run subst (normalize plaintext) s = Some (ct, s') →
      w plaintext s = banner (str "encrypting...") ++ encrypt_text (normalize plaintext) [] s.
Proof.
  destruct encrypt_char_out as (wb & Hb & Hwb). eexists. split.
  { intros plaintext. unfold encrypt, MultiRotorDevice.encrypt.
    eapply sim_out_equiv; [symmetry; apply for_acc_for_fold|].
    eapply sim_out_skip; [sim_out_printing|]. apply sim_out_for_fold, Hb. }
  intros plaintext s ct s' Hrun. cbv beta. rewrite (fold_out_encrypt _ _ _ _ _ _ Hwb Hrun).
  unfold banner. by text_eq.
Qed.

Lemma decrypt_out :
  ∃ w, (∀ ciphertext,
         sim_out (decrypt ciphertext) (MultiRotorDevice.decrypt ciphertext) (w ciphertext)) ∧
    ∀ ciphertext s msg s',
      MultiRotorDevice.run unsubst ciphertext s = Some (msg, s') →
      w ciphertext s = banner (str "decrypting...") ++ decrypt_text ciphertext s.
Proof.
  destruct decrypt_char_out as (wb & Hb & Hwb). eexists. split.
  { intros ciphertext. unfold decrypt, MultiRotorDevice.decrypt.
    eapply sim_out_equiv; [symmetry; apply for_acc_for_fold|].
    eapply sim_out_skip; [sim_out_printing|]. apply sim_out_for_fold, Hb. }
  intros ciphertext s msg s' Hrun. cbv beta. rewrite (fold_out_decrypt _ _ _ _ _ _ Hwb Hrun).
  unfold banner. by text_eq.
Qed.

Lemma sim_encrypt plaintext : sim (encrypt plaintext) (MultiRotorDevice.encrypt plaintext).
Proof. destruct encrypt_out as (w & Hw & _). eapply sim_out_sim, Hw. Qed.

Lemma sim_decrypt ciphertext : sim (decrypt ciphertext) (MultiRotorDevice.decrypt ciphertext).
Proof. destruct decrypt_out as (w & Hw & _). eapply sim_out_sim, Hw. Qed.

Lemma init_eq key rotation_speeds :
  __init__ key rotation_speeds = Build key rotation_speeds 0 false [].
Proof. done. Qed.

(** ** The class with tracing and the class without *)

(** C7: [encrypt] of the class with its tracing statements returns what
    [encrypt] without them returns on the same key, speeds and cursor, or
    raises the same exception; it leaves the same key, speeds and cursor
    and the same flag, and it only appends to the output, nothing at all
    when tracing is off. *)
Theorem traced_encrypt plaintext self :
  ∃ out, encrypt plaintext self =
           traced self out (MultiRotorDevice.encrypt plaintext (dev self)) ∧
         (__tracing self = false → out = []).
Proof. apply sim_encrypt. Qed.

(** C8: the same for [decrypt]: tracing changes what is printed and
    nothing else. *)
Theorem traced_decrypt ciphertext self :
  ∃ out, decrypt ciphertext self =
           traced self out (MultiRotorDevice.decrypt ciphertext (dev self)) ∧
         (__tracing self = false → out = []).
Proof. apply sim_decrypt. Qed.

(** C12: the round trip with the tracing statements in place: two objects
    constructed with the same valid key and speeds, each with tracing
    enabled or not, encrypt any plaintext of 7-bit characters and decrypt
    it to its normal form, and end with the same rotors and cursor. *)
Theorem traced_roundtrip key rotation_speeds plaintext (ta tb : bool) :
  MultiRotorDevice.valid_config key rotation_speeds → Forall (λ c, ascii7 c) plaintext →
  let fresh := __init__ key rotation_speeds in
  let alice := if ta then state_of (enable_tracing fresh) else fresh in
  let bob := if tb then state_of (enable_tracing fresh) else fresh in
  ∃ ct alice' bob',
    encrypt plaintext alice = Ok ct alice' ∧
    decrypt ct bob = Ok (normalize plaintext) bob' ∧
    dev bob' = dev alice'.
Proof.
  intros Hvalid%valid_config_permuted Hp fresh alice bob.
  destruct (roundtrip_permuted plaintext _ Hvalid Hp) as (ct & s & Hct & Hm & _).
  assert (dev alice = MultiRotorDevice.__init__ key rotation_speeds) as Ha by by destruct ta.
  assert (dev bob = MultiRotorDevice.__init__ key rotation_speeds) as Hb by by destruct tb.
  destruct (sim_encrypt plaintext alice) as (out1 & H1 & _).
  destruct (sim_decrypt ct bob) as (out2 & H2 & _).
  rewrite Ha, Hct in H1. rewrite Hb, Hm in H2.
  eexists ct, _, _. split_and!; [done..|]. by destruct s.
Qed.

Lemma traced_roundtrip_witness :
  let fresh := __init__ [str "BA. 0123456789CDEFGHIJKLMNOPQRSTUVWXYZ"; alphabet] [1; 2]%Z in
  ∃ ct alice' bob',
    encrypt (str "at dawn") (state_of (enable_tracing fresh)) = Ok ct alice' ∧
    decrypt ct fresh = Ok (normalize (str "at dawn")) bob' ∧
    dev bob' = dev alice'.
Proof.
  apply (traced_roundtrip [str "BA. 0123456789CDEFGHIJKLMNOPQRSTUVWXYZ"; alphabet]
           [1; 2]%Z (str "at dawn") true false).
  - by apply (bool_decide_unpack _); vm_compute.
  - by apply (bool_decide_unpack _); vm_compute.
Defined.

(** C39: what tracing prints.  With tracing on, an [encrypt] that returns
    has appended to the output exactly the banner line and then, for
    each character of the normalized plaintext in turn: the character,
    the rotor selected for it, the ciphertext with its new symbol, the
    two lines of [__rotate] with the rotor before it turns and its
    speed, and all rotors of the bank after the turn.  The value and the
    final key, speeds and cursor are those of the class without
    tracing. *)
Theorem traced_encrypt_output plaintext self ct s' :
  __tracing self = true →
  MultiRotorDevice.encrypt plaintext (dev self) = Ok ct s' →
  encrypt plaintext self =
    traced self
      (banner (str "encrypting...") ++ encrypt_text (normalize plaintext) [] (dev self))
      (Ok ct s').
Proof.
  intros Htr Henc. destruct encrypt_out as (w & Hw & Hspec).
  rewrite Hw, Htr, Henc. rewrite multi_encrypt_unfold in Henc.
  apply for_each_encrypt_run in Henc. by rewrite (Hspec _ _ _ _ Henc).
Qed.

Lemma traced_encrypt_output_witness :
  let self := state_of (enable_tracing (__init__ [str "XY"; str "PQ"] [1; 0]%Z)) in
  encrypt (str "ab") self =
    traced self
      (lines [[]; []; str " ========== encrypting...";
              str "---------- char -> A"; str "rotor: PQ"; str "ciphertext: P";
              str "---------- rotate...."; str "rotating rotor by 0:    PQ";
              str "********** rotors **********"; str "XY"; str "PQ";
              str "********** /rotors **********";
              str "---------- char -> B"; str "rotor: XY"; str "ciphertext: PY";
              str "---------- rotate...."; str "rotating rotor by 1:    XY";
              str "********** rotors **********"; str "YX"; str "PQ";
              str "********** /rotors **********"])
      (Ok (str "PY") (MultiRotorDevice.Build [str "YX"; str "PQ"] [1; 0]%Z 0)).
Proof.
  intros self. apply (traced_encrypt_output (str "ab") self); [done|by vm_compute].
Defined.

(** C40: with tracing on, a [decrypt] that returns has appended to the
    output exactly the banner line and then, for each character of the
    ciphertext in turn: the rotor selected for it, the position of the
    character in that rotor, the two lines of [__rotate] and all rotors
    of the bank after the turn.  The value and the final key, speeds and
    cursor are those of the class without tracing. *)
Theorem traced_decrypt_output ciphertext self msg s' :
  __tracing self = true →
  MultiRotorDevice.decrypt ciphertext (dev self) = Ok msg s' →
  decrypt ciphertext self =
    traced self (banner (str "decrypting...") ++ decrypt_text ciphertext (dev self))
      (Ok msg s').
Proof.
  intros Htr Hdec. destruct decrypt_out as (w & Hw & Hspec).
  rewrite Hw, Htr, Hdec. rewrite multi_decrypt_unfold in Hdec.
  apply for_each_decrypt_run in Hdec. by rewrite (Hspec _ _ _ _ Hdec).
Qed.

Lemma traced_decrypt_output_witness :
  let self := state_of (enable_tracing (__init__ [str "XY"; str "PQ"] [1; 0]%Z)) in
  decrypt (str "PY") self =
    traced self
      (lines [[]; []; str " ========== decrypting...";
              str "rotor: PQ"; str "char at rotor position 0";
              str "---------- rotate...."; str "rotating rotor by 0:    PQ";
              str "********** rotors **********"; str "XY"; str "PQ";
              str "********** /rotors **********";
              str "rotor: XY"; str "char at rotor position 1";
              str "---------- rotate...."; str "rotating rotor by 1:    XY";
              str "********** rotors **********"; str "YX"; str "PQ";
              str "********** /rotors **********"])
      (Ok (str "AB") (MultiRotorDevice.Build [str "YX"; str "PQ"] [1; 0]%Z 0)).
Proof.
  intros self. apply (traced_decrypt_output (str "PY") self); [done|by vm_compute].
Defined.
