(* ===== verification/SingleRotorBank.v ===== *)
(** * SingleRotorBank: a bank of one rotor is a one-rotor device

    The specification presents [OneRotorDevice] as the multi-rotor device
    with a bank of size one.  This file relates the two classes as they
    are written: [bank self] is the [MultiRotorDevice] that holds the key
    of the [OneRotorDevice] [self] as its only rotor, with the speed of
    [self] as that rotor's speed.  Character by character and message by
    message, the two devices return the same symbols, raise the same
    exceptions and stay related, so [bank] is a simulation in both
    directions. *)

From stdpp Require Import base tactics option list numbers strings.
From Stdlib Require Import Ascii ZArith Lia.
From S2P Require Import Prelude.
From S2P Require Import Rotor.
From S2P Require Import PyList.
From S2P Require Import Alphabet.
From S2P Require Import Normalizer.
From S2P Require Import Device.
From S2P Require Import OneRotor.
From S2P Require Import MultiRotor.

(** The multi-rotor device that corresponds to a one-rotor device. *)
Definition bank (self : OneRotorDevice.t) : MultiRotorDevice.t :=
  MultiRotorDevice.Build [OneRotorDevice.__key self] [OneRotorDevice.__speed self] 0.

(** A result of the one-rotor device, seen on the bank. *)
Definition bank_res {A} (r : res OneRotorDevice.t A) : res MultiRotorDevice.t A :=
  match r with
  | Ok a s => Ok a (bank s)
  | Raise e s => Raise e (bank s)
  end.

Section simulation.
Implicit Types (self : OneRotorDevice.t) (c x : ascii) (msg : list ascii).

Lemma bank_init key speed :
  bank (OneRotorDevice.__init__ key (Some speed)) = MultiRotorDevice.__init__ [key] [speed].
Proof. done. Qed.

Lemma bank_selected self : MultiRotorDevice.selected (bank self) = 0.
Proof. done. Qed.

Lemma bank_rotor self :
  MultiRotorDevice.__key (bank self) !! MultiRotorDevice.selected (bank self) =
    Some (OneRotorDevice.__key self).
Proof. done. Qed.

Lemma bank_turn self :
  MultiRotorDevice.turn (bank self) = Some (bank (OneRotorDevice.advance 1 self)).
Proof.
  unfold MultiRotorDevice.turn, bank, OneRotorDevice.advance, OneRotorDevice.shift. simpl.
  by rewrite Nat.add_0_r.
Qed.

Lemma bank_finish ox self :
  MultiRotorDevice.finish ox (bank self) =
    match ox with
    | Some x => Ok x (bank (OneRotorDevice.advance 1 self))
    | None => Raise IndexError (bank self)
    end.
Proof. unfold MultiRotorDevice.finish. rewrite bank_turn. by destruct ox. Qed.

(** The loop bodies agree, exceptions included. *)
Lemma bank_encrypt_char c self :
  MultiRotorDevice.encrypt_char c (bank self) = bank_res (OneRotorDevice.encrypt_char c self).
Proof.
  rewrite encrypt_char_run, one_encrypt_char_run.
  unfold subst, OneRotorDevice.encrypt_error.
  destruct (list_index alphabet c) as [e|i] eqn:Hi.
  - apply list_index_inl in Hi as [-> ?]. by rewrite decide_False.
  - rewrite bank_rotor, bank_finish. destruct (_ !! i); [done|].
    rewrite decide_True; [done|].
    apply list_elem_of_lookup. exists i. by apply list_index_lookup.
Qed.

Lemma bank_decrypt_char x self :
  MultiRotorDevice.decrypt_char x (bank self) = bank_res (OneRotorDevice.decrypt_char x self).
Proof.
  rewrite decrypt_char_run, one_decrypt_char_run, bank_rotor.
  unfold unsubst, OneRotorDevice.decrypt_error.
  destruct (list_index _ x) as [e|i] eqn:Hi.
  - apply list_index_inl in Hi as [-> ?]. by rewrite decide_False.
  - rewrite bank_finish. destruct (_ !! i); [done|].
    rewrite decide_True; [done|].
    apply list_elem_of_lookup. exists i. by apply list_index_lookup.
Qed.

(** Related loop bodies give related loops. *)
Lemma bank_for_each (body1 : ascii → M OneRotorDevice.t ascii)
    (body2 : ascii → M MultiRotorDevice.t ascii) msg self :
  (∀ c s, body2 c (bank s) = bank_res (body1 c s)) →
  for_each body2 msg (bank self) = bank_res (for_each body1 msg self).
Proof.
  intros Hbody. revert self. induction msg as [|c msg IH]; intros self; [done|].
  simpl. unfold bind. rewrite Hbody. destruct (body1 c self) as [x s|e s]; [|done].
  simpl. rewrite IH. by destruct (for_each body1 msg s).
Qed.
End simulation.

(** C17: a multi-rotor device with a single rotor behaves as the one-rotor
    device with that rotor as key and its speed: [encrypt] returns the
    same ciphertext or raises the same exception, and leaves the single
    rotor as the one-rotor device leaves its key. *)
Theorem bank_encrypt plaintext self :
  MultiRotorDevice.encrypt plaintext (bank self) =
    bank_res (OneRotorDevice.encrypt plaintext self).
Proof.
  rewrite multi_encrypt_unfold, encrypt_unfold. apply bank_for_each, bank_encrypt_char.
Qed.

(** C18: the same for [decrypt]: the one-rotor bank and the one-rotor
    device return the same message or raise the same exception, and end
    in corresponding states. *)
Theorem bank_decrypt ciphertext self :
  MultiRotorDevice.decrypt ciphertext (bank self) =
    bank_res (OneRotorDevice.decrypt ciphertext self).
Proof.
  rewrite multi_decrypt_unfold, decrypt_unfold. apply bank_for_each, bank_decrypt_char.
Qed.
