(* ===== verification/Attacker.v ===== *)
(** * Attacker: the demonstration script of src/MultiRotorDevice.py

    The script (lines 82 to 147) draws a key of six random rotors, lets
    [alice] encrypt a plaintext and [bob] decrypt the ciphertext, and then
    lets [eve] decrypt it seven times with devices built from what she is
    assumed to know of the key and of the speeds.  The theorems hold for
    every outcome of the random source, [sample], that consists of
    permutations of the alphabet, as [random.sample(alphabet,
    len(alphabet))] returns them: the script ends without an exception,
    bob sees the normalized plaintext, and each of eve's devices reads
    exactly the positions whose rotor (and, after its first use, speed)
    she has right. *)

From stdpp Require Import base tactics option list numbers strings.
From Stdlib Require Import Ascii ZArith Lia.
From S2P Require Import Prelude.
From S2P Require Import Rotor.
From S2P Require Import PyList.
From S2P Require Import Alphabet.
From S2P Require Import Normalizer.
From S2P Require Import Device.
From S2P Require Import MultiRotor.

Import MultiRotorDevice MultiRotorDemo.

(** A device of the script is built from samples: its rotors are
    permutations of the alphabet and it has a speed for every rotor. *)
Ltac solve_permuted Hs :=
  split; [done | split; [simpl; lia | simpl]];
  repeat (apply Forall_cons_2; [apply Hs|]); apply Forall_nil_2.

Section script.
Variable sample : nat → list ascii.
Hypothesis sample_permutation : ∀ k, sample k ≡ₚ Alphabet.alphabet.

Lemma alice_permuted : permuted (alice sample).
Proof. solve_permuted sample_permutation. Qed.

Lemma eves_permuted : Forall permuted (eves sample).
Proof. repeat (apply Forall_cons_2; [solve_permuted sample_permutation|]). apply Forall_nil_2. Qed.

Lemma p_ascii7 : Forall (λ c, ascii7 c) p.
Proof. by apply (bool_decide_unpack _); vm_compute. Qed.

(** Every device of the attacker returns a text. *)
Lemma attack_total c devices :
  Forall permuted devices → Forall (.∈ Alphabet.alphabet) c →
  ∃ seen, attack c devices = inr seen ∧ length seen = length devices.
Proof.
  intros Hdev Hc. induction Hdev as [|eve rest Heve _ (seen & Hseen & Hlen)]; simpl.
  - by exists [].
  - destruct (run_permuted unsubst c eve) as (m & s & Hm%for_each_decrypt_run & _);
      [apply unsubst_permuted|done..|].
    exists (m :: seen). unfold call. rewrite multi_decrypt_unfold, Hm, Hseen. simpl.
    by rewrite Hlen.
Qed.

(** Alice's ciphertext and what bob makes of it. *)
Lemma alice_bob :
  ∃ c s, encrypt p (alice sample) = Ok c s ∧ Forall (.∈ Alphabet.alphabet) c ∧
         decrypt c (bob sample) = Ok (normalize p) s.
Proof.
  destruct (roundtrip_permuted p (alice sample) alice_permuted p_ascii7)
    as (c & s & Hc & Hm & Hca).
  by exists c, s.
Qed.

(** What one of eve's devices reads right: a position whose rotor she
    holds, if it is the rotor's first use or she has its speed. *)
Lemma eve_reads eve c m n :
  call (encrypt p) (alice sample) = inr c → call (decrypt c) eve = inr m →
  __cur_rotor_idx eve = 0 → length (__key eve) = 6 →
  __key eve !! ((n + 1) mod 6) = key sample !! ((n + 1) mod 6) →
  uses (alice sample) n ((n + 1) mod 6) = 0 ∨
    __speeds eve !! ((n + 1) mod 6) = speeds !! ((n + 1) mod 6) →
  m !! n = normalize p !! n.
Proof.
  intros [s Hc]%call_inr [s' Hm]%call_inr Hidx Hlen Hrot Hsp.
  destruct alice_bob as (c' & s0 & Hc' & _ & Hbob). rewrite Hc in Hc'. simplify_eq.
  rewrite multi_decrypt_unfold, for_each_decrypt_run in Hm, Hbob.
  by apply (run_agree unsubst c' (bob sample) eve (normalize p) s0 m s' n);
    [unfold seated; simpl; lia|..].
Qed.
End script.

(** C33: for every outcome of the random source that consists of
    permutations of the alphabet, the script ends without an exception:
    alice's ciphertext is a text over the alphabet, bob sees the
    normalized plaintext, and each of eve's seven devices returns a
    text. *)
Theorem script_runs sample :
  (∀ k, sample k ≡ₚ Alphabet.alphabet) →
  ∃ c seen, main sample = inr (p, c, normalize p, seen) ∧
    Forall (.∈ Alphabet.alphabet) c ∧ length seen = 7.
Proof.
  intros Hs. destruct (alice_bob sample Hs) as (c & s & Hc & Hca & Hm).
  destruct (attack_total c (eves sample)) as (seen & Hseen & Hlen);
    [by apply eves_permuted|done|].
  exists c, seen. unfold main, call. rewrite Hc. cbn [ebind value_of].
  rewrite Hm. cbn [ebind value_of]. by rewrite Hseen.
Qed.

Lemma script_runs_witness :
  ∃ c seen, main sample_rotations = inr (p, c, normalize p, seen) ∧
    Forall (.∈ Alphabet.alphabet) c ∧ length seen = 7.
Proof.
  apply (script_runs sample_rotations).
  intros k. apply rotate_Permutation.
Defined.

(** C34: the attacker who holds all six rotors and the first five speeds
    reads every position that does not select the last rotor, and the
    first position that does (position 4), where that rotor has not
    turned yet. *)
Theorem eve_6_rotors_5_speeds_reads sample c m n :
  (∀ k, sample k ≡ₚ Alphabet.alphabet) →
  call (encrypt p) (alice sample) = inr c →
  call (decrypt c) (eve_6_rotors_5_speeds sample) = inr m →
  (n + 1) mod 6 ≠ 5 ∨ n = 4 →
  m !! n = normalize p !! n.
Proof.
  intros Hs Hc Hm Hn.
  apply (eve_reads sample Hs (eve_6_rotors_5_speeds sample) c); [done..|].
  destruct Hn as [Hn| ->]; [right|by left].
  pose proof (Nat.mod_upper_bound (n + 1) 6).
  by destruct ((n + 1) mod 6) as [|[|[|[|[|[|]]]]]]; [..|lia].
Qed.

Lemma eve_6_rotors_5_speeds_reads_witness :
  str "ATTACK LOCDTION C67530G AT DMWN. D3 NOT WNGAGEUENEMYXBEFOR5 THEN2" !! 3 = normalize p !! 3.
Proof.
  apply (eve_6_rotors_5_speeds_reads sample_rotations
           (str "I8D3ALI5A CXSBBCCBGXT9HJMQ3SO90A5Y6P1VP006VME Z03VMZ30V1QYA1 8I0.") (str "ATTACK LOCDTION C67530G AT DMWN. D3 NOT WNGAGEUENEMYXBEFOR5 THEN2") 3).
  - intros k. apply rotate_Permutation.
  - by vm_compute.
  - by vm_compute.
  - left. by vm_compute.
Defined.

(** C35: the two attackers who hold the first five rotors and a wrong
    sixth one, with five or with all six speeds, read every position that
    does not select the sixth rotor: five characters out of six, which is
    the partial reading the script announces for them. *)
Theorem eve_5_rotors_reads sample c m5 m6 n :
  (∀ k, sample k ≡ₚ Alphabet.alphabet) →
  call (encrypt p) (alice sample) = inr c →
  call (decrypt c) (eve_5_rotors_5_speeds sample) = inr m5 →
  call (decrypt c) (eve_5_rotors_6_speeds sample) = inr m6 →
  (n + 1) mod 6 ≠ 5 →
  m5 !! n = normalize p !! n ∧ m6 !! n = normalize p !! n.
Proof.
  intros Hs Hc H5 H6 Hn. pose proof (Nat.mod_upper_bound (n + 1) 6).
  split.
  - apply (eve_reads sample Hs (eve_5_rotors_5_speeds sample) c); [done..| |right];
      by destruct ((n + 1) mod 6) as [|[|[|[|[|[|]]]]]]; [..|lia].
  - apply (eve_reads sample Hs (eve_5_rotors_6_speeds sample) c); [done..| |by right].
    by destruct ((n + 1) mod 6) as [|[|[|[|[|[|]]]]]]; [..|lia].
Qed.

Lemma eve_5_rotors_reads_witness :
  str "ATTAEK LOCFTION E67530I AT DOWN. D5 NOT YNGAGEWENEMYZBEFOR7 THEN4" !! 12 =
    normalize p !! 12 ∧
  str "ATTA9K LOC7TION 3675304 AT D7WN. DJ NOT  NGAGE6ENEMY6BEFOR  THEN5" !! 12 =
    normalize p !! 12.
Proof.
  apply (eve_5_rotors_reads sample_rotations
           (str "I8D3ALI5A CXSBBCCBGXT9HJMQ3SO90A5Y6P1VP006VME Z03VMZ30V1QYA1 8I0.")).
  - intros k. apply rotate_Permutation.
  - by vm_compute.
  - by vm_compute.
  - by vm_compute.
  - by vm_compute.
Defined.

(** The attacker who holds only the first rotor, with its speed, reads
    every position that selects the first rotor: positions 5, 11, 17 and
    so on. *)
Lemma eve_first_rotor_reads sample c m n :
  (∀ k, sample k ≡ₚ Alphabet.alphabet) →
  call (encrypt p) (alice sample) = inr c →
  call (decrypt c) (eve_first_rotor_first_speed sample) = inr m →
  (n + 1) mod 6 = 0 →
  m !! n = normalize p !! n.
Proof.
  intros Hs Hc Hm Hn.
  apply (eve_reads sample Hs (eve_first_rotor_first_speed sample) c);
    [done..| |]; rewrite Hn; [done|by right].
Qed.

Lemma eve_first_rotor_reads_witness :
  str " SS BK.OOGCTHVOIB66E5CF  8CWLWMRD12 M Y2VNF1MATEM9TZWBDCWX4 SINY1" !! 5 = normalize p !! 5.
Proof.
  apply (eve_first_rotor_reads sample_rotations
           (str "I8D3ALI5A CXSBBCCBGXT9HJMQ3SO90A5Y6P1VP006VME Z03VMZ30V1QYA1 8I0.") (str " SS BK.OOGCTHVOIB66E5CF  8CWLWMRD12 M Y2VNF1MATEM9TZWBDCWX4 SINY1") 5).
  - intros k. apply rotate_Permutation.
  - by vm_compute.
  - by vm_compute.
  - done.
Defined.
